(** * to-numbers: words-to-number parsing engine

    A shallow embedding of the parsing engine of the to-numbers package
    (tokenizer.ts, localeAdapter.ts, ToNumbersCore.ts) together with the
    properties stated about it.

    Conventions of the embedding.
    - A JavaScript string is the list of its UTF-16 code units.
    - A JavaScript [Map] is an insertion-ordered association list, a [Set]
      is a duplicate-free list in insertion order.
    - Numbers.  The integers the parsers compute (word values, sums,
      coefficient * magnitude + remainder) are kept as exact [Z]: the
      additions and multiplications of doubles are exact as long as every
      result is a safe integer, which is the range this part of the
      embedding covers.  A quotient is not exact: results that may
      carry a fraction are the rationals ([Q]) that are doubles, computed
      with [fl], the rounding of IEEE 754 binary64 to nearest, ties to
      even.  Infinity and NaN have no counterpart; the theorems that pin a
      fraction bound the operands.
    - [String.prototype.toLowerCase] is modelled on the code units below
      128, where it folds A-Z and nothing else; the theorems that depend on
      case folding are stated for such strings.
    - Array indices are [nat]; the sentinel [-1] / [null] of a search is
      [None].
    - Loops whose termination is not structural carry a fuel argument and
      return [None] when it runs out; the entry points pass the length of
      the input and are shown never to run out. *)

From Stdlib Require Import String Ascii ZArith QArith Bool Arith Lia List.
Import ListNotations.
Close Scope Q_scope.
Close Scope Z_scope.
Open Scope nat_scope.

Set Implicit Arguments.

(* ================================================================== *)
(** * JavaScript strings *)

Module JsString.

Definition jsstring := list N.

(** A string literal, for examples. *)
Definition js (s : string) : jsstring :=
  map N_of_ascii (list_ascii_of_string s).

(** The values a caller may pass where a string is expected. *)
Inductive jsvalue :=
| JNull
| JUndefined
| JBoolean (b : bool)
| JNumber (z : Z)
| JString (s : jsstring).

Fixpoint str_eqb (a b : jsstring) : bool :=
  match a, b with
  | [], [] => true
  | x :: a', y :: b' => N.eqb x y && str_eqb a' b'
  | _, _ => false
  end.

(** [Array.prototype.includes] / [Set.prototype.has] on strings. *)
Definition includes (l : list jsstring) (s : jsstring) : bool :=
  existsb (str_eqb s) l.

(** The characters matched by [\s] and removed by [String.prototype.trim]:
    the WhiteSpace and LineTerminator code points. *)
Definition isJsSpace (c : N) : bool :=
  ((9 <=? c) && (c <=? 13) || (c =? 32) || (c =? 160) || (c =? 5760)
   || (8192 <=? c) && (c <=? 8202) || (c =? 8232) || (c =? 8233)
   || (c =? 8239) || (c =? 8287) || (c =? 12288) || (c =? 65279))%N.

(** The hand-written test [c === 32 || c === 9 || c === 10 || c === 13]. *)
Definition isAsciiSpace (c : N) : bool :=
  ((c =? 32) || (c =? 9) || (c =? 10) || (c =? 13))%N.

Fixpoint dropWhile (p : N -> bool) (s : jsstring) : jsstring :=
  match s with
  | [] => []
  | c :: r => if p c then dropWhile p r else s
  end.

Definition trimStart (s : jsstring) : jsstring := dropWhile isJsSpace s.
Definition trimEnd (s : jsstring) : jsstring :=
  rev (dropWhile isJsSpace (rev s)).
Definition trim (s : jsstring) : jsstring := trimEnd (trimStart s).

(** [String.prototype.toLowerCase] on strings of code units below 128: the
    letters A-Z are folded and every other unit is kept.  The Unicode case
    tables are not part of the repository; on other strings the function of
    the language folds more than this one, and the theorems that depend on
    the folding are stated for strings below 128 ([asciiString]). *)
Definition lowerUnit (c : N) : N :=
  if ((65 <=? c) && (c <=? 90))%N then (c + 32)%N else c.
Definition toLowerCase (s : jsstring) : jsstring := map lowerUnit s.

(** A string of code units below 128. *)
Definition asciiString (s : jsstring) : bool :=
  forallb (fun c => (c <? 128)%N) s.

(** [s.includes(' ')]. *)
Definition includesSpace (s : jsstring) : bool := existsb (N.eqb 32) s.

(** [s.split(' ')]. *)
Fixpoint splitSpace (s : jsstring) : list jsstring :=
  match s with
  | [] => [[]]
  | c :: r =>
      if (c =? 32)%N then [] :: splitSpace r
      else match splitSpace r with
           | w :: ws => (c :: w) :: ws
           | [] => [[c]]
           end
  end.

(** [s.split('-')]. *)
Fixpoint splitHyphen (s : jsstring) : list jsstring :=
  match s with
  | [] => [[]]
  | c :: r =>
      if (c =? 45)%N then [] :: splitHyphen r
      else match splitHyphen r with
           | w :: ws => (c :: w) :: ws
           | [] => [[c]]
           end
  end.

(** [s.split(/\s+/).length]: one more than the number of maximal runs of
    [\s] characters. *)
Fixpoint wsRuns (inRun : bool) (s : jsstring) : nat :=
  match s with
  | [] => 0
  | c :: r =>
      if isJsSpace c then (if inRun then 0 else 1) + wsRuns true r
      else wsRuns false r
  end.
Definition splitWsLength (s : jsstring) : nat := S (wsRuns false s).

(** [s.startsWith(p)]. *)
Fixpoint startsWith (s p : jsstring) : bool :=
  match p, s with
  | [], _ => true
  | x :: p', y :: s' => N.eqb x y && startsWith s' p'
  | _ :: _, [] => false
  end.

(** [s.endsWith(p)]. *)
Definition endsWith (s p : jsstring) : bool := startsWith (rev s) (rev p).

(** [parts.join(' ')]. *)
Fixpoint joinSpace (l : list jsstring) : jsstring :=
  match l with
  | [] => []
  | [w] => w
  | w :: r => w ++ 32%N :: joinSpace r
  end.

(** Truthiness of an optional string: present and not empty. *)
Definition truthy (o : option jsstring) : bool :=
  match o with
  | Some (_ :: _) => true
  | _ => false
  end.

End JsString.
Export JsString.

(* ================================================================== *)
(** * Maps, sets and sorting *)

Module Containers.

(** [Map<string, number>]: keys in order of first insertion. *)
Definition WordNumberMap := list (jsstring * Z).

Fixpoint map_get (m : WordNumberMap) (k : jsstring) : option Z :=
  match m with
  | [] => None
  | (k', v) :: r => if str_eqb k' k then Some v else map_get r k
  end.

Fixpoint map_set (m : WordNumberMap) (k : jsstring) (v : Z) : WordNumberMap :=
  match m with
  | [] => [(k, v)]
  | (k', v') :: r =>
      if str_eqb k' k then (k', v) :: r else (k', v') :: map_set r k v
  end.

Definition map_has (m : WordNumberMap) (k : jsstring) : bool :=
  match map_get m k with Some _ => true | None => false end.

Definition map_keys (m : WordNumberMap) : list jsstring := map fst m.

(** [Set<number>]. *)
Definition num_has (s : list Z) (n : Z) : bool := existsb (Z.eqb n) s.
Definition num_add (s : list Z) (n : Z) : list Z :=
  if num_has s n then s else s ++ [n].

(** [Set<string>]. *)
Definition str_add (s : list jsstring) (w : jsstring) : list jsstring :=
  if includes s w then s else s ++ [w].

(** [Array.prototype.sort(cmp)]: a stable sort; [cmp a b < 0] puts [a]
    first. *)
Section Sort.
Variable A : Type.
Variable cmp : A -> A -> Z.

Fixpoint sort_insert (x : A) (l : list A) : list A :=
  match l with
  | [] => [x]
  | y :: r => if (cmp y x <=? 0)%Z then y :: sort_insert x r else x :: l
  end.

Definition sort (l : list A) : list A :=
  fold_left (fun acc x => sort_insert x acc) l [].
End Sort.

End Containers.
Export Containers.

(* ================================================================== *)
(** * Doubles *)

Module Double.

(** The nearest integer to [n / d] for [0 <= n] and [0 < d], a tie going to
    the even one. *)
Definition roundHalfEven (n d : Z) : Z :=
  let q := (n / d)%Z in
  match (2 * (n mod d) ?= d)%Z with
  | Lt => q
  | Gt => (q + 1)%Z
  | Eq => if Z.even q then q else (q + 1)%Z
  end.

(** [floor (log2 (n / d))] for positive [n] and [d]. *)
Definition floorLog2 (n d : Z) : Z :=
  let k := (Z.log2 n - Z.log2 d)%Z in
  if (if (0 <=? k)%Z then (2 ^ k * d <=? n)%Z else (d <=? 2 ^ (- k) * n)%Z)
  then k else (k - 1)%Z.

(** The exponent of the unit in the last place of the doubles around
    [n / d]: 53 significant bits, and no exponent below that of the
    subnormal numbers. *)
Definition ulpExponent (n d : Z) : Z :=
  Z.max (-1074) (floorLog2 n d - 52).

(** The multiple of [2 ^ e] nearest to [n / d]. *)
Definition roundTo (e n d : Z) : Q :=
  if (0 <=? e)%Z then inject_Z (roundHalfEven n (d * 2 ^ e) * 2 ^ e)
  else Qred (roundHalfEven (n * 2 ^ (- e)) d # Z.to_pos (2 ^ (- e))).

(** The double nearest to the rational [x], as the arithmetic operators of
    the language round their exact result.  (A result beyond the largest
    double is [Infinity] in the language; the model has no such value.) *)
Definition fl (x : Q) : Q :=
  let x' := Qred x in
  let n := Z.abs (Qnum x') in
  let d := Zpos (Qden x') in
  if (n =? 0)%Z then 0%Q
  else
    let r := roundTo (ulpExponent n d) n d in
    if (Qnum x' <? 0)%Z then Qopp r else r.

(** [a + b] and [a / b] on doubles. *)
Definition jsAdd (a b : Q) : Q := fl (a + b)%Q.
Definition jsDiv (a b : Q) : Q := fl (a / b)%Q.

End Double.
Export Double.

(* ================================================================== *)
(** * Grammar descriptions and compiled grammars (types.ts) *)

Module Types.

(** [number | bigint]. *)
Inductive jsnumber := Num (z : Z) | Big (z : Z).

(** [string | [string, string]]. *)
Inductive wordValue := OneForm (s : jsstring) | TwoForms (a b : jsstring).

Record NumberWordMap := {
  number : jsnumber;
  value : wordValue;
  singularValue : option jsstring
}.

Record PluralFormVariants := {
  dual : option jsstring;
  paucal : option jsstring;
  plural : option jsstring
}.

Record UnitNames := {
  unit_name : jsstring;
  unit_plural : jsstring;
  unit_singular : option jsstring
}.

Record CurrencyOptions := {
  cur_main : UnitNames;
  cur_fractionalUnit : UnitNames
}.

Record Texts := {
  text_and : jsstring;
  text_minus : jsstring;
  text_only : jsstring;
  text_point : jsstring
}.

(** [OriginalLocaleConfig], the fields the adapter reads.  [pluralForms]
    lists the entries in [Object.entries] order, each key already read by
    [parseInt]. *)
Record OriginalLocaleConfig := {
  currency : CurrencyOptions;
  texts : Texts;
  numberWordsMapping : list NumberWordMap;
  exactWordsMapping : option (list NumberWordMap);
  ordinalWordsMapping : option (list NumberWordMap);
  ordinalExactWordsMapping : option (list NumberWordMap);
  ordinalSuffix : option jsstring;
  splitWord : option jsstring;
  pluralMark : option jsstring;
  pluralWords : option (list jsstring);
  pluralForms : option (list (Z * PluralFormVariants));
  trim_flag : option bool
}.

Record TextMarkers := {
  and_words : list jsstring;
  minus_words : list jsstring;
  point_words : list jsstring;
  only_words : list jsstring
}.

Record CurrencyWords := {
  mainUnit : list jsstring;
  fractionalUnit : list jsstring
}.

Record ParserLocaleConfig := {
  wordToNumber : WordNumberMap;
  scaleWords : list Z;
  impliedDualWords : list jsstring;
  oneWords : list jsstring;
  usesPostfixOne : bool;
  markers : TextMarkers;
  currencyWords : CurrencyWords;
  caseSensitive : bool;
  trimMode : bool;
  cfg_splitWord : option jsstring;
  ordinalWordToNumber : WordNumberMap;
  cfg_ordinalSuffix : option jsstring;
  sortedPhrases : list jsstring;
  multiWordPhrases : list jsstring;
  specialWords : list jsstring;
  sortedConcatenatedWords : list jsstring;
  andWordsSet : list jsstring;
  mainUnitSet : list jsstring;
  fractionalUnitSet : list jsstring;
  mainUnitMultiWord : list (list jsstring);
  fractionalUnitMultiWord : list (list jsstring)
}.

(** [Partial<CurrencyOptions>] of a call. *)
Record UnitOverride := {
  ov_name : option jsstring;
  ov_plural : option jsstring;
  ov_singular : option jsstring
}.

Record CurrencyOverride := {
  ov_main : UnitOverride;
  ov_fractionalUnit : option UnitOverride
}.

(** An optional property of an options object: missing, or present with a
    value that may be [undefined]. *)
Inductive prop (A : Type) := Absent | Present (v : option A).
Arguments Absent {A}.
Arguments Present {A} v.

(** [ConverterOptions].  [fractionalPrecision] is the option the README
    documents and the earlier declarations (dist/types.d.ts) list; the
    current type leaves it out, an options object may still carry it, and
    [Object.assign] copies it along. *)
Record ConverterOptions := {
  opt_currency : prop bool;
  opt_currencyOptions : prop CurrencyOverride;
  opt_fractionalPrecision : prop nat
}.

Record CurrencyInfo := {
  mainAmount : Z;
  fractionalAmount : Z
}.

Record ParseResult := {
  res_value : Q;
  isCurrency : bool;
  isNegative : bool;
  isOrdinal : option bool;
  currencyInfo : option CurrencyInfo
}.

End Types.
Export Types.

(* ================================================================== *)
(** * The grammar compiler (localeAdapter.ts) *)

Module LocaleAdapter.

Definition SCALE_VALUES : list Z :=
  [100; 1000; 10000; 100000; 1000000; 10000000; 100000000; 1000000000;
   10000000000; 100000000000; 1000000000000; 10000000000000;
   100000000000000; 1000000000000000; 10000000000000000]%Z.

Definition MAX_SAFE_INTEGER : Z := 9007199254740991.

Definition normalizeWord (word : jsstring) (caseSensitive : bool) : jsstring :=
  let normalized := trim word in
  if negb caseSensitive then toLowerCase normalized else normalized.

Definition nonEmpty (s : jsstring) : bool :=
  match s with [] => false | _ => true end.

Definition extractWordValue (v : wordValue) : list jsstring :=
  match v with
  | TwoForms a b => filter nonEmpty [a; b]
  | OneForm s => [s]
  end.

Definition toNumber (v : jsnumber) : Z :=
  match v with
  | Big z => if (z >? MAX_SAFE_INTEGER)%Z then MAX_SAFE_INTEGER else z
  | Num z => z
  end.

(** One entry of [numberWordsMapping]. *)
Definition addNumberWord (cs : bool) (m : WordNumberMap) (mapping : NumberWordMap)
  : WordNumberMap :=
  let m1 := fold_left
              (fun acc word => map_set acc (normalizeWord word cs)
                                       (toNumber (number mapping)))
              (extractWordValue (value mapping)) m in
  match singularValue mapping with
  | Some (c :: s) => map_set m1 (normalizeWord (c :: s) cs) (toNumber (number mapping))
  | _ => m1
  end.

(** One entry of [exactWordsMapping]: multi-word phrases are skipped. *)
Definition addExactWord (cs : bool) (m : WordNumberMap) (mapping : NumberWordMap)
  : WordNumberMap :=
  fold_left
    (fun acc word =>
       if includesSpace word then acc
       else map_set acc (normalizeWord word cs) (toNumber (number mapping)))
    (extractWordValue (value mapping)) m.

Definition addPluralWord (cs : bool) (mark : jsstring) (m : WordNumberMap)
  (word : jsstring) : WordNumberMap :=
  let pluralForm := word ++ mark in
  match map_get m (normalizeWord word cs) with
  | Some baseNumber => map_set m (normalizeWord pluralForm cs) baseNumber
  | None => m
  end.

(** [x ? normalizeWord(x, cs) : null]. *)
Definition normOpt (cs : bool) (o : option jsstring) : option jsstring :=
  if truthy o then
    match o with Some s => Some (normalizeWord s cs) | None => None end
  else None.

Definition optEqb (a b : option jsstring) : bool :=
  match a, b with
  | Some x, Some y => str_eqb x y
  | None, None => true
  | _, _ => false
  end.

(** One entry of [pluralForms]. *)
Definition addPluralForms (cs : bool) (m : WordNumberMap)
  (entry : Z * PluralFormVariants) : WordNumberMap :=
  let '(number, forms) := entry in
  let dualNorm := normOpt cs (dual forms) in
  let paucalNorm := normOpt cs (paucal forms) in
  let pluralNorm := normOpt cs (plural forms) in
  let dualIsDistinct :=
    truthy dualNorm && negb (optEqb dualNorm paucalNorm)
    && negb (optEqb dualNorm pluralNorm) in
  let m1 := match dualNorm with
            | Some (c :: s) =>
                map_set m (c :: s) (if dualIsDistinct then number * 2 else number)%Z
            | _ => m
            end in
  let m2 := match paucalNorm with
            | Some (c :: s) => map_set m1 (c :: s) number
            | _ => m1
            end in
  match pluralNorm with
  | Some (c :: s) => map_set m2 (c :: s) number
  | _ => m2
  end.

Definition buildWordToNumberMap (config : OriginalLocaleConfig) (cs : bool)
  : WordNumberMap :=
  let m0 := fold_left (addNumberWord cs) (numberWordsMapping config) [] in
  let m1 := match exactWordsMapping config with
            | Some l => fold_left (addExactWord cs) l m0
            | None => m0
            end in
  let m2 := match pluralMark config, pluralWords config with
            | Some (c :: mark), Some words =>
                fold_left (addPluralWord cs (c :: mark)) words m1
            | _, _ => m1
            end in
  match pluralForms config with
  | Some l => fold_left (addPluralForms cs) l m2
  | None => m2
  end.

(** [SCALE_VALUES.has(number / 2)]: the quotient is a member only when the
    division is exact. *)
Definition halfIsScale (n : Z) : bool :=
  Z.even n && num_has SCALE_VALUES (n / 2)%Z.

(** The test [extractScaleWords] applies to a mapped value. *)
Definition scaleTest (n : Z) : bool :=
  num_has SCALE_VALUES n || ((100 <=? n)%Z && halfIsScale n).

(** One entry of the map in [extractScaleWords]. *)
Definition addScaleWord (scaleWords : list Z) (entry : jsstring * Z) : list Z :=
  let number := snd entry in
  let s1 := if num_has SCALE_VALUES number then num_add scaleWords number
            else scaleWords in
  if (100 <=? number)%Z && halfIsScale number then num_add s1 number else s1.

Definition extractScaleWords (wordToNumber : WordNumberMap) : list Z :=
  fold_left addScaleWord wordToNumber [].

(** One entry of [pluralForms] in [extractImpliedDualWords]. *)
Definition addImpliedDual (cs : bool) (acc : list jsstring)
  (entry : Z * PluralFormVariants) : list jsstring :=
  let forms := snd entry in
  let dualNorm := normOpt cs (dual forms) in
  let paucalNorm := normOpt cs (paucal forms) in
  let pluralNorm := normOpt cs (plural forms) in
  match dualNorm with
  | Some (c :: s) =>
      if optEqb dualNorm paucalNorm || optEqb dualNorm pluralNorm
      then str_add acc (c :: s) else acc
  | _ => acc
  end.

Definition extractImpliedDualWords (config : OriginalLocaleConfig) (cs : bool)
  : list jsstring :=
  match pluralForms config with
  | Some l => fold_left (addImpliedDual cs) l []
  | None => []
  end.

Definition extractOneWords (wordToNumber : WordNumberMap) : list jsstring :=
  fold_left
    (fun oneWords kv =>
       if (snd kv =? 1)%Z && negb (includesSpace (fst kv))
       then str_add oneWords (fst kv) else oneWords)
    wordToNumber [].

Definition detectUsesPostfixOne (config : OriginalLocaleConfig)
  (scaleWords : list Z) (oneWords : list jsstring) (cs : bool) : bool :=
  match exactWordsMapping config with
  | None => false
  | Some l =>
      existsb
        (fun mapping =>
           match value mapping with
           | TwoForms _ _ => false
           | OneForm v =>
               if negb (includesSpace v) then false
               else match splitSpace v with
                    | [_; second] =>
                        let secondPart := normalizeWord second cs in
                        includes oneWords secondPart
                        && num_has scaleWords (toNumber (number mapping))
                    | _ => false
                    end
           end)
        l
  end.

Definition pushUnit (cs : bool) (acc : list jsstring) (o : option jsstring)
  : list jsstring :=
  match o with
  | Some (c :: s) => acc ++ [normalizeWord (c :: s) cs]
  | _ => acc
  end.

Definition unitWords (cs : bool) (u : UnitNames) : list jsstring :=
  pushUnit cs (pushUnit cs (pushUnit cs [] (Some (unit_name u)))
                        (Some (unit_plural u)))
          (unit_singular u).

Definition buildCurrencyWords (config : OriginalLocaleConfig) (cs : bool)
  : CurrencyWords :=
  {| mainUnit := unitWords cs (cur_main (currency config));
     fractionalUnit := unitWords cs (cur_fractionalUnit (currency config)) |}.

Definition addOrdinalWord (cs : bool) (m : WordNumberMap) (mapping : NumberWordMap)
  : WordNumberMap :=
  fold_left
    (fun acc word => map_set acc (normalizeWord word cs) (toNumber (number mapping)))
    (extractWordValue (value mapping)) m.

Definition buildOrdinalWordToNumberMap (config : OriginalLocaleConfig) (cs : bool)
  : WordNumberMap :=
  let m0 := match ordinalWordsMapping config with
            | Some l => fold_left (addOrdinalWord cs) l []
            | None => []
            end in
  match ordinalExactWordsMapping config with
  | Some l => fold_left (addOrdinalWord cs) l m0
  | None => m0
  end.

Definition marker (cs : bool) (s : jsstring) : list jsstring :=
  if nonEmpty s then [normalizeWord s cs] else [].

(** Comparator of the tokenizer's phrase order: word count descending, then
    length descending. *)
Definition phraseOrder (a b : jsstring) : Z :=
  let wordsA := Z.of_nat (splitWsLength a) in
  let wordsB := Z.of_nat (splitWsLength b) in
  if negb (wordsB =? wordsA)%Z then (wordsB - wordsA)%Z
  else (Z.of_nat (length b) - Z.of_nat (length a))%Z.

Definition lengthOrder (a b : jsstring) : Z :=
  (Z.of_nat (length b) - Z.of_nat (length a))%Z.

Definition singleUnits (units : list jsstring) : list jsstring :=
  fold_left (fun acc u => if includesSpace u then acc else str_add acc u) units [].

Definition multiUnits (units : list jsstring) : list (list jsstring) :=
  map splitSpace (filter includesSpace units).

Definition buildParserLocaleConfig (config : OriginalLocaleConfig) (cs : bool)
  : ParserLocaleConfig :=
  let wordToNumber := buildWordToNumberMap config cs in
  let scaleWords := extractScaleWords wordToNumber in
  let impliedDualWords := extractImpliedDualWords config cs in
  let oneWords := extractOneWords wordToNumber in
  let currencyWords := buildCurrencyWords config cs in
  let ordinalWordToNumber := buildOrdinalWordToNumberMap config cs in
  let texts :=
    {| and_words := marker cs (text_and (texts config));
       minus_words := marker cs (text_minus (texts config));
       point_words := marker cs (text_point (texts config));
       only_words := marker cs (text_only (texts config)) |} in
  let usesPostfixOne := detectUsesPostfixOne config scaleWords oneWords cs in
  let sortedPhrases := sort phraseOrder (map_keys wordToNumber) in
  let multiWordPhrases := filter includesSpace sortedPhrases in
  let specialWords :=
    filter nonEmpty
      (minus_words texts ++ point_words texts ++ and_words texts
       ++ only_words texts ++ mainUnit currencyWords
       ++ fractionalUnit currencyWords ++ map_keys ordinalWordToNumber) in
  let allConcatenatedWords := map_keys wordToNumber ++ specialWords in
  let sortedConcatenatedWords := sort lengthOrder allConcatenatedWords in
  {| wordToNumber := wordToNumber;
     scaleWords := scaleWords;
     impliedDualWords := impliedDualWords;
     oneWords := oneWords;
     usesPostfixOne := usesPostfixOne;
     markers := texts;
     currencyWords := currencyWords;
     caseSensitive := cs;
     trimMode := match trim_flag config with Some b => b | None => false end;
     cfg_splitWord :=
       match splitWord config with
       | Some (c :: s) => Some (normalizeWord (c :: s) cs)
       | _ => None
       end;
     ordinalWordToNumber := ordinalWordToNumber;
     cfg_ordinalSuffix :=
       match ordinalSuffix config with
       | Some (c :: s) => Some (normalizeWord (c :: s) cs)
       | _ => None
       end;
     sortedPhrases := sortedPhrases;
     multiWordPhrases := multiWordPhrases;
     specialWords := specialWords;
     sortedConcatenatedWords := sortedConcatenatedWords;
     andWordsSet := fold_left str_add (and_words texts) [];
     mainUnitSet := singleUnits (mainUnit currencyWords);
     fractionalUnitSet := singleUnits (fractionalUnit currencyWords);
     mainUnitMultiWord := multiUnits (mainUnit currencyWords);
     fractionalUnitMultiWord := multiUnits (fractionalUnit currencyWords) |}.

End LocaleAdapter.
Export LocaleAdapter.

(* ================================================================== *)
(** * The tokenizer (tokenizer.ts) *)

Module Tokenizer.

Record TokenizerOptions := {
  tk_caseSensitive : option bool;
  tk_wordMap : option WordNumberMap;
  tk_sortedPhrases : option (list jsstring)
}.

(** The text at the current position ends a match: end of input or one of
    the four blank characters. *)
Definition atBoundary (rest : jsstring) : bool :=
  match rest with
  | [] => true
  | c :: _ => isAsciiSpace c
  end.

Definition phraseMatches (rest phrase : jsstring) : bool :=
  startsWith rest phrase && atBoundary (skipn (length phrase) rest).

Fixpoint takeWord (s : jsstring) : jsstring :=
  match s with
  | [] => []
  | c :: r => if isAsciiSpace c then [] else c :: takeWord r
  end.

Definition includesHyphen (s : jsstring) : bool := existsb (N.eqb 45) s.

(** The main loop of [tokenizeWithPhrases]; [rest] is [text.slice(pos)]. *)
Fixpoint tokenizeWithPhrases_loop (fuel : nat) (wordMap : WordNumberMap)
  (sortedPhrases : list jsstring) (rest : jsstring) (tokens : list jsstring)
  : option (list jsstring) :=
  match fuel with
  | O => None
  | S fuel' =>
      match dropWhile isAsciiSpace rest with
      | [] => Some tokens
      | c :: r =>
          let here := c :: r in
          match find (phraseMatches here) sortedPhrases with
          | Some phrase =>
              tokenizeWithPhrases_loop fuel' wordMap sortedPhrases
                (skipn (length phrase) here) (tokens ++ [phrase])
          | None =>
              let word := takeWord here in
              let after := skipn (length word) here in
              if map_has wordMap word then
                tokenizeWithPhrases_loop fuel' wordMap sortedPhrases after
                  (tokens ++ [word])
              else if includesHyphen word then
                tokenizeWithPhrases_loop fuel' wordMap sortedPhrases after
                  (tokens ++ filter nonEmpty (splitHyphen word))
              else
                tokenizeWithPhrases_loop fuel' wordMap sortedPhrases after
                  (if nonEmpty word then tokens ++ [word] else tokens)
          end
      end
  end.

Definition tokenizeWithPhrases (text : jsstring) (wordMap : WordNumberMap)
  (sortedPhrases : option (list jsstring)) : option (list jsstring) :=
  tokenizeWithPhrases_loop (S (length text)) wordMap
    (match sortedPhrases with Some l => l | None => [] end) text [].

(** [text.split(/\s+/).filter(t => t.length > 0)]. *)
Fixpoint splitWords (cur : jsstring) (s : jsstring) : list jsstring :=
  match s with
  | [] => if nonEmpty cur then [cur] else []
  | c :: r =>
      if isJsSpace c then
        (if nonEmpty cur then [cur] else []) ++ splitWords [] r
      else splitWords (cur ++ [c]) r
  end.

Definition tokenize (input : jsstring) (options : TokenizerOptions)
  : option (list jsstring) :=
  let caseSensitive :=
    match tk_caseSensitive options with Some b => b | None => false end in
  match input with
  | [] => Some []
  | _ =>
      let text := trim input in
      let text := if negb caseSensitive then toLowerCase text else text in
      match tk_wordMap options with
      | Some wordMap => tokenizeWithPhrases text wordMap (tk_sortedPhrases options)
      | None =>
          Some (flat_map
                  (fun token =>
                     if includesHyphen token
                     then filter nonEmpty (splitHyphen token)
                     else [token])
                  (splitWords [] text))
      end
  end.

(** The scan that decides whether [cleanInput] has anything to do. *)
Fixpoint needsCleaning (prevWasSpace : bool) (s : jsstring) : bool :=
  match s with
  | [] => false
  | c :: r =>
      if (c =? 32)%N then
        if prevWasSpace then true else needsCleaning true r
      else if ((c =? 46) || (c =? 44))%N then
        match r with
        | [] => true
        | d :: _ => if (d =? 32)%N then true else needsCleaning false r
        end
      else needsCleaning false r
  end.

(** [s.replace(/\s+/g, ' ')]. *)
Fixpoint collapseSpaces (inRun : bool) (s : jsstring) : jsstring :=
  match s with
  | [] => []
  | c :: r =>
      if isJsSpace c then
        if inRun then collapseSpaces true r else 32%N :: collapseSpaces true r
      else c :: collapseSpaces false r
  end.

Definition isPunct (c : N) : bool := ((c =? 46) || (c =? 44))%N.

(** [s.replace(/[.,](?=\s|$)/g, '')]. *)
Fixpoint stripPunct (s : jsstring) : jsstring :=
  match s with
  | [] => []
  | c :: r =>
      if isPunct c && match r with [] => true | d :: _ => isJsSpace d end
      then stripPunct r
      else c :: stripPunct r
  end.

Definition cleanInput (input : jsvalue) : jsstring :=
  match input with
  | JString (c :: s) =>
      let trimmed := trim (c :: s) in
      if negb (needsCleaning false trimmed) then trimmed
      else stripPunct (collapseSpaces false trimmed)
  | _ => []
  end.

Definition isNumberWord (token : jsstring) (wordMap : WordNumberMap) : bool :=
  map_has wordMap token.

(** The main loop of [tokenizeConcatenated]. *)
Fixpoint tokenizeConcatenated_loop (fuel : nat) (words : list jsstring)
  (remaining : jsstring) (tokens : list jsstring) : option (list jsstring) :=
  match fuel with
  | O => None
  | S fuel' =>
      match remaining with
      | [] => Some tokens
      | _ :: tl =>
          match find (startsWith remaining) words with
          | Some word =>
              tokenizeConcatenated_loop fuel' words
                (skipn (length word) remaining) (tokens ++ [word])
          | None => tokenizeConcatenated_loop fuel' words tl tokens
          end
      end
  end.

Definition tokenizeConcatenated (input : jsstring) (wordMap : WordNumberMap)
  (caseSensitive : bool) (additionalWords : list jsstring)
  (sortedWords : option (list jsstring)) : option (list jsstring) :=
  match input with
  | [] => Some []
  | _ =>
      let text := trim input in
      let text := if negb caseSensitive then toLowerCase text else text in
      let words :=
        match sortedWords with
        | Some l => l
        | None => sort lengthOrder (map_keys wordMap ++ additionalWords)
        end in
      tokenizeConcatenated_loop (S (length text)) words text []
  end.

End Tokenizer.
Export Tokenizer.

(* ================================================================== *)
(** * The numeral parser (ToNumbersCore.ts) *)

Module ToNumbersCore.

(** A small option monad for the fuel-carrying parsers. *)
Definition bind {A B : Type} (m : option A) (k : A -> option B) : option B :=
  match m with
  | Some a => k a
  | None => None
  end.

Notation "x <- m ;; k" := (bind m (fun x => k))
  (at level 61, m at next level, right associativity).

(** [tokens.slice(start, end)]. *)
Definition slice (A : Type) (l : list A) (start stop : nat) : list A :=
  firstn (stop - start) (skipn start l).

(** [num !== undefined && config.scaleWords.has(num)], giving [num]. *)
Definition scaleNumber (config : ParserLocaleConfig) (token : jsstring)
  : option Z :=
  match map_get (wordToNumber config) token with
  | Some num => if num_has (scaleWords config) num then Some num else None
  | None => None
  end.

(** The simple sum of the word values of a list of tokens (an exact
    integer). *)
Definition sumTokens (config : ParserLocaleConfig) (tokens : list jsstring) : Z :=
  fold_left
    (fun sum token =>
       match map_get (wordToNumber config) token with
       | Some num => (sum + num)%Z
       | None => sum
       end)
    tokens 0%Z.

(** The running maximum of a scale search: [highestIdx], [highestValue],
    [highestToken], [highestScalePos]. *)
Record Highest := {
  highestIdx : nat;
  highestValue : Z;
  highestToken : jsstring;
  highestScalePos : nat
}.

Definition currentValue (best : option Highest) : Z :=
  match best with
  | Some h => highestValue h
  | None => 0%Z
  end.

(** ** Parallel-array parser (grammars without conjunction words) *)

(** One step of [for (let i = scaleStart; i < scaleEnd; i++)]. *)
Definition parallelStep (scaleIndices : list nat) (scaleValues : list Z)
  (scaleTokens : list jsstring) (start stop : nat)
  (best : option Highest) (i : nat) : option Highest :=
  match nth_error scaleIndices i, nth_error scaleValues i,
        nth_error scaleTokens i with
  | Some idx, Some val, Some tok =>
      if (start <=? idx) && (idx <? stop) then
        if (val >? currentValue best)%Z
        then Some {| highestIdx := idx; highestValue := val;
                     highestToken := tok; highestScalePos := i |}
        else best
      else best
  | _, _, _ => best
  end.

Definition isPostfixOne (config : ParserLocaleConfig) (tokens : list jsstring)
  (hasExplicitLeftCoefficient : bool) (rightStart stop : nat) : bool :=
  usesPostfixOne config && negb hasExplicitLeftCoefficient
  && (stop - rightStart =? 1)
  && match nth_error tokens rightStart with
     | Some t => includes (oneWords config) t
     | None => false
     end.

Definition isScaleWordAt (config : ParserLocaleConfig) (tokens : list jsstring)
  (i : nat) : bool :=
  match nth_error tokens i with
  | Some t => match scaleNumber config t with Some _ => true | None => false end
  | None => false
  end.

(** The recursion on the range [start, stop) with the scale words in
    parallel arrays.  [leftValue * highestValue + rightValue] and the sums
    are computed on exact integers: they are the doubles of the source as
    long as these are safe integers. *)
Fixpoint parseWithParallelScales (fuel : nat) (tokens : list jsstring)
  (start stop : nat) (config : ParserLocaleConfig)
  (scaleIndices : list nat) (scaleValues : list Z) (scaleTokens : list jsstring)
  (scaleStart scaleEnd : nat) : option Z :=
  match fuel with
  | O => None
  | S fuel' =>
      if stop <=? start then Some 0%Z
      else
        match fold_left (parallelStep scaleIndices scaleValues scaleTokens start stop)
                (seq scaleStart (scaleEnd - scaleStart)) None with
        | None => Some (sumTokens config (slice tokens start stop))
        | Some h =>
            let hasExplicitLeftCoefficient := start <? highestIdx h in
            leftValue <-
              (if hasExplicitLeftCoefficient then
                 l <- parseWithParallelScales fuel' tokens start (highestIdx h)
                        config scaleIndices scaleValues scaleTokens
                        scaleStart (highestScalePos h) ;;
                 Some (if (l =? 0)%Z then 1%Z else l)
               else if includes (impliedDualWords config) (highestToken h)
                    then Some 2%Z else Some 1%Z) ;;
            let rightStart := highestIdx h + 1 in
            rightValue <-
              (if rightStart <? stop then
                 if isPostfixOne config tokens hasExplicitLeftCoefficient rightStart stop
                 then
                   if negb (isScaleWordAt config tokens rightStart) then Some 0%Z
                   else parseWithParallelScales fuel' tokens rightStart stop
                          config scaleIndices scaleValues scaleTokens
                          (highestScalePos h + 1) scaleEnd
                 else parseWithParallelScales fuel' tokens rightStart stop
                        config scaleIndices scaleValues scaleTokens
                        (highestScalePos h + 1) scaleEnd
               else Some 0%Z) ;;
            Some (leftValue * highestValue h + rightValue)%Z
        end
  end.

(** The three parallel arrays being filled, with the loop index. *)
Definition collectParallel (config : ParserLocaleConfig)
  (acc : nat * (list nat * list Z * list jsstring)) (token : jsstring)
  : nat * (list nat * list Z * list jsstring) :=
  let '(i, (scaleIndices, scaleValues, scaleTokens)) := acc in
  match scaleNumber config token with
  | Some num =>
      (S i, (scaleIndices ++ [i], scaleValues ++ [num], scaleTokens ++ [token]))
  | None => (S i, (scaleIndices, scaleValues, scaleTokens))
  end.

Definition parseIntegerTokensNoAnd (tokens : list jsstring)
  (config : ParserLocaleConfig) : option Z :=
  let len := length tokens in
  let '(_, (scaleIndices, scaleValues, scaleTokens)) :=
    fold_left (collectParallel config) tokens (0, ([], [], [])) in
  let scaleCount := length scaleIndices in
  if scaleCount =? 0 then Some (sumTokens config tokens)
  else parseWithParallelScales (S len) tokens 0 len config
         scaleIndices scaleValues scaleTokens 0 scaleCount.

(** ** Object-array parser (after conjunction words are filtered out) *)

Record ScalePosition := {
  filteredIndex : nat;
  sp_value : Z;
  sp_token : jsstring
}.

Definition scaleStep (scalePositions : list ScalePosition) (start stop : nat)
  (best : option Highest) (i : nat) : option Highest :=
  match nth_error scalePositions i with
  | Some sp =>
      if (start <=? filteredIndex sp) && (filteredIndex sp <? stop) then
        if (sp_value sp >? currentValue best)%Z
        then Some {| highestIdx := filteredIndex sp; highestValue := sp_value sp;
                     highestToken := sp_token sp; highestScalePos := i |}
        else best
      else best
  | None => best
  end.

(** The same recursion with the scale positions in one array; exact
    integers as above. *)
Fixpoint parseIntegerTokensWithScales (fuel : nat) (tokens : list jsstring)
  (start stop : nat) (config : ParserLocaleConfig)
  (scalePositions : list ScalePosition) (scaleStart scaleEnd : nat)
  : option Z :=
  match fuel with
  | O => None
  | S fuel' =>
      if stop <=? start then Some 0%Z
      else
        match fold_left (scaleStep scalePositions start stop)
                (seq scaleStart (scaleEnd - scaleStart)) None with
        | None => Some (sumTokens config (slice tokens start stop))
        | Some h =>
            let hasExplicitLeftCoefficient := start <? highestIdx h in
            leftValue <-
              (if hasExplicitLeftCoefficient then
                 l <- parseIntegerTokensWithScales fuel' tokens start (highestIdx h)
                        config scalePositions scaleStart (highestScalePos h) ;;
                 Some (if (l =? 0)%Z then 1%Z else l)
               else if includes (impliedDualWords config) (highestToken h)
                    then Some 2%Z else Some 1%Z) ;;
            let rightStart := highestIdx h + 1 in
            rightValue <-
              (if rightStart <? stop then
                 if isPostfixOne config tokens hasExplicitLeftCoefficient rightStart stop
                 then
                   if negb (isScaleWordAt config tokens rightStart) then Some 0%Z
                   else parseIntegerTokensWithScales fuel' tokens rightStart stop
                          config scalePositions (highestScalePos h + 1) scaleEnd
                 else parseIntegerTokensWithScales fuel' tokens rightStart stop
                        config scalePositions (highestScalePos h + 1) scaleEnd
               else Some 0%Z) ;;
            Some (leftValue * highestValue h + rightValue)%Z
        end
  end.

(** One pass that drops conjunction words and records the scale words at
    their index in the filtered array. *)
Definition collectFiltered (config : ParserLocaleConfig) (skipAnd : bool)
  (acc : list jsstring * list ScalePosition) (token : jsstring)
  : list jsstring * list ScalePosition :=
  let '(filteredTokens, scalePositions) := acc in
  if skipAnd && includes (andWordsSet config) token then acc
  else
    match scaleNumber config token with
    | Some num =>
        (filteredTokens ++ [token],
         scalePositions ++ [{| filteredIndex := length filteredTokens;
                                sp_value := num; sp_token := token |}])
    | None => (filteredTokens ++ [token], scalePositions)
    end.

(** The tokens from [start] to [stop], for [stop] inside the array, as
    [parseCurrency] calls it.  (Beyond the array the loop of the source
    reads [undefined] tokens and counts them; the model is not meant for
    such a call.) *)
Definition parseIntegerTokensInRange (tokens : list jsstring) (start stop : nat)
  (config : ParserLocaleConfig) : option Z :=
  if stop <=? start then Some 0%Z
  else
    let hasAndWords := negb (length (andWordsSet config) =? 0) in
    let '(filteredTokens, scalePositions) :=
      fold_left (collectFiltered config hasAndWords)
        (slice tokens start stop) ([], []) in
    if length filteredTokens =? 0 then Some 0%Z
    else if length scalePositions =? 0 then Some (sumTokens config filteredTokens)
    else parseIntegerTokensWithScales (S (length filteredTokens)) filteredTokens
           0 (length filteredTokens) config scalePositions
           0 (length scalePositions).

(** The first pass of [parseIntegerTokens]: [effectiveLength] and the scale
    positions at their index among the kept tokens.  ([highestScaleValue] is
    computed by the source in the same pass and never read.) *)
Definition collectCounting (config : ParserLocaleConfig)
  (acc : nat * list ScalePosition) (token : jsstring)
  : nat * list ScalePosition :=
  let '(effectiveLength, scalePositions) := acc in
  if includes (andWordsSet config) token then acc
  else
    match scaleNumber config token with
    | Some num =>
        (S effectiveLength,
         scalePositions ++ [{| filteredIndex := effectiveLength;
                                sp_value := num; sp_token := token |}])
    | None => (S effectiveLength, scalePositions)
    end.

Definition notAnd (config : ParserLocaleConfig) (token : jsstring) : bool :=
  negb (includes (andWordsSet config) token).

Definition parseIntegerTokens (tokens : list jsstring)
  (config : ParserLocaleConfig) : option Z :=
  if length tokens =? 0 then Some 0%Z
  else
    let hasAndWords := negb (length (andWordsSet config) =? 0) in
    if negb hasAndWords then parseIntegerTokensNoAnd tokens config
    else
      let '(effectiveLength, scalePositions) :=
        fold_left (collectCounting config) tokens (0, []) in
      if effectiveLength =? 0 then Some 0%Z
      else if length scalePositions =? 0 then
        Some (sumTokens config (filter (notAnd config) tokens))
      else
        let filteredTokens := filter (notAnd config) tokens in
        parseIntegerTokensWithScales (S effectiveLength) filteredTokens
          0 effectiveLength config scalePositions 0 (length scalePositions).

(** ** Decimals *)

Record DecimalResult := {
  dec_value : Z;
  dec_places : option nat
}.

(** [digit.toString()] for a digit. *)
Definition digitChar (d : Z) : N := (48 + Z.to_N d)%N.

(** [parseInt(s, 10)] on a string of decimal digits; [None] is [NaN].  The
    integer is exact, as the result of the language is up to 15 digits. *)
Definition parseIntDigits (s : jsstring) : option Z :=
  match s with
  | [] => None
  | _ => Some (fold_left (fun acc c => (acc * 10 + (Z.of_N c - 48))%Z) s 0%Z)
  end.

Definition isAllSingleDigits (tokens : list jsstring)
  (config : ParserLocaleConfig) : bool :=
  forallb
    (fun token =>
       match map_get (wordToNumber config) token with
       | Some num => negb ((num <? 0)%Z || (num >? 9)%Z)
       | None => false
       end)
    tokens.

(** The number of decimal digits of a positive integer. *)
Fixpoint digitsLoop (fuel : nat) (v : Z) : nat :=
  match fuel with
  | O => 1
  | S fuel' => if (v <? 10)%Z then 1 else S (digitsLoop fuel' (v / 10)%Z)
  end.

(** [Math.floor(Math.log10(value)) + 1]; [None] is [NaN], the result for a
    negative value.  The model is the number of decimal digits.
    [Math.log10] is an approximation the language leaves to the
    implementation: its floor is the exact one as long as the logarithm of
    [10^k - 1] stays more than two units in the last place below [k], which
    holds up to 14 digits; the double nearest to the logarithm of
    [10^15 - 1] is 15 itself. *)
Definition log10Places (v : Z) : option nat :=
  if (v <? 0)%Z then None
  else Some (digitsLoop (Z.to_nat (Z.log2 v)) v).

Definition parseDecimalTokens (tokens : list jsstring)
  (config : ParserLocaleConfig) : option DecimalResult :=
  match tokens with
  | [] => Some {| dec_value := 0; dec_places := Some 0 |}
  | first :: _ =>
      let hasZeroPrefix :=
        match map_get (wordToNumber config) first with
        | Some d => (d =? 0)%Z
        | None => false
        end in
      if hasZeroPrefix || isAllSingleDigits tokens config then
        let decimalStr :=
          fold_left
            (fun str token =>
               match map_get (wordToNumber config) token with
               | Some digit =>
                   if (0 <=? digit)%Z && (digit <=? 9)%Z
                   then str ++ [digitChar digit] else str
               | None => str
               end)
            tokens [] in
        let places := length decimalStr in
        let value := match parseIntDigits decimalStr with
                     | Some v => v
                     | None => 0%Z
                     end in
        Some {| dec_value := value; dec_places := Some places |}
      else
        value <- parseIntegerTokens tokens config ;;
        Some {| dec_value := value;
                dec_places := if (value =? 0)%Z then Some 0
                              else log10Places value |}
  end.

Definition pow10 (n : nat) : Q := inject_Z (10 ^ Z.of_nat n).

(** [Math.pow(10, n)]: the double nearest to the power, which is the power
    itself up to [n = 22]. *)
Definition mathPow10 (n : nat) : Q := fl (pow10 n).

(** [integerPart + decimalPart / divisor], each operator rounding. *)
Definition combineIntegerAndDecimal (integerPart decimalPart : Z)
  (decimalPlaces : nat) : Q :=
  if (decimalPart =? 0)%Z || (decimalPlaces =? 0) then inject_Z integerPart
  else jsAdd (inject_Z integerPart)
         (jsDiv (inject_Z decimalPart) (mathPow10 decimalPlaces)).

Definition firstWord (l : list jsstring) : option jsstring :=
  match l with
  | w :: _ => Some w
  | [] => None
  end.

(** The index of the first element satisfying [p]. *)
Fixpoint findIndex (A : Type) (p : A -> bool) (l : list A) : option nat :=
  match l with
  | [] => None
  | x :: r => if p x then Some 0
              else match findIndex p r with
                   | Some i => Some (S i)
                   | None => None
                   end
  end.

(** The result is relative to [start]; [None] is [-1]. *)
Definition findPointIndexInRange (tokens : list jsstring) (start stop : nat)
  (config : ParserLocaleConfig) : option nat :=
  let pointWord := firstWord (point_words (markers config)) in
  let andWord := firstWord (and_words (markers config)) in
  if truthy pointWord && truthy andWord && optEqb pointWord andWord then None
  else findIndex (includes (point_words (markers config)))
         (slice tokens start stop).

Definition placesPositive (p : option nat) : bool :=
  match p with
  | Some n => 0 <? n
  | None => false
  end.

Definition placesOr0 (p : option nat) : nat :=
  match p with Some n => n | None => 0 end.

(** The integer and decimal parts on either side of the point. *)
Definition parseAroundPoint (numberTokens : list jsstring) (pointIndex : nat)
  (config : ParserLocaleConfig) : option Q :=
  let integerTokens := slice numberTokens 0 pointIndex in
  let decimalTokens := skipn (pointIndex + 1) numberTokens in
  integerPart <-
    (if 0 <? length integerTokens then parseIntegerTokens integerTokens config
     else Some 0%Z) ;;
  decimalResult <- parseDecimalTokens decimalTokens config ;;
  if placesPositive (dec_places decimalResult) then
    Some (combineIntegerAndDecimal integerPart (dec_value decimalResult)
            (placesOr0 (dec_places decimalResult)))
  else Some (inject_Z integerPart).

Definition startsWithMinus (config : ParserLocaleConfig)
  (tokens : list jsstring) : bool :=
  match tokens with
  | t :: _ => includes (minus_words (markers config)) t
  | [] => false
  end.

Definition parseNumberFromTokens (tokens : list jsstring)
  (config : ParserLocaleConfig) : option Q :=
  match tokens with
  | [] => Some 0%Q
  | _ =>
      if negb (startsWithMinus config tokens) then
        match findPointIndexInRange tokens 0 (length tokens) config with
        | None =>
            result <- parseIntegerTokens tokens config ;;
            Some (inject_Z result)
        | Some pointIndex => parseAroundPoint tokens pointIndex config
        end
      else
        let numberTokens := skipn 1 tokens in
        result <-
          match findPointIndexInRange numberTokens 0 (length numberTokens) config with
          | None =>
              integerPart <- parseIntegerTokens numberTokens config ;;
              Some (inject_Z integerPart)
          | Some pointIndex => parseAroundPoint numberTokens pointIndex config
          end ;;
        Some (- result)%Q
  end.

(** ** Ordinals *)

Record OrdinalInfo := {
  ordinalTokenIndex : nat;
  ordinalValue : Z
}.

Definition lastToken (tokens : list jsstring) : jsstring := last tokens [].

Definition detectOrdinal (tokens : list jsstring) (config : ParserLocaleConfig)
  : option OrdinalInfo :=
  if (length tokens =? 0) || (length (ordinalWordToNumber config) =? 0) then None
  else
    let exact :=
      if length tokens <=? 4
      then map_get (ordinalWordToNumber config) (joinSpace tokens)
      else None in
    match exact with
    | Some exactMatch => Some {| ordinalTokenIndex := 0; ordinalValue := exactMatch |}
    | None =>
        let lastTok := lastToken tokens in
        match map_get (ordinalWordToNumber config) lastTok with
        | Some v => Some {| ordinalTokenIndex := length tokens - 1; ordinalValue := v |}
        | None =>
            match cfg_ordinalSuffix config with
            | Some (c :: sfx) =>
                let suffix := c :: sfx in
                if endsWith lastTok suffix then
                  let baseWord := firstn (length lastTok - length suffix) lastTok in
                  match map_get (wordToNumber config) baseWord with
                  | Some baseValue =>
                      Some {| ordinalTokenIndex := length tokens - 1;
                              ordinalValue := baseValue |}
                  | None => None
                  end
                else None
            | _ => None
            end
        end
    end.

Definition parseOrdinalFromTokens (tokens : list jsstring)
  (config : ParserLocaleConfig) : option (option Z) :=
  match tokens with
  | [] => Some None
  | _ =>
      let startIndex := if startsWithMinus config tokens then 1 else 0 in
      let numberTokens := if startIndex =? 0 then tokens else skipn startIndex tokens in
      if length numberTokens =? 0 then Some None
      else
        match detectOrdinal numberTokens config with
        | None => Some None
        | Some ordinalInfo =>
            if (ordinalTokenIndex ordinalInfo =? 0) && (length numberTokens =? 1)
            then Some (Some (ordinalValue ordinalInfo))
            else if (ordinalTokenIndex ordinalInfo =? 0) && (1 <? length numberTokens)
            then Some (Some (ordinalValue ordinalInfo))
            else
              let cardinalTokens := slice numberTokens 0 (ordinalTokenIndex ordinalInfo) in
              if length cardinalTokens =? 0
              then Some (Some (ordinalValue ordinalInfo))
              else
                cardinalPart <- parseIntegerTokens cardinalTokens config ;;
                Some (Some (cardinalPart + ordinalValue ordinalInfo)%Z)
        end
  end.

(** ** The facade: instances, tokens, currency, [convert] and [parse] *)

(** The errors of the facade: [Invalid Input "..."], and the error of
    [getLocaleClass] when no locale is set on the instance (the registry
    subclass reports an unknown locale code the same way). *)
Inductive error :=
| InvalidInput (words : jsvalue)
| NoLocaleSet.

Inductive outcome (A : Type) :=
| Returns (a : A)
| Throws (e : error)
| OutOfFuel.
Arguments Returns {A} a.
Arguments Throws {A} e.
Arguments OutOfFuel {A}.

Definition lift {A : Type} (m : option A) : outcome A :=
  match m with
  | Some a => Returns a
  | None => OutOfFuel
  end.

Definition andThen {A B : Type} (m : outcome A) (k : A -> outcome B)
  : outcome B :=
  match m with
  | Returns a => k a
  | Throws e => Throws e
  | OutOfFuel => OutOfFuel
  end.

Notation "x <-- m ;; k" := (andThen m (fun x => k))
  (at level 61, m at next level, right associativity).

Definition DefaultConverterOptions : ConverterOptions :=
  {| opt_currency := Present (Some false);
     opt_currencyOptions := Absent;
     opt_fractionalPrecision := Absent |}.

(** A configured parser: the merged constructor options and the locale
    class set on it, if any.  [getParserConfig] compiles the locale on first
    use and keeps the result; the compiled grammar is a function of the
    locale alone. *)
Record Instance := {
  converterOptions : option ConverterOptions;
  localeClass : option OriginalLocaleConfig
}.

Definition getLocaleClass (self : Instance) : outcome OriginalLocaleConfig :=
  match localeClass self with
  | Some locale => Returns locale
  | None => Throws NoLocaleSet
  end.

Definition getParserConfig (self : Instance) : outcome ParserLocaleConfig :=
  locale <-- getLocaleClass self ;;
  Returns (buildParserLocaleConfig locale false).

Definition getTokensWith (config : ParserLocaleConfig) (words : jsvalue)
  : option (list jsstring) :=
  let cleaned := cleanInput words in
  if trimMode config then
    tokenizeConcatenated cleaned (wordToNumber config) (caseSensitive config)
      (specialWords config) (Some (sortedConcatenatedWords config))
  else
    tokenize cleaned
      {| tk_caseSensitive := Some (caseSensitive config);
         tk_wordMap := Some (wordToNumber config);
         tk_sortedPhrases := Some (multiWordPhrases config) |}.

Definition getTokens (self : Instance) (words : jsvalue)
  : outcome (list jsstring) :=
  config <-- getParserConfig self ;;
  lift (getTokensWith config words).

Definition isValidInput (input : jsvalue) : bool :=
  match input with
  | JString s => existsb (fun c => negb (isAsciiSpace c)) s
  | _ => false
  end.

Definition assignProp {A : Type} (base over : prop A) : prop A :=
  match over with
  | Present v => Present v
  | Absent => base
  end.

(** [Object.assign({}, base, over)]. *)
Definition assignOptions (base : option ConverterOptions)
  (over : ConverterOptions) : ConverterOptions :=
  match base with
  | None => over
  | Some b =>
      {| opt_currency := assignProp (opt_currency b) (opt_currency over);
         opt_currencyOptions :=
           assignProp (opt_currencyOptions b) (opt_currencyOptions over);
         opt_fractionalPrecision :=
           assignProp (opt_fractionalPrecision b) (opt_fractionalPrecision over) |}
  end.

Definition defined {A : Type} (p : prop A) : bool :=
  match p with
  | Present (Some _) => true
  | _ => false
  end.

Definition mergeOptions (self : Instance) (options : ConverterOptions)
  : ConverterOptions :=
  let hasCustomOptions :=
    defined (opt_currency options) || defined (opt_currencyOptions options) in
  if hasCustomOptions then assignOptions (converterOptions self) options
  else match converterOptions self with
       | Some o => o
       | None => options
       end.

Definition currencyMode (options : ConverterOptions) : bool :=
  match opt_currency options with
  | Present (Some b) => b
  | _ => false
  end.

Definition lowerIfSet (acc : list jsstring) (o : option jsstring)
  : list jsstring :=
  match o with
  | Some (c :: s) => acc ++ [toLowerCase (c :: s)]
  | _ => acc
  end.

Definition overrideWords (u : UnitOverride) : list jsstring :=
  lowerIfSet (lowerIfSet (lowerIfSet [] (ov_name u)) (ov_plural u)) (ov_singular u).

(** [[...new Set(l)]]. *)
Definition dedupe (l : list jsstring) : list jsstring := fold_left str_add l [].

Definition getCurrencyConfig (config : ParserLocaleConfig)
  (options : ConverterOptions) : CurrencyWords :=
  match opt_currencyOptions options with
  | Present (Some co) =>
      let mainU := overrideWords (ov_main co) in
      let fractionalU :=
        match ov_fractionalUnit co with
        | Some fu => overrideWords fu
        | None => []
        end in
      {| mainUnit := dedupe (mainU ++ mainUnit (currencyWords config));
         fractionalUnit :=
           dedupe (fractionalU ++ fractionalUnit (currencyWords config)) |}
  | _ => currencyWords config
  end.

Fixpoint matchesAt (tokens : list jsstring) (i stop : nat)
  (unitParts : list jsstring) : bool :=
  match unitParts with
  | [] => true
  | part :: rest =>
      (i <? stop)
      && match nth_error tokens i with
         | Some t => str_eqb t part
         | None => false
         end
      && matchesAt tokens (S i) stop rest
  end.

Record UnitMatch := {
  startIndex : nat;
  endIndex : nat
}.

Fixpoint findCurrencyUnitLoop (count i : nat) (tokens : list jsstring)
  (stop : nat) (singleWordSet : list jsstring)
  (multiWordUnits : list (list jsstring)) : option UnitMatch :=
  match count with
  | O => None
  | S count' =>
      match find (matchesAt tokens i stop) multiWordUnits with
      | Some unitParts =>
          Some {| startIndex := i; endIndex := i + length unitParts |}
      | None =>
          if match nth_error tokens i with
             | Some t => includes singleWordSet t
             | None => false
             end
          then Some {| startIndex := i; endIndex := i + 1 |}
          else findCurrencyUnitLoop count' (S i) tokens stop
                 singleWordSet multiWordUnits
      end
  end.

Definition findCurrencyUnitInRange (tokens : list jsstring) (start stop : nat)
  (singleWordSet : list jsstring) (multiWordUnits : list (list jsstring))
  : option UnitMatch :=
  findCurrencyUnitLoop (stop - start) start tokens stop
    singleWordSet multiWordUnits.

Definition tokenAt (tokens : list jsstring) (i : nat) (p : jsstring -> bool)
  : bool :=
  match nth_error tokens i with
  | Some t => p t
  | None => false
  end.

(** [mainAmount + fractionalAmount / 100] in doubles, and the result
    object. *)
Definition currencyValue (main fractional : Z) : Q :=
  jsAdd (inject_Z main) (jsDiv (inject_Z fractional) 100).

Definition currencyResult (isNeg : bool) (main fractional : Z) : ParseResult :=
  let value := currencyValue main fractional in
  {| res_value := if isNeg then (- value)%Q else value;
     isCurrency := true;
     isNegative := isNeg;
     isOrdinal := None;
     currencyInfo := Some {| mainAmount := main; fractionalAmount := fractional |} |}.

(** The end of the token range: a trailing "only" word is left out. *)
Definition tokenEndOf (config : ParserLocaleConfig) (tokens : list jsstring)
  (tokenStart : nat) : nat :=
  if (tokenStart <? length tokens)
     && tokenAt tokens (length tokens - 1)
          (includes (only_words (markers config)))
  then length tokens - 1 else length tokens.

(** The main-unit and the fractional-unit match, from the compiled sets or,
    with currency overrides, from sets built for the call. *)
Definition findUnitMatches (tokens : list jsstring) (tokenStart tokenEnd : nat)
  (config : ParserLocaleConfig) (options : ConverterOptions)
  : option UnitMatch * option UnitMatch :=
  if negb (defined (opt_currencyOptions options)) then
    (findCurrencyUnitInRange tokens tokenStart tokenEnd
       (mainUnitSet config) (mainUnitMultiWord config),
     findCurrencyUnitInRange tokens tokenStart tokenEnd
       (fractionalUnitSet config) (fractionalUnitMultiWord config))
  else
    let customConfig := getCurrencyConfig config options in
    (findCurrencyUnitInRange tokens tokenStart tokenEnd
       (dedupe (filter (fun u => negb (includesSpace u)) (mainUnit customConfig)))
       (map splitSpace (filter includesSpace (mainUnit customConfig))),
     findCurrencyUnitInRange tokens tokenStart tokenEnd
       (dedupe (filter (fun u => negb (includesSpace u))
                  (fractionalUnit customConfig)))
       (map splitSpace (filter includesSpace (fractionalUnit customConfig)))).

(** Where the fractional amount starts: after the main unit and one
    optional conjunction word. *)
Definition fractionalStartOf (config : ParserLocaleConfig)
  (tokens : list jsstring) (m : UnitMatch) (tokenEnd : nat) : nat :=
  if (endIndex m <? tokenEnd)
     && tokenAt tokens (endIndex m) (includes (andWordsSet config))
  then endIndex m + 1 else endIndex m.

Definition parseCurrencyTokens (tokens : list jsstring)
  (config : ParserLocaleConfig) (options : ConverterOptions)
  : option ParseResult :=
  if length tokens =? 0 then
    Some {| res_value := 0%Q; isCurrency := true; isNegative := false;
            isOrdinal := None;
            currencyInfo := Some {| mainAmount := 0; fractionalAmount := 0 |} |}
  else
    let isNeg := startsWithMinus config tokens in
    let tokenStart := if isNeg then 1 else 0 in
    let tokenEnd := tokenEndOf config tokens tokenStart in
    match findUnitMatches tokens tokenStart tokenEnd config options with
    | (None, None) =>
        main <- parseIntegerTokensInRange tokens tokenStart tokenEnd config ;;
        Some (currencyResult isNeg main 0)
    | (Some m, None) =>
        main <- parseIntegerTokensInRange tokens tokenStart (startIndex m) config ;;
        Some (currencyResult isNeg main 0)
    | (None, Some f) =>
        fractional <-
          parseIntegerTokensInRange tokens tokenStart (startIndex f) config ;;
        Some (currencyResult isNeg 0 fractional)
    | (Some m, Some f) =>
        main <- parseIntegerTokensInRange tokens tokenStart (startIndex m) config ;;
        let fractionalStart := fractionalStartOf config tokens m tokenEnd in
        fractional <-
          parseIntegerTokensInRange tokens fractionalStart (startIndex f) config ;;
        Some (currencyResult isNeg main fractional)
    end.

Definition parseCurrency (self : Instance) (words : jsvalue)
  (options : ConverterOptions) : outcome ParseResult :=
  config <-- getParserConfig self ;;
  tokens <-- getTokens self words ;;
  lift (parseCurrencyTokens tokens config options).

Definition Qltb (a b : Q) : bool := negb (Qle_bool b a).

(** The part of [convert] after validation and the currency test. *)
Definition convertTokens (tokens : list jsstring) (config : ParserLocaleConfig)
  : option Q :=
  if length tokens =? 0 then Some 0%Q
  else
    ordinalResult <- parseOrdinalFromTokens tokens config ;;
    match ordinalResult with
    | Some v => Some (inject_Z v)
    | None => parseNumberFromTokens tokens config
    end.

Definition convert (self : Instance) (words : jsvalue)
  (options : ConverterOptions) : outcome Q :=
  let mergedOptions := mergeOptions self options in
  if negb (isValidInput words) then Throws (InvalidInput words)
  else if currencyMode mergedOptions then
    result <-- parseCurrency self words mergedOptions ;;
    Returns (res_value result)
  else
    config <-- getParserConfig self ;;
    tokens <-- getTokens self words ;;
    lift (convertTokens tokens config).

(** The part of [parse] after validation and the currency test. *)
Definition parseTokens (tokens : list jsstring) (config : ParserLocaleConfig)
  : option ParseResult :=
  if length tokens =? 0 then
    Some {| res_value := 0%Q; isCurrency := false; isNegative := false;
            isOrdinal := None; currencyInfo := None |}
  else
    ordinalResult <- parseOrdinalFromTokens tokens config ;;
    match ordinalResult with
    | Some v =>
        Some {| res_value := inject_Z v; isCurrency := false;
                isNegative := (v <? 0)%Z; isOrdinal := Some true;
                currencyInfo := None |}
    | None =>
        value <- parseNumberFromTokens tokens config ;;
        Some {| res_value := value; isCurrency := false;
                isNegative := Qltb value 0; isOrdinal := None;
                currencyInfo := None |}
    end.

Definition parse (self : Instance) (words : jsvalue)
  (options : ConverterOptions) : outcome ParseResult :=
  let mergedOptions := mergeOptions self options in
  if negb (isValidInput words) then Throws (InvalidInput words)
  else if currencyMode mergedOptions then
    parseCurrency self words mergedOptions
  else
    config <-- getParserConfig self ;;
    tokens <-- getTokens self words ;;
    lift (parseTokens tokens config).

End ToNumbersCore.
Export ToNumbersCore.

(* ================================================================== *)
(** * Specifications *)

Module Spec.

(** ** Integer phrases: highest scale wins *)

(** Every scale value of the grammar is positive. *)
Definition scalesPositive (config : ParserLocaleConfig) : Prop :=
  forall n, num_has (scaleWords config) n = true -> (0 < n)%Z.

(** Scale words of [l] are all below [m] / not above [m]. *)
Definition scalesBelow (config : ParserLocaleConfig) (m : Z)
  (l : list jsstring) : Prop :=
  Forall (fun x => forall v, scaleNumber config x = Some v -> (v < m)%Z) l.

Definition scalesAtMost (config : ParserLocaleConfig) (m : Z)
  (l : list jsstring) : Prop :=
  Forall (fun x => forall v, scaleNumber config x = Some v -> (v <= m)%Z) l.

(** The coefficient of a scale word that stands first. *)
Definition bareCoefficient (config : ParserLocaleConfig) (t : jsstring) : Z :=
  if includes (impliedDualWords config) t then 2%Z else 1%Z.

(** A coefficient that parsed to zero counts as one. *)
Definition orOne (c : Z) : Z := if (c =? 0)%Z then 1%Z else c.

(** The tokens after a scale word that stands first are exactly one
    "one"-word (not itself a scale word) and the grammar uses postfix one. *)
Definition suppresses (config : ParserLocaleConfig) (r : list jsstring) : bool :=
  usesPostfixOne config
  && match r with
     | [w] => includes (oneWords config) w
              && match scaleNumber config w with Some _ => false | None => true end
     | _ => false
     end.

(** The value of a token sequence from which the conjunction tokens have
    been dropped.  In the three scale rules the sequence is split at the
    first scale word of greatest magnitude. *)
Inductive IntegerValue (config : ParserLocaleConfig)
  : list jsstring -> Z -> Prop :=
| IV_sum : forall toks,
    Forall (fun t => scaleNumber config t = None) toks ->
    IntegerValue config toks (sumTokens config toks)
| IV_bare : forall t r m rem,
    scaleNumber config t = Some m ->
    scalesAtMost config m r ->
    suppresses config r = false ->
    IntegerValue config r rem ->
    IntegerValue config (t :: r) (bareCoefficient config t * m + rem)
| IV_postfix : forall t r m,
    scaleNumber config t = Some m ->
    scalesAtMost config m r ->
    suppresses config r = true ->
    IntegerValue config (t :: r) (bareCoefficient config t * m)
| IV_coef : forall l t r m c rem,
    l <> [] ->
    scaleNumber config t = Some m ->
    scalesBelow config m l ->
    scalesAtMost config m r ->
    IntegerValue config l c ->
    IntegerValue config r rem ->
    IntegerValue config (l ++ t :: r) (orOne c * m + rem).

Definition ParsesInteger (config : ParserLocaleConfig)
  (tokens : list jsstring) (n : Z) : Prop :=
  IntegerValue config (filter (notAnd config) tokens) n.

(** The same algorithm as the sentence about integer parsing words it: an
    empty left part always gives coefficient 1 and the right part is always
    parsed as the remainder. *)
Inductive ClaimedIntegerValue (config : ParserLocaleConfig)
  : list jsstring -> Z -> Prop :=
| CIV_sum : forall toks,
    Forall (fun t => scaleNumber config t = None) toks ->
    ClaimedIntegerValue config toks (sumTokens config toks)
| CIV_bare : forall t r m rem,
    scaleNumber config t = Some m ->
    scalesAtMost config m r ->
    ClaimedIntegerValue config r rem ->
    ClaimedIntegerValue config (t :: r) (1 * m + rem)
| CIV_coef : forall l t r m c rem,
    l <> [] ->
    scaleNumber config t = Some m ->
    scalesBelow config m l ->
    scalesAtMost config m r ->
    ClaimedIntegerValue config l c ->
    ClaimedIntegerValue config r rem ->
    ClaimedIntegerValue config (l ++ t :: r) (orOne c * m + rem).

Definition ClaimedParsesInteger (config : ParserLocaleConfig)
  (tokens : list jsstring) (n : Z) : Prop :=
  ClaimedIntegerValue config (filter (notAnd config) tokens) n.

(** The scale positions of a token array, counted from index [i]. *)
Fixpoint scaleTable (config : ParserLocaleConfig) (i : nat)
  (tokens : list jsstring) : list ScalePosition :=
  match tokens with
  | [] => []
  | t :: r =>
      match scaleNumber config t with
      | Some v => {| filteredIndex := i; sp_value := v; sp_token := t |}
                  :: scaleTable config (S i) r
      | None => scaleTable config (S i) r
      end
  end.

(** What a scale table records about a token array. *)
Definition TableOf (config : ParserLocaleConfig) (toks : list jsstring)
  (sp : list ScalePosition) : Prop :=
  (forall k p, nth_error sp k = Some p ->
     nth_error toks (filteredIndex p) = Some (sp_token p)
     /\ scaleNumber config (sp_token p) = Some (sp_value p))
  /\ (forall j t v, nth_error toks j = Some t -> scaleNumber config t = Some v ->
        exists k, nth_error sp k
                  = Some {| filteredIndex := j; sp_value := v; sp_token := t |})
  /\ (forall k1 k2 p1 p2, k1 < k2 -> nth_error sp k1 = Some p1 ->
        nth_error sp k2 = Some p2 -> filteredIndex p1 < filteredIndex p2).


(** The result of the scale search over positions [ss .. ss + n). *)
Definition SearchResult (sp : list ScalePosition) (start stop ss n : nat)
  (best : option Highest) : Prop :=
  match best with
  | None =>
      forall k p, ss <= k < ss + n -> nth_error sp k = Some p ->
        start <= filteredIndex p < stop -> (sp_value p <= 0)%Z
  | Some h =>
      ss <= highestScalePos h < ss + n
      /\ nth_error sp (highestScalePos h)
         = Some {| filteredIndex := highestIdx h; sp_value := highestValue h;
                   sp_token := highestToken h |}
      /\ start <= highestIdx h < stop
      /\ (0 < highestValue h)%Z
      /\ (forall k p, ss <= k < highestScalePos h -> nth_error sp k = Some p ->
            start <= filteredIndex p < stop -> (sp_value p < highestValue h)%Z)
      /\ (forall k p, highestScalePos h < k < ss + n -> nth_error sp k = Some p ->
            start <= filteredIndex p < stop -> (sp_value p <= highestValue h)%Z)
  end.

(** A decimal digit. *)
Definition isDigit (d : Z) : Prop := (0 <= d <= 9)%Z.

(** A token that maps to a single digit. *)
Definition digitWord (config : ParserLocaleConfig) (t : jsstring) : Prop :=
  exists d, map_get (wordToNumber config) t = Some d /\ isDigit d.

(** No word of the grammar stands for a negative number. *)
Definition wordsNonNegative (config : ParserLocaleConfig) : bool :=
  forallb (fun entry => (0 <=? snd entry)%Z) (wordToNumber config).

(** An integer that doubles hold exactly, and with them every integer of
    smaller magnitude. *)
Definition safeInteger (z : Z) : Prop :=
  (- MAX_SAFE_INTEGER <= z <= MAX_SAFE_INTEGER)%Z.

(** The words of a space-free grammar are all non-empty. *)
Definition wordsNonEmpty (config : ParserLocaleConfig) : Prop :=
  trimMode config = true -> ~ In [] (map_keys (wordToNumber config)).

(** Neither end of the string is a whitespace character. *)
Definition tight (l : jsstring) : Prop := trimStart l = l /\ trimEnd l = l.

(** A string [cleanInput] has nothing to do on: no whitespace at either
    end, no two spaces in a row and no full stop or comma before a space or
    at the end. *)
Definition settled (t : jsstring) : Prop :=
  tight t /\ needsCleaning false t = false.

(** Every full stop or comma of [u] that [stripPunct] removes (one before a
    whitespace character or at the end) directly follows a character that
    is neither whitespace nor a full stop or comma; [prev] is the character
    before [u]. *)
Fixpoint marksFollowWordsFrom (prev : option N) (u : jsstring) : bool :=
  match u with
  | [] => true
  | c :: r =>
      (if isPunct c && match r with [] => true | d :: _ => isJsSpace d end
       then match prev with
            | Some p => negb (isJsSpace p) && negb (isPunct p)
            | None => false
            end
       else true)
      && marksFollowWordsFrom (Some c) r
  end.

(** The same for a whole string; a string of one character is cleaned to
    itself or to the empty string. *)
Definition marksFollowWords (u : jsstring) : bool :=
  match u with
  | [c] => true
  | _ => marksFollowWordsFrom None u
  end.

(** Single spaces only: every whitespace character is a space, none follows
    a space and none ends the string; [prevSpace] says that a space, or the
    start of the string, comes before. *)
Fixpoint singleSpaced (prevSpace : bool) (u : jsstring) : bool :=
  match u with
  | [] => negb prevSpace
  | c :: r =>
      if isJsSpace c then (c =? 32)%N && negb prevSpace && singleSpaced true r
      else singleSpaced false r
  end.

(** The last character is no whitespace; [prevSpace] stands for the
    character before the string. *)
Fixpoint endsClean (prevSpace : bool) (t : jsstring) : bool :=
  match t with
  | [] => negb prevSpace
  | c :: r => endsClean (isJsSpace c) r
  end.

End Spec.
Export Spec.

(* ================================================================== *)
(** * Example grammars

    Small grammars in the shape of the repository's locale files, used to
    run the engine on concrete phrases. *)

Module Examples.

Open Scope string_scope.

Definition word (n : Z) (s : string) : NumberWordMap :=
  {| number := Num n; value := OneForm (js s); singularValue := None |}.

Definition units (name plural : string) : UnitNames :=
  {| unit_name := js name; unit_plural := js plural;
     unit_singular := Some (js name) |}.

(** English, short scale (the words of the en-US table the examples need). *)
Definition english : OriginalLocaleConfig :=
  {| currency := {| cur_main := units "Dollar" "Dollars";
                    cur_fractionalUnit := units "Cent" "Cents" |};
     texts := {| text_and := js "And"; text_minus := js "Minus";
                 text_only := js "Only"; text_point := js "Point" |};
     numberWordsMapping :=
       [word 1000000000 "Billion"; word 1000000 "Million";
        word 1000 "Thousand"; word 100 "Hundred";
        word 90 "Ninety"; word 80 "Eighty"; word 70 "Seventy";
        word 60 "Sixty"; word 50 "Fifty"; word 40 "Forty";
        word 30 "Thirty"; word 20 "Twenty"; word 10 "Ten";
        word 9 "Nine"; word 8 "Eight"; word 7 "Seven"; word 6 "Six";
        word 5 "Five"; word 4 "Four"; word 3 "Three"; word 2 "Two";
        word 1 "One"; word 0 "Zero"];
     exactWordsMapping := None;
     ordinalWordsMapping :=
       Some [word 1 "First"; word 2 "Second"; word 3 "Third"];
     ordinalExactWordsMapping := None;
     ordinalSuffix := Some (js "th");
     splitWord := None;
     pluralMark := None;
     pluralWords := None;
     pluralForms := None;
     trim_flag := None |}.

(** A grammar with the postfix-one idiom: "Mia Moja" is 100. *)
Definition swahili : OriginalLocaleConfig :=
  {| currency := {| cur_main := units "Shilingi" "Shilingi";
                    cur_fractionalUnit := units "Senti" "Senti" |};
     texts := {| text_and := js "Na"; text_minus := js "Hasi";
                 text_only := js "Tu"; text_point := js "Nukta" |};
     numberWordsMapping :=
       [word 1000 "Elfu"; word 100 "Mia"; word 10 "Kumi"; word 3 "Tatu";
        word 2 "Mbili"; word 1 "Moja"; word 0 "Sifuri"];
     exactWordsMapping :=
       Some [{| number := Num 100; value := OneForm (js "Mia Moja");
                singularValue := None |}];
     ordinalWordsMapping := None;
     ordinalExactWordsMapping := None;
     ordinalSuffix := None;
     splitWord := None;
     pluralMark := None;
     pluralWords := None;
     pluralForms := None;
     trim_flag := None |}.

(** A grammar whose dual of "million" is spelled like its plural. *)
Definition italian : OriginalLocaleConfig :=
  {| currency := {| cur_main := units "Euro" "Euro";
                    cur_fractionalUnit := units "Centesimo" "Centesimi" |};
     texts := {| text_and := js "E"; text_minus := js "Meno";
                 text_only := js ""; text_point := js "Virgola" |};
     numberWordsMapping :=
       [word 1000000 "Milione"; word 1000 "Mille"; word 100 "Cento";
        word 10 "Dieci"; word 3 "Tre"; word 2 "Due"; word 1 "Uno";
        word 0 "Zero"];
     exactWordsMapping := None;
     ordinalWordsMapping := None;
     ordinalExactWordsMapping := None;
     ordinalSuffix := None;
     splitWord := None;
     pluralMark := None;
     pluralWords := None;
     pluralForms :=
       Some [(1000000%Z, {| dual := Some (js "Milioni"); paucal := None;
                            plural := Some (js "Milioni") |})];
     trim_flag := None |}.

(** The same grammar with a dual of ten that is spelled like its plural:
    a word marked implied-dual that is no scale word. *)
Definition tensDual : OriginalLocaleConfig :=
  {| currency := currency italian;
     texts := texts italian;
     numberWordsMapping := numberWordsMapping italian;
     exactWordsMapping := None;
     ordinalWordsMapping := None;
     ordinalExactWordsMapping := None;
     ordinalSuffix := None;
     splitWord := None;
     pluralMark := None;
     pluralWords := None;
     pluralForms :=
       Some [(10%Z, {| dual := Some (js "Dieci"); paucal := None;
                       plural := Some (js "Dieci") |})];
     trim_flag := None |}.

(** A grammar whose dual of "thousand" has a spelling of its own. *)
Definition arabic : OriginalLocaleConfig :=
  {| currency := {| cur_main := units "Riyal" "Riyalat";
                    cur_fractionalUnit := units "Halala" "Halalat" |};
     texts := {| text_and := js "Wa"; text_minus := js "Salib";
                 text_only := js "Faqat"; text_point := js "Fasila" |};
     numberWordsMapping :=
       [word 1000 "Alf"; word 100 "Mia"; word 10 "Ashara"; word 3 "Thalatha";
        word 2 "Ithnan"; word 1 "Wahid"; word 0 "Sifr"];
     exactWordsMapping := None;
     ordinalWordsMapping := None;
     ordinalExactWordsMapping := None;
     ordinalSuffix := None;
     splitWord := None;
     pluralMark := None;
     pluralWords := None;
     pluralForms :=
       Some [(1000%Z, {| dual := Some (js "Alfan"); paucal := Some (js "Alaf");
                         plural := Some (js "Alf") |})];
     trim_flag := None |}.


(** A grammar with a word for ten billion. *)
Definition tenBillion : OriginalLocaleConfig :=
  {| currency := currency english;
     texts := texts english;
     numberWordsMapping :=
       [word 10000000000 "Dasharab"; word 100 "Hundred"; word 1 "One"];
     exactWordsMapping := None;
     ordinalWordsMapping := None;
     ordinalExactWordsMapping := None;
     ordinalSuffix := None;
     splitWord := None;
     pluralMark := None;
     pluralWords := None;
     pluralForms := None;
     trim_flag := None |}.


Definition instanceOf (d : OriginalLocaleConfig) : Instance :=
  {| converterOptions := Some DefaultConverterOptions; localeClass := Some d |}.

(** A core instance on which [setLocale] was never called. *)
Definition noLocale : Instance :=
  {| converterOptions := Some DefaultConverterOptions; localeClass := None |}.

Definition noOptions : ConverterOptions :=
  {| opt_currency := Absent; opt_currencyOptions := Absent;
     opt_fractionalPrecision := Absent |}.

Definition currencyOn : ConverterOptions :=
  {| opt_currency := Present (Some true); opt_currencyOptions := Absent;
     opt_fractionalPrecision := Absent |}.

Definition currencyPrecision3 : ConverterOptions :=
  {| opt_currency := Present (Some true); opt_currencyOptions := Absent;
     opt_fractionalPrecision := Present (Some 3) |}.

Definition text (s : string) : jsvalue := JString (js s).

Close Scope string_scope.

End Examples.
Export Examples.

(* ================================================================== *)
(** * The wording of the properties, where it differs from the engine *)

Module Wording.

(** The magnitude set as the description of the compiled grammar lists it:
    100, 1000, 10^4 .. 10^9, 10^11, 10^12, 10^13, 10^15, 10^16. *)
Definition listedMagnitudes : list Z :=
  [100; 1000; 10000; 100000; 1000000; 10000000; 100000000; 1000000000;
   100000000000; 1000000000000; 10000000000000;
   1000000000000000; 10000000000000000]%Z.

(** A value the listed set admits as a scale value: a listed magnitude or
    twice one. *)
Definition listedScale (n : Z) : Prop :=
  In n listedMagnitudes \/ exists k, In k listedMagnitudes /\ n = (2 * k)%Z.

(** A power of ten from [10^2] to [10^16]. *)
Definition powerOfTen_2_16 (n : Z) : Prop :=
  exists e : Z, (2 <= e <= 16)%Z /\ n = (10 ^ e)%Z.

(** The digits (0..9) named by a token sequence, other tokens skipped. *)
Definition digitValues (config : ParserLocaleConfig) (tokens : list jsstring)
  : list Z :=
  flat_map
    (fun token =>
       match map_get (wordToNumber config) token with
       | Some d => if (0 <=? d)%Z && (d <=? 9)%Z then [d] else []
       | None => []
       end)
    tokens.

(** The fraction [0.d1 d2 ... dn]. *)
Fixpoint fractionOfDigits (ds : list Z) : Q :=
  match ds with
  | [] => 0%Q
  | d :: r => ((inject_Z d + fractionOfDigits r) / 10)%Q
  end.

(** The currency value with a per-call precision, default 2. *)
Definition precisionOf (options : ConverterOptions) : nat :=
  match opt_fractionalPrecision options with
  | Present (Some p) => p
  | _ => 2
  end.

Definition valueAtPrecision (options : ConverterOptions) (main fractional : Z)
  : Q :=
  jsAdd (inject_Z main)
    (jsDiv (inject_Z fractional) (mathPow10 (precisionOf options))).

(** A currency unit starts at token [i] and spans [len] tokens: a
    multi-word unit whose words are the tokens from [i] on (inside the
    range), or a single-word unit equal to token [i]. *)
Definition unitAt (tokens : list jsstring) (stop : nat)
  (singleWordSet : list jsstring) (multiWordUnits : list (list jsstring))
  (i len : nat) : Prop :=
  (exists parts, In parts multiWordUnits
                 /\ matchesAt tokens i stop parts = true /\ len = length parts)
  \/ (exists t, nth_error tokens i = Some t
                /\ includes singleWordSet t = true /\ len = 1).

(** A string made of whitespace only, whitespace being what [trim] and
    [\s] take it to be; any value that is no string counts as well. *)
Definition whitespaceOnly (words : jsvalue) : Prop :=
  match words with
  | JString s => Forall (fun c => isJsSpace c = true) s
  | _ => True
  end.

(** The place count [floor(log10(value)) + 1] as a formula: the number of
    decimal digits of a positive value, and no number otherwise. *)
Definition claimedPlaces (v : Z) : option nat :=
  if (0 <? v)%Z then log10Places v else None.

(** Whitespace as [isValidInput] tests it: space, tab, line feed, carriage
    return. *)
Definition blank (words : jsvalue) : Prop :=
  match words with
  | JString s => Forall (fun c => isAsciiSpace c = true) s
  | _ => True
  end.

(** The errors of [convert] and [parse], and when each is thrown. *)
Definition throwsWhen (self : Instance) (words : jsvalue) (e : error) : Prop :=
  (e = InvalidInput words /\ blank words)
  \/ (e = NoLocaleSet /\ ~ blank words /\ localeClass self = None).

(** A token the grammar gives no meaning in a plain number. *)
Definition unrecognized (config : ParserLocaleConfig) (t : jsstring) : Prop :=
  map_get (wordToNumber config) t = None
  /\ includes (minus_words (markers config)) t = false
  /\ includes (point_words (markers config)) t = false.

(** One of the three forms of a plural-forms entry normalizes to [w]. *)
Definition formsMention (cs : bool) (forms : PluralFormVariants) (w : jsstring)
  : Prop :=
  normOpt cs (dual forms) = Some w \/ normOpt cs (paucal forms) = Some w
  \/ normOpt cs (plural forms) = Some w.

(** The dual form of an entry normalizes to the non-empty word [w], and so
    does its paucal or its plural form. *)
Definition dualSharesSpelling (cs : bool) (forms : PluralFormVariants)
  (w : jsstring) : Prop :=
  w <> [] /\ normOpt cs (dual forms) = Some w
  /\ (normOpt cs (paucal forms) = Some w \/ normOpt cs (plural forms) = Some w).

(** The dual form of an entry normalizes to the non-empty word [w], and
    neither its paucal nor its plural form does. *)
Definition dualHasOwnSpelling (cs : bool) (forms : PluralFormVariants)
  (w : jsstring) : Prop :=
  w <> [] /\ normOpt cs (dual forms) = Some w
  /\ normOpt cs (paucal forms) <> Some w /\ normOpt cs (plural forms) <> Some w.

(** A string with no full stop and no comma. *)
Definition noPunctuation (s : jsstring) : Prop :=
  Forall (fun c => isPunct c = false) s.

End Wording.
Export Wording.


(* ================================================================== *)
(** * The token-level entry points and the rest of the tokenizer *)

Module EntryPoints.

(** [parseNumber(words)]: tokenizes, then parses a plain number. *)
Definition parseNumber (self : Instance) (words : jsvalue) : outcome Q :=
  config <-- getParserConfig self ;;
  tokens <-- getTokens self words ;;
  lift (parseNumberFromTokens tokens config).

(** [parseOrdinal(words)]: tokenizes, then tries the ordinal parser;
    [Returns None] is [null]. *)
Definition parseOrdinal (self : Instance) (words : jsvalue)
  : outcome (option Z) :=
  config <-- getParserConfig self ;;
  tokens <-- getTokens self words ;;
  lift (parseOrdinalFromTokens tokens config).

(** [getWordVariations(word)] of the tokenizer; ['s'] is code unit 115 and
    [word.slice(0, -1)] drops the last code unit. *)
Definition getWordVariations (word : jsstring) : list jsstring :=
  let variations := [word] in
  let lower := toLowerCase word in
  let variations :=
    if negb (str_eqb lower word) then variations ++ [lower] else variations in
  if endsWith word [115%N] && (2 <? length word)
  then variations ++ [firstn (length word - 1) word]
  else variations.

End EntryPoints.
Export EntryPoints.

(* ================================================================== *)
(** * The private fields of an instance *)

Module Fields.

(** [locale], [localeClass] and [parserConfig] of [ToNumbersCore].  A
    locale class is identified with the [config] its instances carry, so
    [new LocaleClass()] is the class itself. *)
Record fields := {
  locale : option OriginalLocaleConfig;
  localeClass : option OriginalLocaleConfig;
  parserConfig : option ParserLocaleConfig
}.

(** The fields after [new ToNumbersCore(options)]. *)
Definition constructed : fields :=
  {| locale := None; localeClass := None; parserConfig := None |}.

Definition setLocale (self : fields) (cls : OriginalLocaleConfig) : fields :=
  {| locale := None; localeClass := Some cls; parserConfig := None |}.

Definition getLocaleClass (self : fields) : outcome OriginalLocaleConfig :=
  match localeClass self with
  | Some cls => Returns cls
  | None => Throws NoLocaleSet
  end.

(** The result and the fields after the call. *)
Definition getLocale (self : fields) : outcome (OriginalLocaleConfig * fields) :=
  match locale self with
  | None =>
      LocaleClass <-- getLocaleClass self ;;
      Returns (LocaleClass,
               {| locale := Some LocaleClass;
                  localeClass := localeClass self;
                  parserConfig := parserConfig self |})
  | Some l => Returns (l, self)
  end.

Definition getParserConfig (self : fields)
  : outcome (ParserLocaleConfig * fields) :=
  match parserConfig self with
  | None =>
      r <-- getLocale self ;;
      let config := buildParserLocaleConfig (fst r) false in
      Returns (config,
               {| locale := locale (snd r);
                  localeClass := localeClass (snd r);
                  parserConfig := Some config |})
  | Some config => Returns (config, self)
  end.

(** The constructor of a per-locale entry class:
    [super(options); this.setLocale(Locale)]. *)
Definition localeEntry (Locale : OriginalLocaleConfig) : fields :=
  setLocale constructed Locale.

(** The calls that touch the fields. *)
Inductive call :=
| SetLocale (cls : OriginalLocaleConfig)
| GetLocale
| GetParserConfig.

(** The fields after a call; a call that throws leaves them as they were. *)
Definition after (self : fields) (c : call) : fields :=
  match c with
  | SetLocale cls => setLocale self cls
  | GetLocale =>
      match getLocale self with
      | Returns r => snd r
      | _ => self
      end
  | GetParserConfig =>
      match getParserConfig self with
      | Returns r => snd r
      | _ => self
      end
  end.

Definition afterAll (self : fields) (calls : list call) : fields :=
  fold_left after calls self.

(** The class of the last [setLocale] among the calls, [cur] if none. *)
Fixpoint lastSet (cur : option OriginalLocaleConfig) (calls : list call)
  : option OriginalLocaleConfig :=
  match calls with
  | [] => cur
  | SetLocale cls :: r => lastSet (Some cls) r
  | _ :: r => lastSet cur r
  end.

(** The result of a call on the fields, without the fields after it. *)
Definition result {A : Type} (o : outcome (A * fields)) : outcome A :=
  r <-- o ;; Returns (fst r).

(** What the fields hold when the class last set is [cur]: the cached
    locale is an instance of it and the cached grammar is compiled from
    it. *)
Definition coherent (self : fields) (cur : option OriginalLocaleConfig) : Prop :=
  localeClass self = cur
  /\ (forall l, locale self = Some l -> cur = Some l)
  /\ (forall c, parserConfig self = Some c ->
        exists d, cur = Some d /\ c = buildParserLocaleConfig d false).

End Fields.

(* ================================================================== *)
(** * The first revision of the engine (ToNumbers.ts, tokenizer.js) *)

Module FirstRevision.

(** [cleanInput] before the fast path was added: trim, then the two
    regular-expression replacements. *)
Definition cleanInput (input : jsvalue) : jsstring :=
  match input with
  | JString (c :: s) => stripPunct (collapseSpaces false (trim (c :: s)))
  | _ => []
  end.

(** [isValidInput] before the character loop: the cleaned input is not
    empty. *)
Definition isValidInput (input : jsvalue) : bool :=
  match input with
  | JString _ => 0 <? length (cleanInput input)
  | _ => false
  end.

(** The running [highestIndex] and [highestValue], with the loop index. *)
Definition highestStep (config : ParserLocaleConfig)
  (acc : nat * (option nat * Z)) (token : jsstring) : nat * (option nat * Z) :=
  let '(i, (highestIndex, highestValue)) := acc in
  match scaleNumber config token with
  | Some number =>
      if (number >? highestValue)%Z then (S i, (Some i, number))
      else (S i, (highestIndex, highestValue))
  | None => (S i, (highestIndex, highestValue))
  end.

Definition findHighestScale (tokens : list jsstring)
  (config : ParserLocaleConfig) : option (nat * Z) :=
  let '(_, (highestIndex, highestValue)) :=
    fold_left (highestStep config) tokens (0, (None, 0%Z)) in
  match highestIndex with
  | Some index => Some (index, highestValue)
  | None => None
  end.

Definition sumSimpleNumbers (tokens : list jsstring)
  (config : ParserLocaleConfig) : Z :=
  fold_left
    (fun sum token =>
       match map_get (wordToNumber config) token with
       | Some number => (sum + number)%Z
       | None => sum
       end)
    tokens 0%Z.

(** The recursive-descent integer parser. *)
Fixpoint parseIntegerTokens_loop (fuel : nat) (tokens : list jsstring)
  (config : ParserLocaleConfig) : option Z :=
  match fuel with
  | O => None
  | S fuel' =>
      if length tokens =? 0 then Some 0%Z
      else
        let tokens :=
          filter (fun token => negb (includes (and_words (markers config)) token))
            tokens in
        if length tokens =? 0 then Some 0%Z
        else
          match findHighestScale tokens config with
          | None => Some (sumSimpleNumbers tokens config)
          | Some (index, scaleValue) =>
              let leftTokens := slice tokens 0 index in
              let rightTokens := skipn (index + 1) tokens in
              leftValue <-
                (if 0 <? length leftTokens then
                   l <- parseIntegerTokens_loop fuel' leftTokens config ;;
                   Some (if (l =? 0)%Z then 1%Z else l)
                 else Some 1%Z) ;;
              rightValue <-
                (if 0 <? length rightTokens
                 then parseIntegerTokens_loop fuel' rightTokens config
                 else Some 0%Z) ;;
              Some (leftValue * scaleValue + rightValue)%Z
          end
  end.

Definition parseIntegerTokens (tokens : list jsstring)
  (config : ParserLocaleConfig) : option Z :=
  parseIntegerTokens_loop (S (length tokens)) tokens config.

End FirstRevision.

(* ================================================================== *)
(** * Vocabulary of the further properties *)

Module Vocabulary.

(** Every whitespace character of the string is U+0020. *)
Definition onlyPlainSpaces (s : jsstring) : Prop :=
  Forall (fun c => isJsSpace c = true -> c = 32%N) s.

(** The string has no whitespace character. *)
Definition oneWord (s : jsstring) : Prop :=
  Forall (fun c => isJsSpace c = false) s.

(** A word in the spelling the compiler stores: trimmed, and lower-cased
    unless case matters. *)
Definition normalized (cs : bool) (w : jsstring) : Prop :=
  normalizeWord w cs = w.

(** A non-empty string without whitespace, full stop or comma. *)
Definition plainWord (s : jsstring) : Prop :=
  s <> [] /\ oneWord s /\ noPunctuation s.

(** [k] is a number word of value [v] and nothing else: not an ordinal
    word, not a negation, point or conjunction marker, not an implied
    dual. *)
Definition numberWordOnly (config : ParserLocaleConfig) (k : jsstring) (v : Z)
  : Prop :=
  map_get (wordToNumber config) k = Some v
  /\ detectOrdinal [k] config = None
  /\ includes (minus_words (markers config)) k = false
  /\ includes (point_words (markers config)) k = false
  /\ includes (andWordsSet config) k = false
  /\ includes (impliedDualWords config) k = false.

(** A character the tokenizer may drop: whitespace or a hyphen. *)
Definition separator (c : N) : bool := isJsSpace c || (c =? 45)%N.

(** The characters of a string that are no separators, in order. *)
Definition letters (s : jsstring) : jsstring :=
  filter (fun c => negb (separator c)) s.

(** The text the tokenizers work on. *)
Definition normalizedText (caseSensitive : bool) (input : jsstring) : jsstring :=
  if negb caseSensitive then toLowerCase (trim input) else trim input.

(** Longest-match segmentation of a text over a vocabulary: at each
    position the longest word that starts there is taken, and a character
    at which no word starts is skipped. *)
Inductive Greedy (words : list jsstring) : jsstring -> list jsstring -> Prop :=
| Greedy_done : Greedy words [] []
| Greedy_word : forall w rest tokens,
    In w words -> w <> [] ->
    (forall w', In w' words -> startsWith (w ++ rest) w' = true ->
                length w' <= length w) ->
    Greedy words rest tokens ->
    Greedy words (w ++ rest) (w :: tokens)
| Greedy_skip : forall c rest tokens,
    (forall w, In w words -> startsWith (c :: rest) w = false) ->
    Greedy words rest tokens ->
    Greedy words (c :: rest) tokens.

(** A list in the order a comparator asks for: no element is followed,
    anywhere later, by one the comparator puts strictly before it. *)
Fixpoint ordered (A : Type) (cmp : A -> A -> Z) (l : list A) : Prop :=
  match l with
  | [] => True
  | x :: r => Forall (fun y => (cmp x y <= 0)%Z) r /\ ordered cmp r
  end.

(** [options.caseSensitive ?? false]. *)
Definition caseSensitiveOf (options : TokenizerOptions) : bool :=
  match tk_caseSensitive options with Some b => b | None => false end.


(** The unit names of a per-call currency override, lower-cased. *)
Definition overrideMain (options : ConverterOptions) : list jsstring :=
  match opt_currencyOptions options with
  | Present (Some co) => overrideWords (ov_main co)
  | _ => []
  end.

Definition overrideFractional (options : ConverterOptions) : list jsstring :=
  match opt_currencyOptions options with
  | Present (Some co) =>
      match ov_fractionalUnit co with
      | Some fu => overrideWords fu
      | None => []
      end
  | _ => []
  end.

(** The options of a call with the currency override left out. *)
Definition withoutOverride (options : ConverterOptions) : ConverterOptions :=
  {| opt_currency := opt_currency options;
     opt_currencyOptions := Absent;
     opt_fractionalPrecision := opt_fractionalPrecision options |}.

(** The value of a parse result, for any outcome. *)
Definition valueOf (o : outcome ParseResult) : outcome Q :=
  r <-- o ;; Returns (res_value r).

(** ** Grammars below 128 *)

Definition optionString (o : option jsstring) : list jsstring :=
  match o with Some s => [s] | None => [] end.

Definition wordValueStrings (v : wordValue) : list jsstring :=
  match v with
  | OneForm s => [s]
  | TwoForms a b => [a; b]
  end.

Definition mappingStrings (l : list NumberWordMap) : list jsstring :=
  flat_map (fun m => wordValueStrings (value m) ++ optionString (singularValue m))
    l.

Definition optionMappingStrings (o : option (list NumberWordMap))
  : list jsstring :=
  match o with Some l => mappingStrings l | None => [] end.

Definition unitStrings (u : UnitNames) : list jsstring :=
  unit_name u :: unit_plural u :: optionString (unit_singular u).

(** Every string of a grammar description that the adapter normalizes. *)
Definition grammarStrings (d : OriginalLocaleConfig) : list jsstring :=
  mappingStrings (numberWordsMapping d)
  ++ optionMappingStrings (exactWordsMapping d)
  ++ optionMappingStrings (ordinalWordsMapping d)
  ++ optionMappingStrings (ordinalExactWordsMapping d)
  ++ optionString (ordinalSuffix d)
  ++ optionString (splitWord d)
  ++ optionString (pluralMark d)
  ++ match pluralWords d with Some l => l | None => [] end
  ++ match pluralForms d with
     | Some l =>
         flat_map (fun e => optionString (dual (snd e))
                            ++ optionString (paucal (snd e))
                            ++ optionString (plural (snd e))) l
     | None => []
     end
  ++ [text_and (texts d); text_minus (texts d); text_only (texts d);
      text_point (texts d)]
  ++ unitStrings (cur_main (currency d))
  ++ unitStrings (cur_fractionalUnit (currency d)).

(** A grammar description all of whose strings are below 128: on it the
    case folding of the model is that of the language. *)
Definition asciiGrammar (d : OriginalLocaleConfig) : bool :=
  forallb asciiString (grammarStrings d).

(** Case folding is not applied, or applies to strings below 128 only. *)
Definition foldingModelled (cs : bool) (d : OriginalLocaleConfig) : Prop :=
  cs = true \/ asciiGrammar d = true.

End Vocabulary.
Export Vocabulary.


(* ================================================================== *)
(** * Doubles: rounding is exact on the safe integers *)

Lemma Qred_inject_Z (z : Z) : Qred (inject_Z z) = inject_Z z.
Proof.
  unfold Qred, inject_Z.
  pose proof (Z.ggcd_gcd z 1) as Hg.
  pose proof (Z.ggcd_correct_divisors z 1) as Hd.
  destruct (Z.ggcd z 1) as (g & aa & bb). cbn [fst snd] in *.
  rewrite Z.gcd_1_r in Hg. subst g. destruct Hd as [Ha Hb].
  rewrite Z.mul_1_l in Ha, Hb. subst. reflexivity.
Qed.

Lemma fl_compat (x y : Q) : (x == y)%Q -> fl x = fl y.
Proof. intros H. unfold fl. rewrite (Qred_complete _ _ H). reflexivity. Qed.

Lemma roundHalfEven_exact (n : Z) : roundHalfEven n 1 = n.
Proof.
  unfold roundHalfEven. rewrite Z.mod_1_r, Z.div_1_r. reflexivity.
Qed.

Lemma floorLog2_integer (n : Z) : (0 < n)%Z -> floorLog2 n 1 = Z.log2 n.
Proof.
  intros Hn. unfold floorLog2. cbn [Z.log2]. rewrite Z.sub_0_r.
  pose proof (Z.log2_nonneg n) as H0.
  replace (0 <=? Z.log2 n)%Z with true by (symmetry; apply Z.leb_le; exact H0).
  rewrite Z.mul_1_r.
  replace (2 ^ Z.log2 n <=? n)%Z with true; [reflexivity|].
  symmetry. apply Z.leb_le. apply (Z.log2_spec n Hn).
Qed.

Lemma roundTo_integer (n : Z) :
  (0 < n <= MAX_SAFE_INTEGER)%Z ->
  roundTo (ulpExponent n 1) n 1 = inject_Z n.
Proof.
  intros [Hpos Hmax]. unfold ulpExponent. rewrite (floorLog2_integer Hpos).
  assert (Hk : (0 <= Z.log2 n <= 52)%Z).
  { split; [apply Z.log2_nonneg|].
    assert (H : (Z.log2 n < 53)%Z); [|lia].
    apply Z.log2_lt_pow2; [assumption|]. unfold MAX_SAFE_INTEGER in Hmax.
    change (2 ^ 53)%Z with 9007199254740992%Z. lia. }
  replace (Z.max (-1074) (Z.log2 n - 52)) with (Z.log2 n - 52)%Z by lia.
  set (e := (Z.log2 n - 52)%Z) in *. unfold roundTo.
  destruct (0 <=? e)%Z eqn:E.
  - apply Z.leb_le in E. assert (e = 0%Z) by lia. subst e.
    replace (Z.log2 n - 52)%Z with 0%Z by lia.
    cbn [Z.pow]. rewrite !Z.mul_1_r, roundHalfEven_exact. reflexivity.
  - apply Z.leb_gt in E. rewrite roundHalfEven_exact.
    assert (Hp : (0 < 2 ^ (- e))%Z) by (apply Z.pow_pos_nonneg; lia).
    rewrite <- Qred_inject_Z. apply Qred_complete.
    unfold Qeq. cbn [Qnum Qden inject_Z]. rewrite Z2Pos.id by exact Hp. lia.
Qed.

(** The double nearest to a safe integer is the integer. *)
Lemma fl_integer (z : Z) :
  (- MAX_SAFE_INTEGER <= z <= MAX_SAFE_INTEGER)%Z ->
  fl (inject_Z z) = inject_Z z.
Proof.
  intros Hz. unfold fl. rewrite Qred_inject_Z. cbn [Qnum Qden inject_Z].
  destruct (Z.abs z =? 0)%Z eqn:E0.
  - apply Z.eqb_eq in E0. replace z with 0%Z by lia. reflexivity.
  - apply Z.eqb_neq in E0.
    rewrite roundTo_integer by lia.
    destruct (z <? 0)%Z eqn:En.
    + apply Z.ltb_lt in En. unfold Qopp, inject_Z. cbn [Qnum Qden].
      f_equal. lia.
    + apply Z.ltb_ge in En. f_equal. lia.
Qed.

(** Adding a safe integer to zero, and dividing zero, are exact. *)
Lemma jsAdd_integers (a b : Z) :
  (- MAX_SAFE_INTEGER <= a + b <= MAX_SAFE_INTEGER)%Z ->
  jsAdd (inject_Z a) (inject_Z b) = inject_Z (a + b).
Proof.
  intros H. unfold jsAdd. rewrite <- (fl_integer H). apply fl_compat.
  rewrite inject_Z_plus. reflexivity.
Qed.

Lemma jsDiv_zero (b : Q) : jsDiv 0 b = 0%Q.
Proof.
  unfold jsDiv. change 0%Q with (fl 0) at 2. apply fl_compat.
  unfold Qdiv. apply Qmult_0_l.
Qed.

Lemma currencyValue_whole (main : Z) :
  (- MAX_SAFE_INTEGER <= main <= MAX_SAFE_INTEGER)%Z ->
  currencyValue main 0 = inject_Z main.
Proof.
  intros H. unfold currencyValue. change (inject_Z 0) with 0%Q.
  rewrite jsDiv_zero. change 0%Q with (inject_Z 0).
  rewrite jsAdd_integers by lia. f_equal. lia.
Qed.

Lemma mathPow10_exact (n : nat) : n <= 15 -> mathPow10 n = pow10 n.
Proof.
  intros H. unfold mathPow10, pow10. apply fl_integer.
  assert (H1 : (0 < 10 ^ Z.of_nat n)%Z) by (apply Z.pow_pos_nonneg; lia).
  assert (H2 : (10 ^ Z.of_nat n <= 10 ^ 15)%Z)
    by (apply Z.pow_le_mono_r; lia).
  change (10 ^ 15)%Z with 1000000000000000%Z in H2.
  unfold MAX_SAFE_INTEGER. lia.
Qed.

(* ================================================================== *)
(** * Doubles: rounding between two safe integers *)

Lemma roundHalfEven_between (n d a b : Z) :
  (0 < d)%Z -> (a * d <= n <= b * d)%Z ->
  (a <= roundHalfEven n d <= b)%Z.
Proof.
  intros Hd [Ha Hb]. unfold roundHalfEven.
  pose proof (Z.div_mod n d ltac:(lia)) as Hn.
  pose proof (Z.mod_pos_bound n d Hd) as Hr.
  assert (Hq : (a <= n / d)%Z) by (apply Z.div_le_lower_bound; lia).
  assert (Hu : (n / d <= b)%Z).
  { apply Z.div_le_upper_bound; [exact Hd|]. lia. }
  assert (Hu' : (0 < n mod d)%Z -> (n / d + 1 <= b)%Z) by (intros; nia).
  destruct (2 * (n mod d) ?= d)%Z eqn:E.
  - apply Z.compare_eq in E. destruct (Z.even (n / d)); [lia|].
    split; [lia|]. apply Hu'. lia.
  - lia.
  - apply Z.compare_gt_iff in E. split; [lia|]. apply Hu'. lia.
Qed.

Lemma ulpExponent_nonpos (n d b : Z) :
  (0 < n)%Z -> (0 < d)%Z -> (n <= b * d)%Z -> (b <= MAX_SAFE_INTEGER)%Z ->
  (ulpExponent n d <= 0)%Z.
Proof.
  intros Hn Hd Hb Hmax. unfold ulpExponent.
  assert (H : (floorLog2 n d <= 52)%Z); [|lia].
  assert (Hlt : (n < 2 ^ 53 * d)%Z).
  { change (2 ^ 53)%Z with 9007199254740992%Z.
    unfold MAX_SAFE_INTEGER in Hmax. nia. }
  assert (Hk : (Z.log2 n - Z.log2 d <= 53)%Z).
  { assert (H1 : (Z.log2 n <= Z.log2 (d * 2 ^ 53))%Z)
      by (apply Z.log2_le_mono; lia).
    rewrite Z.log2_mul_pow2 in H1 by lia. lia. }
  unfold floorLog2.
  destruct (0 <=? Z.log2 n - Z.log2 d)%Z eqn:E0.
  - destruct (2 ^ (Z.log2 n - Z.log2 d) * d <=? n)%Z eqn:Et; [|lia].
    apply Z.leb_le in Et.
    assert (Hne : (Z.log2 n - Z.log2 d <> 53)%Z); [|lia].
    intros E. rewrite E in Et. lia.
  - apply Z.leb_gt in E0.
    destruct (d <=? 2 ^ (- (Z.log2 n - Z.log2 d)) * n)%Z; lia.
Qed.

Lemma roundTo_between (e n d a b : Z) :
  (e <= 0)%Z -> (0 < d)%Z -> (a * d <= n <= b * d)%Z ->
  (inject_Z a <= roundTo e n d)%Q /\ (roundTo e n d <= inject_Z b)%Q.
Proof.
  intros He Hd Hab. unfold roundTo.
  destruct (0 <=? e)%Z eqn:E0.
  - apply Z.leb_le in E0. assert (e = 0%Z) by lia. subst e.
    cbn [Z.pow]. rewrite !Z.mul_1_r.
    rewrite <- !Zle_Qle. apply roundHalfEven_between; assumption.
  - apply Z.leb_gt in E0.
    assert (Hp : (0 < 2 ^ (- e))%Z) by (apply Z.pow_pos_nonneg; lia).
    pose proof (@roundHalfEven_between (n * 2 ^ (- e)) d
                  (a * 2 ^ (- e)) (b * 2 ^ (- e)) Hd ltac:(nia)) as [H1 H2].
    rewrite !Qred_correct. unfold Qle. cbn [Qnum Qden inject_Z].
    rewrite Z2Pos.id by exact Hp. lia.
Qed.

(** Between two safe integers that are not negative, the nearest double
    stays between them. *)
Lemma fl_between (x : Q) (a b : Z) :
  (0 <= a)%Z -> (b <= MAX_SAFE_INTEGER)%Z ->
  (inject_Z a <= x)%Q -> (x <= inject_Z b)%Q ->
  (inject_Z a <= fl x)%Q /\ (fl x <= inject_Z b)%Q.
Proof.
  intros Ha Hb Hax Hxb. unfold fl.
  rewrite <- (Qred_correct x) in Hax, Hxb.
  destruct (Qred x) as [n d]. cbn [Qnum Qden].
  unfold Qle in Hax, Hxb. cbn [Qnum Qden inject_Z] in Hax, Hxb.
  rewrite Z.mul_1_r in Hax, Hxb.
  assert (Hn : (0 <= n)%Z) by nia.
  rewrite (Z.abs_eq n Hn).
  destruct (n =? 0)%Z eqn:E0.
  - apply Z.eqb_eq in E0. subst n. change 0%Q with (inject_Z 0).
    rewrite <- !Zle_Qle. nia.
  - apply Z.eqb_neq in E0.
    replace (n <? 0)%Z with false by (symmetry; apply Z.ltb_ge; exact Hn).
    apply roundTo_between.
    + apply (@ulpExponent_nonpos n (Z.pos d) b); lia.
    + lia.
    + lia.
Qed.


(* ================================================================== *)
(** * Strings and containers: basic facts *)

Lemma str_eqb_eq (a b : jsstring) : str_eqb a b = true <-> a = b.
Proof.
  revert b; induction a as [|x a IH]; intros [|y b]; simpl;
    try (split; [discriminate | discriminate]); try tauto.
  rewrite andb_true_iff, N.eqb_eq, IH. split.
  - intros [-> ->]; reflexivity.
  - intros H; inversion H; auto.
Qed.

Lemma str_eqb_refl (a : jsstring) : str_eqb a a = true.
Proof. apply str_eqb_eq; reflexivity. Qed.

Lemma str_eqb_neq (a b : jsstring) : str_eqb a b = false <-> a <> b.
Proof.
  rewrite <- str_eqb_eq. destruct (str_eqb a b); split; congruence.
Qed.

Lemma includes_In (l : list jsstring) (s : jsstring) :
  includes l s = true <-> In s l.
Proof.
  unfold includes. rewrite existsb_exists. split.
  - intros [x [Hx E]]. apply str_eqb_eq in E; subst; assumption.
  - intros H; exists s; split; [assumption | apply str_eqb_refl].
Qed.

Lemma num_has_In (s : list Z) (n : Z) : num_has s n = true <-> In n s.
Proof.
  unfold num_has. rewrite existsb_exists. split.
  - intros [x [Hx E]]. apply Z.eqb_eq in E; subst; assumption.
  - intros H; exists n; split; [assumption | apply Z.eqb_refl].
Qed.

Lemma slice_nth (A : Type) (l : list A) (a b j : nat) :
  nth_error (slice l a b) j = if j <? b - a then nth_error l (a + j) else None.
Proof. unfold slice. rewrite nth_error_firstn, nth_error_skipn. reflexivity. Qed.

Lemma slice_length (A : Type) (l : list A) (a b : nat) :
  b <= length l -> length (slice l a b) = b - a.
Proof. intros H. unfold slice. rewrite length_firstn, length_skipn. lia. Qed.

Lemma slice_empty (A : Type) (l : list A) (a b : nat) :
  b <= a -> slice l a b = [].
Proof.
  intros H. unfold slice. replace (b - a) with 0 by lia. reflexivity.
Qed.

Lemma slice_full (A : Type) (l : list A) : slice l 0 (length l) = l.
Proof. unfold slice. rewrite Nat.sub_0_r. simpl. apply firstn_all. Qed.

Lemma slice_split (A : Type) (l : list A) (a i b : nat) (t : A) :
  a <= i -> i < b -> nth_error l i = Some t ->
  slice l a b = slice l a i ++ t :: slice l (S i) b.
Proof.
  intros Hai Hib Ht.
  assert (Hlen : i < length l) by (apply nth_error_Some; congruence).
  apply nth_error_ext; intro n.
  rewrite nth_error_app, slice_nth, slice_length by lia.
  destruct (n <? i - a) eqn:E1.
  - apply Nat.ltb_lt in E1. rewrite slice_nth.
    replace (n <? b - a) with true by (symmetry; apply Nat.ltb_lt; lia).
    replace (n <? i - a) with true by (symmetry; apply Nat.ltb_lt; lia).
    reflexivity.
  - apply Nat.ltb_ge in E1.
    destruct (n - (i - a)) as [|j] eqn:E2.
    + replace (n <? b - a) with true by (symmetry; apply Nat.ltb_lt; lia).
      simpl. replace (a + n) with i by lia. assumption.
    + simpl. rewrite slice_nth.
      destruct (n <? b - a) eqn:E3.
      * apply Nat.ltb_lt in E3.
        replace (j <? b - S i) with true by (symmetry; apply Nat.ltb_lt; lia).
        f_equal. lia.
      * apply Nat.ltb_ge in E3.
        replace (j <? b - S i) with false by (symmetry; apply Nat.ltb_ge; lia).
        reflexivity.
Qed.

Lemma slice_In (A : Type) (l : list A) (a b : nat) (x : A) :
  In x (slice l a b) -> exists i, a <= i /\ i < b /\ nth_error l i = Some x.
Proof.
  intros H. apply In_nth_error in H. destruct H as [j Hj].
  rewrite slice_nth in Hj. destruct (j <? b - a) eqn:E; [|discriminate].
  apply Nat.ltb_lt in E. exists (a + j). repeat split; try lia. assumption.
Qed.

(* ================================================================== *)
(** * The integer parser computes the highest-scale-wins value *)

Section IntegerParser.

Variable config : ParserLocaleConfig.

Lemma scaleNumber_has (t : jsstring) (v : Z) :
  scaleNumber config t = Some v -> num_has (scaleWords config) v = true.
Proof.
  unfold scaleNumber. destruct (map_get (wordToNumber config) t); [|discriminate].
  destruct (num_has (scaleWords config) z) eqn:E; [|discriminate].
  intros H; inversion H; subst; assumption.
Qed.

Lemma IntegerValue_nil : IntegerValue config [] 0%Z.
Proof. apply (IV_sum config (toks := [])). constructor. Qed.

Lemma scaleTable_entries (toks : list jsstring) : forall i k p,
  nth_error (scaleTable config i toks) k = Some p ->
  i <= filteredIndex p
  /\ nth_error toks (filteredIndex p - i) = Some (sp_token p)
  /\ scaleNumber config (sp_token p) = Some (sp_value p).
Proof.
  induction toks as [|t r IH]; intros i k p H; simpl in H.
  - destruct k; discriminate.
  - destruct (scaleNumber config t) as [v|] eqn:E.
    + destruct k as [|k]; simpl in H.
      * inversion H; subst; simpl. rewrite Nat.sub_diag. simpl. auto.
      * apply IH in H. destruct H as [H1 [H2 H3]].
        split; [lia|]. split; [|assumption].
        replace (filteredIndex p - i) with (S (filteredIndex p - S i)) by lia.
        simpl. assumption.
    + apply IH in H. destruct H as [H1 [H2 H3]].
      split; [lia|]. split; [|assumption].
      replace (filteredIndex p - i) with (S (filteredIndex p - S i)) by lia.
      simpl. assumption.
Qed.

Lemma scaleTable_complete (toks : list jsstring) : forall i j t v,
  nth_error toks j = Some t -> scaleNumber config t = Some v ->
  exists k, nth_error (scaleTable config i toks) k
            = Some {| filteredIndex := i + j; sp_value := v; sp_token := t |}.
Proof.
  induction toks as [|t0 r IH]; intros i j t v Hj Hv.
  - destruct j; discriminate.
  - destruct j as [|j]; simpl in Hj.
    + inversion Hj; subst. simpl. rewrite Hv. exists 0. simpl.
      rewrite Nat.add_0_r. reflexivity.
    + destruct (IH (S i) j t v Hj Hv) as [k Hk].
      replace (S i + j) with (i + S j) in Hk by lia.
      simpl. destruct (scaleNumber config t0).
      * exists (S k). simpl. assumption.
      * exists k. assumption.
Qed.

Lemma scaleTable_sorted (toks : list jsstring) : forall i k1 k2 p1 p2,
  k1 < k2 -> nth_error (scaleTable config i toks) k1 = Some p1 ->
  nth_error (scaleTable config i toks) k2 = Some p2 ->
  filteredIndex p1 < filteredIndex p2.
Proof.
  induction toks as [|t r IH]; intros i k1 k2 p1 p2 Hlt H1 H2; simpl in *.
  - destruct k1; discriminate.
  - destruct (scaleNumber config t) as [v|] eqn:E.
    + destruct k2 as [|k2]; [lia|]. simpl in H2.
      destruct k1 as [|k1]; simpl in H1.
      * inversion H1; subst; simpl.
        apply scaleTable_entries in H2. lia.
      * apply (IH (S i) k1 k2); auto. lia.
    + apply (IH (S i) k1 k2); auto.
Qed.

Lemma scaleTable_TableOf (toks : list jsstring) :
  TableOf config toks (scaleTable config 0 toks).
Proof.
  split; [|split].
  - intros k p H. apply scaleTable_entries in H.
    rewrite Nat.sub_0_r in H. tauto.
  - intros j t v Hj Hv.
    destruct (scaleTable_complete toks 0 j Hj Hv) as [k Hk]. exists k. assumption.
  - intros k1 k2 p1 p2. apply scaleTable_sorted.
Qed.

Lemma scaleSearch_spec (sp : list ScalePosition) (start stop ss : nat) :
  forall n,
  SearchResult sp start stop ss n
    (fold_left (scaleStep sp start stop) (seq ss n) None).
Proof.
  induction n as [|n IH].
  - simpl. intros k p Hk. lia.
  - rewrite seq_S, fold_left_app. simpl.
    destruct (fold_left (scaleStep sp start stop) (seq ss n) None) as [h|] eqn:E;
      unfold scaleStep; simpl in *.
    + destruct IH as (I1 & I2 & I3 & I4 & I5 & I6).
      destruct (nth_error sp (ss + n)) as [q|] eqn:Eq.
      * destruct ((start <=? filteredIndex q) && (filteredIndex q <? stop)) eqn:Er.
        -- apply andb_true_iff in Er. destruct Er as [Er1 Er2].
           apply Nat.leb_le in Er1. apply Nat.ltb_lt in Er2.
           destruct (sp_value q >? highestValue h)%Z eqn:Ev.
           ++ apply Z.gtb_lt in Ev. simpl.
              split; [lia|]. split; [destruct q; assumption|].
              split; [lia|]. split; [lia|]. split.
              ** intros k p Hk Hp Hr.
                 destruct (Nat.lt_trichotomy k (highestScalePos h)) as [Hc|[Hc|Hc]].
                 --- assert (sp_value p < highestValue h)%Z by (apply (I5 k p); auto; lia). lia.
                 --- subst k. rewrite I2 in Hp. inversion Hp; subst; simpl. lia.
                 --- assert (sp_value p <= highestValue h)%Z by (apply (I6 k p); auto; lia). lia.
              ** intros k p Hk. lia.
           ++ rewrite Z.gtb_ltb, Z.ltb_ge in Ev. simpl.
              split; [lia|]. split; [assumption|]. split; [lia|].
              split; [lia|]. split; [assumption|].
              intros k p Hk Hp Hr.
              destruct (Nat.eq_dec k (ss + n)) as [->|Hne].
              ** rewrite Eq in Hp. inversion Hp; subst. lia.
              ** apply (I6 k p); auto. lia.
        -- simpl. split; [lia|]. split; [assumption|]. split; [lia|].
           split; [lia|]. split; [assumption|].
           intros k p Hk Hp Hr.
           destruct (Nat.eq_dec k (ss + n)) as [->|Hne].
           ++ rewrite Eq in Hp. inversion Hp; subst.
              apply andb_false_iff in Er.
              rewrite Nat.leb_gt, Nat.ltb_ge in Er. lia.
           ++ apply (I6 k p); auto. lia.
      * simpl. split; [lia|]. split; [assumption|]. split; [lia|].
        split; [lia|]. split; [assumption|].
        intros k p Hk Hp Hr.
        destruct (Nat.eq_dec k (ss + n)) as [->|Hne]; [congruence|].
        apply (I6 k p); auto. lia.
    + destruct (nth_error sp (ss + n)) as [q|] eqn:Eq.
      * destruct ((start <=? filteredIndex q) && (filteredIndex q <? stop)) eqn:Er.
        -- apply andb_true_iff in Er. destruct Er as [Er1 Er2].
           apply Nat.leb_le in Er1. apply Nat.ltb_lt in Er2.
           destruct (sp_value q >? 0)%Z eqn:Ev.
           ++ apply Z.gtb_lt in Ev. simpl.
              split; [lia|]. split; [destruct q; assumption|].
              split; [lia|]. split; [lia|]. split.
              ** intros k p Hk Hp Hr.
                 assert (sp_value p <= 0)%Z by (apply (IH k p); auto; lia). lia.
              ** intros k p Hk. lia.
           ++ rewrite Z.gtb_ltb, Z.ltb_ge in Ev. simpl.
              intros k p Hk Hp Hr.
              destruct (Nat.eq_dec k (ss + n)) as [->|Hne].
              ** rewrite Eq in Hp. inversion Hp; subst. lia.
              ** apply (IH k p); auto. lia.
        -- simpl. intros k p Hk Hp Hr.
           destruct (Nat.eq_dec k (ss + n)) as [->|Hne].
           ++ rewrite Eq in Hp. inversion Hp; subst.
              apply andb_false_iff in Er.
              rewrite Nat.leb_gt, Nat.ltb_ge in Er. lia.
           ++ apply (IH k p); auto. lia.
      * simpl. intros k p Hk Hp Hr.
        destruct (Nat.eq_dec k (ss + n)) as [->|Hne]; [congruence|].
        apply (IH k p); auto. lia.
Qed.


Lemma postfix_agree (toks : list jsstring) (rightStart stop : nat) :
  stop <= length toks -> rightStart < stop ->
  isPostfixOne config toks false rightStart stop
  && negb (isScaleWordAt config toks rightStart)
  = suppresses config (slice toks rightStart stop).
Proof.
  intros Hs Hr. unfold isPostfixOne, isScaleWordAt, suppresses.
  simpl (negb false). rewrite andb_true_r.
  destruct (usesPostfixOne config); simpl; [|reflexivity].
  destruct (nth_error toks rightStart) as [w|] eqn:Ew.
  2: { apply nth_error_None in Ew. lia. }
  destruct (stop - rightStart =? 1) eqn:E1.
  - apply Nat.eqb_eq in E1.
    assert (H : slice toks rightStart stop = [w]).
    { apply nth_error_ext. intro n. rewrite slice_nth, E1.
      destruct n as [|n]; simpl.
      - rewrite Nat.add_0_r. assumption.
      - destruct n; reflexivity. }
    rewrite H. simpl.
    destruct (includes (oneWords config) w), (scaleNumber config w); reflexivity.
  - apply Nat.eqb_neq in E1. simpl.
    pose proof (slice_length toks rightStart Hs) as Hl.
    destruct (slice toks rightStart stop) as [|a [|b l]]; try reflexivity.
    simpl in Hl. lia.
Qed.

Lemma withScales_sound (toks : list jsstring) (sp : list ScalePosition) :
  scalesPositive config -> TableOf config toks sp ->
  forall fuel start stop ss se,
  stop <= length toks ->
  (forall k p, nth_error sp k = Some p ->
     start <= filteredIndex p < stop -> ss <= k < se) ->
  stop - start < fuel ->
  exists n,
    parseIntegerTokensWithScales fuel toks start stop config sp ss se = Some n
    /\ IntegerValue config (slice toks start stop) n.
Proof.
  intros Hpos (Ta & Tb & Tc).
  induction fuel as [|fuel IH]; intros start stop ss se Hstop Hinv Hfuel; [lia|].
  cbn [parseIntegerTokensWithScales].
  destruct (stop <=? start) eqn:Ese.
  - apply Nat.leb_le in Ese. exists 0%Z. split; auto.
    rewrite slice_empty by lia. apply IntegerValue_nil.
  - apply Nat.leb_gt in Ese.
    pose proof (scaleSearch_spec sp start stop ss (se - ss)) as Hs.
    destruct (fold_left (scaleStep sp start stop) (seq ss (se - ss)) None)
      as [h|] eqn:Ef.
    + destruct Hs as (S1 & S2 & S3 & S4 & S5 & S6).
      destruct (Ta _ _ S2) as [Htok Hscale]. simpl in Htok, Hscale.
      rewrite Nat.add_1_r.
      assert (HsepL : forall k p, nth_error sp k = Some p ->
                filteredIndex p < highestIdx h -> k < highestScalePos h).
      { intros k p Hk Hlt.
        destruct (Nat.lt_trichotomy k (highestScalePos h)) as [Hc|[Hc|Hc]]; auto.
        - subst k. rewrite S2 in Hk. inversion Hk; subst; simpl in *. lia.
        - pose proof (Tc _ _ _ _ Hc S2 Hk) as Hm. simpl in Hm. lia. }
      assert (HsepR : forall k p, nth_error sp k = Some p ->
                highestIdx h < filteredIndex p -> highestScalePos h < k).
      { intros k p Hk Hlt.
        destruct (Nat.lt_trichotomy k (highestScalePos h)) as [Hc|[Hc|Hc]]; auto.
        - pose proof (Tc _ _ _ _ Hc Hk S2) as Hm. simpl in Hm. lia.
        - subst k. rewrite S2 in Hk. inversion Hk; subst; simpl in *. lia. }
      assert (HL : scalesBelow config (highestValue h)
                     (slice toks start (highestIdx h))).
      { apply Forall_forall. intros x Hx v Hv.
        apply slice_In in Hx. destruct Hx as (i & Hi1 & Hi2 & Hi3).
        destruct (Tb i x v Hi3 Hv) as [k Hk].
        assert (Hr : ss <= k < se) by (apply (Hinv k _ Hk); simpl; lia).
        assert (Hk' : k < highestScalePos h) by (apply (HsepL k _ Hk); simpl; lia).
        apply (S5 k _ (conj (proj1 Hr) Hk') Hk). simpl. lia. }
      assert (HR : scalesAtMost config (highestValue h)
                     (slice toks (S (highestIdx h)) stop)).
      { apply Forall_forall. intros x Hx v Hv.
        apply slice_In in Hx. destruct Hx as (i & Hi1 & Hi2 & Hi3).
        destruct (Tb i x v Hi3 Hv) as [k Hk].
        assert (Hr : ss <= k < se) by (apply (Hinv k _ Hk); simpl; lia).
        assert (Hk' : highestScalePos h < k) by (apply (HsepR k _ Hk); simpl; lia).
        assert (Hb : highestScalePos h < k < ss + (se - ss)) by lia.
        apply (S6 k _ Hb Hk). simpl. lia. }
      assert (HRrec : exists rv,
                parseIntegerTokensWithScales fuel toks (S (highestIdx h)) stop
                  config sp (highestScalePos h + 1) se = Some rv
                /\ IntegerValue config (slice toks (S (highestIdx h)) stop) rv).
      { apply IH; try lia.
        intros k p Hk Hr.
        assert (ss <= k < se) by (apply (Hinv k _ Hk); lia).
        assert (highestScalePos h < k) by (apply (HsepR k _ Hk); lia). lia. }
      destruct HRrec as (rv & Erv & Hrv).
      rewrite (slice_split toks (a := start) (i := highestIdx h) (b := stop)
                 (proj1 S3) (proj2 S3) Htok).
      destruct (start <? highestIdx h) eqn:El.
      * apply Nat.ltb_lt in El.
        destruct (IH start (highestIdx h) ss (highestScalePos h)) as (lv & Elv & Hlv);
          try lia.
        { intros k p Hk Hr.
          assert (ss <= k < se) by (apply (Hinv k _ Hk); lia).
          assert (k < highestScalePos h) by (apply (HsepL k _ Hk); lia). lia. }
        rewrite Elv. cbn [bind].
        assert (Hne : slice toks start (highestIdx h) <> []).
        { intro Hnil. apply (f_equal (@length _)) in Hnil.
          rewrite slice_length in Hnil by lia. simpl in Hnil. lia. }
        replace (isPostfixOne config toks true (S (highestIdx h)) stop) with false
          by (unfold isPostfixOne; simpl; rewrite andb_false_r; reflexivity).
        destruct (S (highestIdx h) <? stop) eqn:Er.
        -- rewrite Erv. cbn [bind]. eexists. split; [reflexivity|].
           fold (orOne lv). apply IV_coef; assumption.
        -- apply Nat.ltb_ge in Er. cbn [bind]. eexists. split; [reflexivity|].
           rewrite (slice_empty toks (a := S (highestIdx h)) (b := stop)) in * by lia.
           fold (orOne lv). rewrite Z.add_0_r. rewrite <- (Z.add_0_r (orOne lv * highestValue h)). apply IV_coef; try assumption. apply IntegerValue_nil.
      * apply Nat.ltb_ge in El.
        rewrite (slice_empty toks (a := start) (b := highestIdx h)) by lia.
        cbn [app].
        assert (Ecoef : (if includes (impliedDualWords config) (highestToken h)
                         then Some 2%Z else Some 1%Z)
                        = Some (bareCoefficient config (highestToken h))).
        { unfold bareCoefficient.
          destruct (includes (impliedDualWords config) (highestToken h)); reflexivity. }
        rewrite Ecoef. cbn [bind].
        destruct (S (highestIdx h) <? stop) eqn:Er.
        -- apply Nat.ltb_lt in Er.
           pose proof (postfix_agree toks Hstop Er) as Hag.
           destruct (isPostfixOne config toks false (S (highestIdx h)) stop) eqn:Ep.
           ++ destruct (isScaleWordAt config toks (S (highestIdx h))) eqn:Ei;
                simpl in Hag; cbn [negb].
              ** rewrite Erv. cbn [bind]. eexists. split; [reflexivity|].
                 apply IV_bare; auto.
              ** cbn [bind]. eexists. split; [reflexivity|].
                 rewrite Z.add_0_r. apply IV_postfix; auto.
           ++ simpl in Hag. rewrite Erv. cbn [bind]. eexists. split; [reflexivity|].
              apply IV_bare; auto.
        -- apply Nat.ltb_ge in Er. cbn [bind]. eexists. split; [reflexivity|].
           rewrite (slice_empty toks (a := S (highestIdx h)) (b := stop)) in * by lia.
           apply IV_bare; auto.
           ++ unfold suppresses. apply andb_false_r.
           ++ apply IntegerValue_nil.
    + exists (sumTokens config (slice toks start stop)). split; [reflexivity|].
      apply IV_sum. apply Forall_forall. intros x Hx.
      destruct (scaleNumber config x) as [v|] eqn:Ev; [|reflexivity].
      exfalso. apply slice_In in Hx. destruct Hx as (i & Hi1 & Hi2 & Hi3).
      destruct (Tb i x v Hi3 Ev) as [k Hk].
      assert (Hr : ss <= k < se) by (apply (Hinv k _ Hk); simpl; lia).
      assert (Hb : ss <= k < ss + (se - ss)) by lia.
      pose proof (Hs k _ Hb Hk) as Hle. simpl in Hle.
      pose proof (Hpos v (scaleNumber_has x Ev)). lia.
Qed.

End IntegerParser.


Lemma fold_left_ext (A B : Type) (f g : A -> B -> A) (l : list B) :
  (forall a x, f a x = g a x) -> forall a, fold_left f l a = fold_left g l a.
Proof.
  intros H. induction l as [|x l IH]; intros a; simpl; [reflexivity|].
  rewrite H. apply IH.
Qed.

Section IntegerEntryPoints.

Variable config : ParserLocaleConfig.

Lemma parallelStep_eq (sp : list ScalePosition) (start stop : nat)
  (best : option Highest) (i : nat) :
  parallelStep (map filteredIndex sp) (map sp_value sp) (map sp_token sp)
    start stop best i
  = scaleStep sp start stop best i.
Proof.
  unfold parallelStep, scaleStep. rewrite !nth_error_map.
  destruct (nth_error sp i); reflexivity.
Qed.

(** The parallel-array parser and the object-array parser are the same
    function of the same scale table. *)
Lemma parallel_eq (toks : list jsstring) (sp : list ScalePosition) :
  forall fuel start stop ss se,
  parseWithParallelScales fuel toks start stop config
    (map filteredIndex sp) (map sp_value sp) (map sp_token sp) ss se
  = parseIntegerTokensWithScales fuel toks start stop config sp ss se.
Proof.
  induction fuel as [|fuel IH]; intros start stop ss se; [reflexivity|].
  cbn [parseWithParallelScales parseIntegerTokensWithScales].
  rewrite (fold_left_ext _ _ _ (parallelStep_eq sp start stop)).
  destruct (stop <=? start); [reflexivity|].
  destruct (fold_left (scaleStep sp start stop) (seq ss (se - ss)) None) as [h|];
    [|reflexivity].
  destruct (start <? highestIdx h).
  - rewrite IH.
    destruct (parseIntegerTokensWithScales fuel toks start (highestIdx h) config
                sp ss (highestScalePos h)); cbn [bind]; [|reflexivity].
    rewrite !IH. reflexivity.
  - destruct (includes (impliedDualWords config) (highestToken h)); cbn [bind];
      rewrite !IH; reflexivity.
Qed.

Lemma collectFiltered_fold (skipAnd : bool) (toks : list jsstring) :
  forall kept sps,
  fold_left (collectFiltered config skipAnd) toks (kept, sps)
  = (kept ++ filter (fun t => negb (skipAnd && includes (andWordsSet config) t)) toks,
     sps ++ scaleTable config (length kept)
              (filter (fun t => negb (skipAnd && includes (andWordsSet config) t)) toks)).
Proof.
  induction toks as [|t r IH]; intros kept sps; simpl.
  - rewrite !app_nil_r. reflexivity.
  - destruct (skipAnd && includes (andWordsSet config) t) eqn:E; simpl.
    + apply IH.
    + destruct (scaleNumber config t) as [v|] eqn:Ev; rewrite IH;
        rewrite length_app; simpl; rewrite Nat.add_1_r, <- !app_assoc; reflexivity.
Qed.

Lemma collectCounting_fold (toks : list jsstring) :
  forall n sps,
  fold_left (collectCounting config) toks (n, sps)
  = (n + length (filter (notAnd config) toks),
     sps ++ scaleTable config n (filter (notAnd config) toks)).
Proof.
  induction toks as [|t r IH]; intros n sps; simpl.
  - rewrite app_nil_r, Nat.add_0_r. reflexivity.
  - assert (En : notAnd config t = negb (includes (andWordsSet config) t))
      by reflexivity.
    rewrite En. destruct (includes (andWordsSet config) t) eqn:E; simpl.
    + apply IH.
    + destruct (scaleNumber config t) as [v|] eqn:Ev; rewrite IH;
        simpl; rewrite <- ?app_assoc; f_equal; lia.
Qed.

Lemma collectParallel_fold (toks : list jsstring) :
  forall i idxs vals tks,
  fold_left (collectParallel config) toks (i, (idxs, vals, tks))
  = (i + length toks,
     (idxs ++ map filteredIndex (scaleTable config i toks),
      vals ++ map sp_value (scaleTable config i toks),
      tks ++ map sp_token (scaleTable config i toks))).
Proof.
  induction toks as [|t r IH]; intros i idxs vals tks; simpl.
  - rewrite !app_nil_r, Nat.add_0_r. reflexivity.
  - destruct (scaleNumber config t) as [v|] eqn:Ev; rewrite IH; simpl;
      rewrite <- ?app_assoc; simpl; repeat f_equal; lia.
Qed.

Lemma scaleTable_nil (toks : list jsstring) : forall i,
  length (scaleTable config i toks) = 0 ->
  Forall (fun t => scaleNumber config t = None) toks.
Proof.
  induction toks as [|t r IH]; intros i H; simpl in *; [constructor|].
  destruct (scaleNumber config t) eqn:E; simpl in H; [discriminate|].
  constructor; [assumption | apply (IH (S i)); assumption].
Qed.

Lemma filter_notAnd_noAnd (toks : list jsstring) :
  length (andWordsSet config) = 0 -> filter (notAnd config) toks = toks.
Proof.
  intros H. destruct (andWordsSet config) eqn:E; [|discriminate].
  induction toks as [|t r IH]; simpl; [reflexivity|].
  unfold notAnd at 1. rewrite E. simpl. f_equal. assumption.
Qed.

Lemma table_inv (sp : list ScalePosition) (a b : nat) :
  forall k p, nth_error sp k = Some p ->
    a <= filteredIndex p < b -> 0 <= k < length sp.
Proof.
  intros k p H _. split; [lia|]. apply nth_error_Some. congruence.
Qed.

(** [parseIntegerTokens] never runs out of fuel and computes the
    highest-scale-wins value of the tokens. *)
Lemma parseIntegerTokens_sound (toks : list jsstring) :
  scalesPositive config ->
  exists n, parseIntegerTokens toks config = Some n
            /\ ParsesInteger config toks n.
Proof.
  intros Hpos. unfold parseIntegerTokens, ParsesInteger.
  destruct (length toks =? 0) eqn:E0.
  { apply Nat.eqb_eq in E0. destruct toks; [|discriminate].
    exists 0%Z. split; [reflexivity | apply IntegerValue_nil]. }
  destruct (length (andWordsSet config) =? 0) eqn:Ea; cbn [negb].
  - apply Nat.eqb_eq in Ea. rewrite (filter_notAnd_noAnd toks Ea).
    unfold parseIntegerTokensNoAnd.
    rewrite collectParallel_fold. cbn [app Nat.add].
    rewrite length_map.
    destruct (length (scaleTable config 0 toks) =? 0) eqn:Es.
    + apply Nat.eqb_eq in Es. eexists. split; [reflexivity|].
      apply IV_sum. apply (scaleTable_nil toks 0 Es).
    + rewrite parallel_eq.
      destruct (@withScales_sound config toks _ Hpos (scaleTable_TableOf config toks)
                  (S (length toks)) 0 (length toks) 0
                  (length (scaleTable config 0 toks)))
        as (n & En & Hn); try lia.
      { apply table_inv. }
      rewrite slice_full in Hn. exists n. split; assumption.
  - rewrite collectCounting_fold. cbn [app Nat.add].
    set (ft := filter (notAnd config) toks).
    destruct (length ft =? 0) eqn:El.
    { apply Nat.eqb_eq in El. destruct ft; [|discriminate].
      exists 0%Z. split; [reflexivity | apply IntegerValue_nil]. }
    destruct (length (scaleTable config 0 ft) =? 0) eqn:Es.
    + apply Nat.eqb_eq in Es. eexists. split; [reflexivity|].
      apply IV_sum. apply (scaleTable_nil ft 0 Es).
    + destruct (@withScales_sound config ft _ Hpos (scaleTable_TableOf config ft)
                  (S (length ft)) 0 (length ft) 0
                  (length (scaleTable config 0 ft)))
        as (n & En & Hn); try lia.
      { apply table_inv. }
      rewrite slice_full in Hn. exists n. split; assumption.
Qed.

Lemma parseIntegerTokensInRange_sound (toks : list jsstring) (start stop : nat) :
  scalesPositive config ->
  exists n, parseIntegerTokensInRange toks start stop config = Some n
            /\ ParsesInteger config (slice toks start stop) n.
Proof.
  intros Hpos. unfold parseIntegerTokensInRange, ParsesInteger.
  destruct (stop <=? start) eqn:E0.
  { apply Nat.leb_le in E0. rewrite slice_empty by lia.
    exists 0%Z. split; [reflexivity | apply IntegerValue_nil]. }
  rewrite collectFiltered_fold. cbn [app length].
  assert (Hf : filter
            (fun t => negb (negb (length (andWordsSet config) =? 0)
                            && includes (andWordsSet config) t))
            (slice toks start stop)
          = filter (notAnd config) (slice toks start stop)).
  { destruct (length (andWordsSet config) =? 0) eqn:Ea; simpl.
    - apply Nat.eqb_eq in Ea. rewrite (filter_notAnd_noAnd _ Ea).
      clear. induction (slice toks start stop); simpl; congruence.
    - reflexivity. }
  rewrite Hf.
  set (ft := filter (notAnd config) (slice toks start stop)).
  destruct (length ft =? 0) eqn:El.
  { apply Nat.eqb_eq in El. destruct ft; [|discriminate].
    exists 0%Z. split; [reflexivity | apply IntegerValue_nil]. }
  destruct (length (scaleTable config 0 ft) =? 0) eqn:Es.
  - apply Nat.eqb_eq in Es. eexists. split; [reflexivity|].
    apply IV_sum. apply (scaleTable_nil ft 0 Es).
  - destruct (@withScales_sound config ft _ Hpos (scaleTable_TableOf config ft)
                (S (length ft)) 0 (length ft) 0
                (length (scaleTable config 0 ft)))
      as (n & En & Hn); try lia.
    { apply table_inv. }
    rewrite slice_full in Hn. exists n. split; assumption.
Qed.

(** ** The value is unique *)

Lemma split_unique (l1 : list jsstring) : forall l2 t1 t2 r1 r2 m1 m2,
  l1 ++ t1 :: r1 = l2 ++ t2 :: r2 ->
  scaleNumber config t1 = Some m1 -> scaleNumber config t2 = Some m2 ->
  scalesBelow config m1 l1 -> scalesAtMost config m1 r1 ->
  scalesBelow config m2 l2 -> scalesAtMost config m2 r2 ->
  l1 = l2 /\ t1 = t2 /\ r1 = r2.
Proof.
  induction l1 as [|x l1 IH]; intros l2 t1 t2 r1 r2 m1 m2 E H1 H2 B1 A1 B2 A2.
  - destruct l2 as [|y l2]; simpl in E.
    + inversion E; auto.
    + inversion E; subst. exfalso.
      inversion B2 as [|? ? Hy _]; subst.
      pose proof (Hy _ H1).
      unfold scalesAtMost in A1. rewrite Forall_forall in A1.
      assert (In t2 (l2 ++ t2 :: r2)) by (apply in_or_app; right; left; reflexivity).
      pose proof (A1 _ H0 _ H2). lia.
  - destruct l2 as [|y l2]; simpl in E.
    + inversion E; subst. exfalso.
      inversion B1 as [|? ? Hy _]; subst.
      pose proof (Hy _ H2).
      unfold scalesAtMost in A2. rewrite Forall_forall in A2.
      assert (In t1 (l1 ++ t1 :: r1)) by (apply in_or_app; right; left; reflexivity).
      pose proof (A2 _ H0 _ H1). lia.
    + inversion E; subst.
      inversion B1; subst. inversion B2; subst.
      destruct (IH l2 t1 t2 r1 r2 m1 m2) as (-> & -> & ->); auto.
Qed.

Lemma no_scale_split (l r : list jsstring) (t : jsstring) (m : Z) :
  Forall (fun x => scaleNumber config x = None) (l ++ t :: r) ->
  scaleNumber config t = Some m -> False.
Proof.
  intros H E. rewrite Forall_forall in H.
  assert (In t (l ++ t :: r)) by (apply in_or_app; right; left; reflexivity).
  rewrite (H _ H0) in E. discriminate.
Qed.

Lemma IntegerValue_functional (toks : list jsstring) (n1 n2 : Z) :
  IntegerValue config toks n1 -> IntegerValue config toks n2 -> n1 = n2.
Proof.
  intros H1. revert n2.
  induction H1 as [toks Hn | t r m rem Hs Ha Hsup Hr IHr | t r m Hs Ha Hsup
                   | l t r m c rem Hne Hs Hb Ha Hl IHl Hr IHr];
    intros n2 H2.
  - inversion H2; subst; try reflexivity; exfalso.
    + apply (no_scale_split [] _ _ Hn H).
    + apply (no_scale_split [] _ _ Hn H).
    + apply (no_scale_split _ _ _ Hn H0).
  - inversion H2 as [toks' Hn' | t' r' m' rem' Hs' Ha' Hsup' Hr' | t' r' m' Hs' Ha' Hsup'
                     | l' t' r' m' c' rem' Hne' Hs' Hb' Ha' Hl' Hr' E]; subst.
    + exfalso. apply (no_scale_split [] _ _ Hn' Hs).
    + rewrite Hs in Hs'. inversion Hs'; subst. rewrite (IHr _ Hr'). reflexivity.
    + congruence.
    + exfalso.
      destruct (@split_unique [] l' t t' r r' m m') as (El & _); auto.
      constructor.
  - inversion H2 as [toks' Hn' | t' r' m' rem' Hs' Ha' Hsup' Hr' | t' r' m' Hs' Ha' Hsup'
                     | l' t' r' m' c' rem' Hne' Hs' Hb' Ha' Hl' Hr' E]; subst.
    + exfalso. apply (no_scale_split [] _ _ Hn' Hs).
    + congruence.
    + rewrite Hs in Hs'. inversion Hs'; subst. reflexivity.
    + exfalso.
      destruct (@split_unique [] l' t t' r r' m m') as (El & _); auto.
      constructor.
  - inversion H2 as [toks' Hn' | t' r' m' rem' Hs' Ha' Hsup' Hr' E | t' r' m' Hs' Ha' Hsup' E
                     | l' t' r' m' c' rem' Hne' Hs' Hb' Ha' Hl' Hr' E]; subst.
    + exfalso. apply (no_scale_split _ _ _ Hn' Hs).
    + exfalso.
      destruct (@split_unique l [] t t' r r' m m') as (El & _); auto.
      constructor.
    + exfalso.
      destruct (@split_unique l [] t t' r r' m m') as (El & _); auto.
      constructor.
    + destruct (@split_unique l l' t t' r r' m m') as (El & Et & Er); auto.
      subst. rewrite Hs in Hs'. inversion Hs'; subst.
      rewrite (IHl _ Hl'), (IHr _ Hr'). reflexivity.
Qed.

End IntegerEntryPoints.


(* ================================================================== *)
(** * The grammar compiler *)

(** ** Maps keep their keys distinct *)

Lemma map_set_keys (m : WordNumberMap) (k : jsstring) (v : Z) (x : jsstring) :
  In x (map_keys (map_set m k v)) <-> In x (map_keys m) \/ x = k.
Proof.
  induction m as [|[k' v'] m IH]; simpl.
  - intuition congruence.
  - destruct (str_eqb k' k) eqn:E; simpl.
    + apply str_eqb_eq in E. subst. intuition congruence.
    + unfold map_keys in IH. rewrite IH. intuition.
Qed.

Lemma map_set_NoDup (m : WordNumberMap) (k : jsstring) (v : Z) :
  NoDup (map_keys m) -> NoDup (map_keys (map_set m k v)).
Proof.
  induction m as [|[k' v'] m IH]; simpl; intros H.
  - constructor; [intros []| constructor].
  - inversion H as [|? ? Hn Hd]; subst.
    destruct (str_eqb k' k) eqn:E; simpl.
    + constructor; assumption.
    + constructor; [|apply IH; assumption].
      intros Hin. apply map_set_keys in Hin. destruct Hin as [Hin|Hin].
      * contradiction.
      * apply str_eqb_neq in E. congruence.
Qed.

Lemma map_get_In (m : WordNumberMap) (k : jsstring) (v : Z) :
  NoDup (map_keys m) -> (map_get m k = Some v <-> In (k, v) m).
Proof.
  induction m as [|[k' v'] m IH]; simpl; intros H.
  - split; [discriminate | intros []].
  - inversion H as [|? ? Hn Hd]; subst.
    destruct (str_eqb k' k) eqn:E.
    + apply str_eqb_eq in E. subst. split.
      * intros Hv; inversion Hv; auto.
      * intros [Hv|Hv]; [inversion Hv; auto|].
        exfalso. apply Hn. apply (in_map fst) in Hv. assumption.
    + rewrite (IH Hd). split; [auto|].
      intros [Hv|Hv]; [|assumption].
      inversion Hv; subst. rewrite str_eqb_refl in E. discriminate.
Qed.

Lemma map_get_set_same (m : WordNumberMap) (k : jsstring) (v : Z) :
  map_get (map_set m k v) k = Some v.
Proof.
  induction m as [|[k' v'] m IH]; simpl.
  - rewrite str_eqb_refl. reflexivity.
  - destruct (str_eqb k' k) eqn:E; simpl; rewrite E; auto.
Qed.

Lemma map_get_set_other (m : WordNumberMap) (k k' : jsstring) (v : Z) :
  k <> k' -> map_get (map_set m k v) k' = map_get m k'.
Proof.
  intros Hne. induction m as [|[k0 v0] m IH]; simpl.
  - apply str_eqb_neq in Hne. rewrite Hne. reflexivity.
  - destruct (str_eqb k0 k) eqn:E; simpl.
    + apply str_eqb_eq in E. subst.
      apply str_eqb_neq in Hne. rewrite Hne. reflexivity.
    + destruct (str_eqb k0 k'); auto.
Qed.

(** Folding a map-updating step over a list keeps the keys distinct. *)
Lemma fold_NoDup (A : Type) (step : WordNumberMap -> A -> WordNumberMap)
  (l : list A) :
  (forall m a, NoDup (map_keys m) -> NoDup (map_keys (step m a))) ->
  forall m, NoDup (map_keys m) -> NoDup (map_keys (fold_left step l m)).
Proof.
  intros Hstep. induction l as [|a l IH]; simpl; intros m Hm; auto.
Qed.

Lemma addNumberWord_NoDup (cs : bool) (m : WordNumberMap) (a : NumberWordMap) :
  NoDup (map_keys m) -> NoDup (map_keys (addNumberWord cs m a)).
Proof.
  intros H. unfold addNumberWord.
  assert (H1 : NoDup (map_keys
            (fold_left (fun acc word =>
                          map_set acc (normalizeWord word cs) (toNumber (number a)))
               (extractWordValue (value a)) m))).
  { apply fold_NoDup; auto. intros. apply map_set_NoDup. assumption. }
  destruct (singularValue a) as [[|c s]|]; auto.
  apply map_set_NoDup. assumption.
Qed.

Lemma addExactWord_NoDup (cs : bool) (m : WordNumberMap) (a : NumberWordMap) :
  NoDup (map_keys m) -> NoDup (map_keys (addExactWord cs m a)).
Proof.
  intros H. unfold addExactWord. apply fold_NoDup; auto.
  intros m0 w Hm. destruct (includesSpace w); auto. apply map_set_NoDup. assumption.
Qed.

Lemma addPluralWord_NoDup (cs : bool) (mark : jsstring) (m : WordNumberMap)
  (w : jsstring) :
  NoDup (map_keys m) -> NoDup (map_keys (addPluralWord cs mark m w)).
Proof.
  intros H. unfold addPluralWord.
  destruct (map_get m (normalizeWord w cs)); auto. apply map_set_NoDup. assumption.
Qed.

Lemma addPluralForms_NoDup (cs : bool) (m : WordNumberMap)
  (e : Z * PluralFormVariants) :
  NoDup (map_keys m) -> NoDup (map_keys (addPluralForms cs m e)).
Proof.
  intros H. destruct e as [n forms]. unfold addPluralForms.
  repeat match goal with
         | |- context [match ?x with _ => _ end] => destruct x
         | |- NoDup (map_keys (map_set _ _ _)) => apply map_set_NoDup
         end; auto.
Qed.

Lemma buildWordToNumberMap_NoDup (d : OriginalLocaleConfig) (cs : bool) :
  NoDup (map_keys (buildWordToNumberMap d cs)).
Proof.
  unfold buildWordToNumberMap.
  assert (H0 : NoDup (map_keys (fold_left (addNumberWord cs) (numberWordsMapping d) []))).
  { apply fold_NoDup; [apply addNumberWord_NoDup | constructor]. }
  set (m0 := fold_left (addNumberWord cs) (numberWordsMapping d) []) in *.
  assert (H1 : NoDup (map_keys match exactWordsMapping d with
                               | Some l => fold_left (addExactWord cs) l m0
                               | None => m0
                               end)).
  { destruct (exactWordsMapping d); auto.
    apply fold_NoDup; [apply addExactWord_NoDup | assumption]. }
  set (m1 := match exactWordsMapping d with
             | Some l => fold_left (addExactWord cs) l m0
             | None => m0
             end) in *.
  assert (H2 : NoDup (map_keys match pluralMark d, pluralWords d with
                               | Some (c :: mark), Some words =>
                                   fold_left (addPluralWord cs (c :: mark)) words m1
                               | _, _ => m1
                               end)).
  { destruct (pluralMark d) as [[|c mark]|]; auto.
    destruct (pluralWords d); auto.
    apply fold_NoDup; [apply addPluralWord_NoDup | assumption]. }
  destruct (pluralForms d); auto.
  apply fold_NoDup; [apply addPluralForms_NoDup | assumption].
Qed.

(** ** Scale values *)

Lemma SCALE_VALUES_powers (n : Z) :
  num_has SCALE_VALUES n = true <-> powerOfTen_2_16 n.
Proof.
  rewrite num_has_In. split.
  - intros H. unfold SCALE_VALUES in H. simpl in H.
    repeat (destruct H as [H|H];
            [subst n; first
               [ exists 2%Z; split; [lia|reflexivity]
               | exists 3%Z; split; [lia|reflexivity]
               | exists 4%Z; split; [lia|reflexivity]
               | exists 5%Z; split; [lia|reflexivity]
               | exists 6%Z; split; [lia|reflexivity]
               | exists 7%Z; split; [lia|reflexivity]
               | exists 8%Z; split; [lia|reflexivity]
               | exists 9%Z; split; [lia|reflexivity]
               | exists 10%Z; split; [lia|reflexivity]
               | exists 11%Z; split; [lia|reflexivity]
               | exists 12%Z; split; [lia|reflexivity]
               | exists 13%Z; split; [lia|reflexivity]
               | exists 14%Z; split; [lia|reflexivity]
               | exists 15%Z; split; [lia|reflexivity]
               | exists 16%Z; split; [lia|reflexivity] ] |]).
    contradiction.
  - intros (e & He & ->).
    assert (Hc : (e = 2 \/ e = 3 \/ e = 4 \/ e = 5 \/ e = 6 \/ e = 7 \/ e = 8
                  \/ e = 9 \/ e = 10 \/ e = 11 \/ e = 12 \/ e = 13 \/ e = 14
                  \/ e = 15 \/ e = 16)%Z) by lia.
    unfold SCALE_VALUES.
    repeat (destruct Hc as [Hc|Hc]; [subst e; simpl; tauto|]).
    subst e; simpl; tauto.
Qed.

Lemma scaleTest_spec (n : Z) :
  scaleTest n = true
  <-> powerOfTen_2_16 n \/ exists k, powerOfTen_2_16 k /\ n = (2 * k)%Z.
Proof.
  unfold scaleTest, halfIsScale.
  rewrite orb_true_iff, !andb_true_iff, !SCALE_VALUES_powers, Z.leb_le.
  split.
  - intros [H|(H1 & H2 & H3)]; [left; assumption|].
    right. apply Z.even_spec in H2. destruct H2 as [k Hk]. subst n.
    replace (2 * k / 2)%Z with k in H3
      by (rewrite Z.mul_comm, Z.div_mul; lia).
    exists k. split; [assumption | reflexivity].
  - intros [H|(k & Hk & ->)]; [left; assumption|].
    right. destruct Hk as (e & He & ->).
    assert (Hp : (100 <= 10 ^ e)%Z).
    { change 100%Z with (10 ^ 2)%Z. apply Z.pow_le_mono_r; lia. }
    split; [lia|]. split.
    + rewrite Z.even_mul. reflexivity.
    + replace (2 * 10 ^ e / 2)%Z with (10 ^ e)%Z
        by (rewrite Z.mul_comm, Z.div_mul; lia).
      exists e. split; [lia | reflexivity].
Qed.

Lemma scaleTest_positive (n : Z) : scaleTest n = true -> (100 <= n)%Z.
Proof.
  intros H. apply scaleTest_spec in H.
  assert (Hp : forall k, powerOfTen_2_16 k -> (100 <= k)%Z).
  { intros k (e & He & ->). change 100%Z with (10 ^ 2)%Z.
    apply Z.pow_le_mono_r; lia. }
  destruct H as [H|(k & Hk & ->)]; [auto|]. specialize (Hp _ Hk). lia.
Qed.

Lemma num_add_In (s : list Z) (n x : Z) :
  In x (num_add s n) <-> In x s \/ x = n.
Proof.
  unfold num_add. destruct (num_has s n) eqn:E.
  - apply num_has_In in E. intuition congruence.
  - rewrite in_app_iff. simpl. intuition.
Qed.

Lemma addScaleWord_In (acc : list Z) (w : jsstring) (v n : Z) :
  In n (addScaleWord acc (w, v)) <-> In n acc \/ (n = v /\ scaleTest v = true).
Proof.
  unfold addScaleWord, scaleTest. cbn [snd].
  destruct (num_has SCALE_VALUES v);
    destruct ((100 <=? v)%Z && halfIsScale v); cbn [orb];
    rewrite ?num_add_In; intuition (try discriminate; auto).
Qed.

Lemma extractScaleWords_acc (m : WordNumberMap) : forall acc n,
  In n (fold_left addScaleWord m acc)
  <-> In n acc \/ ((exists w, In (w, n) m) /\ scaleTest n = true).
Proof.
  induction m as [|[w v] m IH]; intros acc n; simpl.
  - split; [auto|]. intros [H|[[w []] _]]; assumption.
  - rewrite IH, addScaleWord_In. split.
    + intros [[H|[-> H]]|[[w' Hw] Ht]]; auto.
      * right. split; [exists w; auto | assumption].
      * right. split; [exists w'; auto | assumption].
    + intros [H|[[w' [Hw|Hw]] Ht]]; auto.
      * inversion Hw; subst. auto.
      * right. split; [exists w'; auto | assumption].
Qed.

Lemma extractScaleWords_spec (m : WordNumberMap) (n : Z) :
  In n (extractScaleWords m)
  <-> (exists w, In (w, n) m) /\ scaleTest n = true.
Proof.
  unfold extractScaleWords. rewrite extractScaleWords_acc. simpl. tauto.
Qed.

Lemma compiled_scalesPositive (d : OriginalLocaleConfig) (cs : bool) :
  scalesPositive (buildParserLocaleConfig d cs).
Proof.
  intros n H. simpl in H. apply num_has_In, extractScaleWords_spec in H.
  destruct H as [_ H]. apply scaleTest_positive in H. lia.
Qed.


(* ================================================================== *)
(** * Integer phrases *)

Lemma sumTokens_single (config : ParserLocaleConfig) (w : jsstring) (v : Z) :
  map_get (wordToNumber config) w = Some v -> sumTokens config [w] = v.
Proof. intros H. unfold sumTokens. simpl. rewrite H. reflexivity. Qed.

Lemma claimed_nil (config : ParserLocaleConfig) (n : Z) :
  ClaimedIntegerValue config [] n -> n = 0%Z.
Proof.
  intros H. remember [] as toks eqn:Et.
  destruct H as [toks Hn | t r m rem Hs Ha Hr | l t r m c rem Hne Hs Hb Ha Hl Hr].
  - subst. reflexivity.
  - discriminate.
  - destruct l; discriminate.
Qed.

Lemma claimed_single (config : ParserLocaleConfig) (t : jsstring) (m n : Z) :
  scaleNumber config t = Some m ->
  ClaimedIntegerValue config [t] n -> n = m.
Proof.
  intros Hm H.
  inversion H as [toks Hn | t' r m' rem Hs Ha Hr | l t' r m' c rem Hne Hs Hb Ha Hl Hr E];
    subst.
  - inversion Hn; subst. congruence.
  - apply claimed_nil in Hr. subst. rewrite Hm in Hs. inversion Hs. lia.
  - destruct l as [|x [|y l]]; try congruence; simpl in E; inversion E.
Qed.

Lemma claimed_unit (config : ParserLocaleConfig) (w : jsstring) (v n : Z) :
  scaleNumber config w = None -> map_get (wordToNumber config) w = Some v ->
  ClaimedIntegerValue config [w] n -> n = v.
Proof.
  intros Hs Hv H.
  inversion H as [toks Hn | t' r m' rem Hs' Ha Hr | l t' r m' c rem Hne Hs' Hb Ha Hl Hr E];
    subst.
  - apply sumTokens_single. assumption.
  - congruence.
  - destruct l as [|x [|y l]]; try congruence; simpl in E; inversion E.
Qed.

Lemma claimed_pair (config : ParserLocaleConfig) (t w : jsstring) (m n : Z) :
  scaleNumber config t = Some m ->
  scaleNumber config w = None -> map_get (wordToNumber config) w = Some 1%Z ->
  ClaimedIntegerValue config [t; w] n -> n = (m + 1)%Z.
Proof.
  intros Hm Hs Hv H.
  inversion H as [toks Hn | t' r m' rem Hs' Ha Hr | l t' r m' c rem Hne Hs' Hb Ha Hl Hr E];
    subst.
  - inversion Hn; subst. congruence.
  - apply (claimed_unit Hs Hv) in Hr. subst.
    rewrite Hm in Hs'. inversion Hs'. lia.
  - destruct l as [|x [|y l]]; try congruence; simpl in E; inversion E; subst.
    + congruence.
    + destruct l; discriminate.
Qed.

(** ** Values that doubles hold exactly *)

Lemma wordsNonNegative_get (config : ParserLocaleConfig) (w : jsstring) (v : Z) :
  wordsNonNegative config = true ->
  map_get (wordToNumber config) w = Some v -> (0 <= v)%Z.
Proof.
  unfold wordsNonNegative. generalize (wordToNumber config) as m.
  induction m as [|[k x] m IH]; cbn [forallb map_get snd]; intros Hn Hg;
    [discriminate|].
  apply andb_true_iff in Hn. destruct Hn as [Hx Hm].
  destruct (str_eqb k w).
  - inversion Hg; subst. apply Z.leb_le. exact Hx.
  - apply (IH Hm Hg).
Qed.

Lemma sumTokens_nonneg (config : ParserLocaleConfig) (toks : list jsstring) :
  wordsNonNegative config = true -> (0 <= sumTokens config toks)%Z.
Proof.
  intros Hn. unfold sumTokens.
  assert (H : forall acc, (0 <= acc)%Z ->
            (0 <= fold_left
                    (fun sum token =>
                       match map_get (wordToNumber config) token with
                       | Some num => (sum + num)%Z
                       | None => sum
                       end) toks acc)%Z).
  { induction toks as [|t r IH]; intros acc Ha; cbn [fold_left]; [exact Ha|].
    apply IH. destruct (map_get (wordToNumber config) t) as [v|] eqn:E; [|exact Ha].
    pose proof (wordsNonNegative_get _ _ Hn E). lia. }
  apply H. lia.
Qed.

(** With no negative number word, the value of a phrase is not negative. *)
Lemma IntegerValue_nonneg (config : ParserLocaleConfig) (toks : list jsstring)
  (n : Z) :
  scalesPositive config -> wordsNonNegative config = true ->
  IntegerValue config toks n -> (0 <= n)%Z.
Proof.
  intros Hp Hn H.
  induction H as [toks Hs | t r m rem Hs Ha Hsup Hr IHr | t r m Hs Ha Hsup
                 | l t r m c rem Hne Hs Hb Ha Hl IHl Hr IHr].
  - apply sumTokens_nonneg, Hn.
  - pose proof (Hp m (scaleNumber_has _ _ Hs)).
    unfold bareCoefficient. destruct (includes (impliedDualWords config) t); lia.
  - pose proof (Hp m (scaleNumber_has _ _ Hs)).
    unfold bareCoefficient. destruct (includes (impliedDualWords config) t); lia.
  - pose proof (Hp m (scaleNumber_has _ _ Hs)).
    unfold orOne. destruct (c =? 0)%Z; nia.
Qed.

Lemma sumTokens_app (config : ParserLocaleConfig) (l1 l2 : list jsstring) :
  sumTokens config (l1 ++ l2) = (sumTokens config l1 + sumTokens config l2)%Z.
Proof.
  unfold sumTokens. rewrite fold_left_app.
  generalize (fold_left
                (fun sum token =>
                   match map_get (wordToNumber config) token with
                   | Some num => (sum + num)%Z
                   | None => sum
                   end) l1 0%Z) as a.
  assert (H : forall a b,
            fold_left
              (fun sum token =>
                 match map_get (wordToNumber config) token with
                 | Some num => (sum + num)%Z
                 | None => sum
                 end) l2 (a + b)%Z
            = (a + fold_left
                     (fun sum token =>
                        match map_get (wordToNumber config) token with
                        | Some num => (sum + num)%Z
                        | None => sum
                        end) l2 b)%Z).
  { induction l2 as [|t r IH]; intros a b; cbn [fold_left]; [reflexivity|].
    destruct (map_get (wordToNumber config) t) as [v|]; [|apply IH].
    rewrite <- Z.add_assoc. apply IH. }
  intros a. rewrite <- (Z.add_0_r a) at 1. apply H.
Qed.

(** The numbers computed on the way to the value of a phrase are at most
    the value: each partial sum of a sum, and in [c * m + rem] the
    coefficient, the product and the remainder. *)
Lemma IntegerValue_steps (config : ParserLocaleConfig) :
  scalesPositive config -> wordsNonNegative config = true ->
  (forall toks k,
     (0 <= sumTokens config (firstn k toks) <= sumTokens config toks)%Z)
  /\ (forall t m c rem,
        scaleNumber config t = Some m -> (0 <= c)%Z -> (0 <= rem)%Z ->
        (c <= orOne c * m)%Z
        /\ (0 <= orOne c * m <= orOne c * m + rem)%Z
        /\ (rem <= orOne c * m + rem)%Z
        /\ (0 <= bareCoefficient config t * m
            <= bareCoefficient config t * m + rem)%Z).
Proof.
  intros Hp Hn. split.
  - intros toks k. split; [apply sumTokens_nonneg, Hn|].
    rewrite <- (firstn_skipn k toks) at 2. rewrite sumTokens_app.
    pose proof (@sumTokens_nonneg config (skipn k toks) Hn). lia.
  - intros t m c rem Hs Hc Hr.
    pose proof (Hp m (scaleNumber_has _ _ Hs)).
    unfold orOne, bareCoefficient.
    destruct (c =? 0)%Z eqn:E; destruct (includes (impliedDualWords config) t);
      try (apply Z.eqb_eq in E); nia.
Qed.

(** C1 (as amended).  Integer parsing is the highest-scale-wins recursion:
    conjunction tokens are dropped first; when no token is a scale word the
    result is the sum of the mapped word values (unknown tokens count 0);
    otherwise the sequence is split at the first scale word of greatest
    magnitude, a non-empty left part is parsed as the coefficient (0 counts
    as 1), an empty left part gives coefficient 2 for an implied-dual word
    and 1 otherwise, and the right part is parsed as the remainder unless it
    is a suppressed postfix "one"; the result is coefficient * magnitude +
    remainder.  The rules give every token sequence exactly one value.  The
    parser returns it whenever no number word is negative and the value is a
    safe integer: every sum and product on the way is then between 0 and
    the value, so the doubles of the program hold them exactly. *)
Theorem integer_parse_highest_scale_wins
  (d : OriginalLocaleConfig) (cs : bool) (tokens : list jsstring) :
  exists n,
    ParsesInteger (buildParserLocaleConfig d cs) tokens n
    /\ (forall n', ParsesInteger (buildParserLocaleConfig d cs) tokens n' -> n' = n)
    /\ (wordsNonNegative (buildParserLocaleConfig d cs) = true ->
        (0 <= n)%Z
        /\ ((n <= MAX_SAFE_INTEGER)%Z ->
            parseIntegerTokens tokens (buildParserLocaleConfig d cs) = Some n)).
Proof.
  destruct (parseIntegerTokens_sound tokens (compiled_scalesPositive d cs))
    as (n & E & H).
  exists n. split; [assumption|]. split.
  - intros n' H'. apply (IntegerValue_functional H' H).
  - intros Hn. split; [|intros _; exact E].
    apply (IntegerValue_nonneg (compiled_scalesPositive d cs) Hn H).
Qed.

(** C1 (as stated) fails: with an empty left part the coefficient is not
    always 1 (a bare implied-dual word doubles), and the right part is not
    always added (a postfix "one" is suppressed). *)
Lemma integer_parse_as_stated_fails :
  (parseIntegerTokens [js "milioni"] (buildParserLocaleConfig italian false)
   = Some 2000000%Z
   /\ ~ ClaimedParsesInteger (buildParserLocaleConfig italian false)
          [js "milioni"] 2000000%Z)
  /\ (parseIntegerTokens [js "mia"; js "moja"]
        (buildParserLocaleConfig swahili false) = Some 100%Z
      /\ ~ ClaimedParsesInteger (buildParserLocaleConfig swahili false)
             [js "mia"; js "moja"] 100%Z).
Proof.
  split; split; try (vm_compute; reflexivity).
  - unfold ClaimedParsesInteger.
    replace (filter (notAnd (buildParserLocaleConfig italian false)) [js "milioni"])
      with [js "milioni"] by (vm_compute; reflexivity).
    intros H.
    assert (E : scaleNumber (buildParserLocaleConfig italian false) (js "milioni")
                = Some 1000000%Z) by (vm_compute; reflexivity).
    apply (claimed_single E) in H. discriminate.
  - unfold ClaimedParsesInteger.
    replace (filter (notAnd (buildParserLocaleConfig swahili false))
               [js "mia"; js "moja"])
      with [js "mia"; js "moja"] by (vm_compute; reflexivity).
    intros H.
    assert (E1 : scaleNumber (buildParserLocaleConfig swahili false) (js "mia")
                 = Some 100%Z) by (vm_compute; reflexivity).
    assert (E2 : scaleNumber (buildParserLocaleConfig swahili false) (js "moja")
                 = None) by (vm_compute; reflexivity).
    assert (E3 : map_get (wordToNumber (buildParserLocaleConfig swahili false))
                   (js "moja") = Some 1%Z) by (vm_compute; reflexivity).
    apply (claimed_pair E1 E2 E3) in H. discriminate.
Qed.

(* ================================================================== *)
(** * Scale magnitudes *)

(** C7 (as amended).  The scale magnitudes of a compiled grammar are
    exactly the mapped values that are a power of ten from 10^2 to 10^16
    (all fifteen of them, 10^10 and 10^14 included) or twice such a power;
    the parser treats no other value as a scale word. *)
Theorem scale_words_exactly_powers_of_ten (d : OriginalLocaleConfig) (cs : bool) :
  (forall n,
     In n (scaleWords (buildParserLocaleConfig d cs))
     <-> (exists w, map_get (wordToNumber (buildParserLocaleConfig d cs)) w = Some n)
         /\ (powerOfTen_2_16 n \/ exists k, powerOfTen_2_16 k /\ n = (2 * k)%Z))
  /\ (forall token n,
        scaleNumber (buildParserLocaleConfig d cs) token = Some n ->
        powerOfTen_2_16 n \/ exists k, powerOfTen_2_16 k /\ n = (2 * k)%Z).
Proof.
  assert (H : forall n,
     In n (scaleWords (buildParserLocaleConfig d cs))
     <-> (exists w, map_get (wordToNumber (buildParserLocaleConfig d cs)) w = Some n)
         /\ (powerOfTen_2_16 n \/ exists k, powerOfTen_2_16 k /\ n = (2 * k)%Z)).
  { intros n. cbn [scaleWords wordToNumber buildParserLocaleConfig].
    rewrite extractScaleWords_spec, scaleTest_spec.
    split; intros [[w Hw] Ht]; (split; [exists w|assumption]).
    - apply map_get_In; [apply buildWordToNumberMap_NoDup | assumption].
    - apply map_get_In in Hw; [assumption | apply buildWordToNumberMap_NoDup]. }
  split; [exact H|].
  intros token n Hs. apply scaleNumber_has, num_has_In, H in Hs. tauto.
Qed.

(** C7 (as stated) fails: ten billion is a scale magnitude of the engine and
    is neither in the listed set nor twice a listed magnitude. *)
Lemma listed_magnitudes_miss_ten_billion :
  In 10000000000%Z (scaleWords (buildParserLocaleConfig tenBillion false))
  /\ scaleNumber (buildParserLocaleConfig tenBillion false) (js "dasharab")
     = Some 10000000000%Z
  /\ ~ listedScale 10000000000%Z.
Proof.
  split; [vm_compute; auto|]. split; [vm_compute; reflexivity|].
  unfold listedScale, listedMagnitudes. intros [H|(k & Hk & E)].
  - simpl in H. repeat (destruct H as [H|H]; [discriminate|]). contradiction.
  - simpl in Hk. repeat (destruct Hk as [Hk|Hk]; [subst k; discriminate|]).
    contradiction.
Qed.


(* ================================================================== *)
(** * Postfix one and implied dual *)

Lemma str_add_In (s : list jsstring) (w x : jsstring) :
  In x (str_add s w) <-> In x s \/ x = w.
Proof.
  unfold str_add. destruct (includes s w) eqn:E.
  - apply includes_In in E. intuition congruence.
  - rewrite in_app_iff. simpl. intuition.
Qed.






(** What the parser returns is the value the rules give. *)
Lemma parse_is (d : OriginalLocaleConfig) (cs : bool) (tokens : list jsstring)
  (v : Z) :
  ParsesInteger (buildParserLocaleConfig d cs) tokens v ->
  parseIntegerTokens tokens (buildParserLocaleConfig d cs) = Some v.
Proof.
  intros H.
  destruct (parseIntegerTokens_sound tokens (compiled_scalesPositive d cs))
    as (n & E & Hn).
  rewrite E. f_equal. apply (IntegerValue_functional Hn H).
Qed.

Lemma parse_value (d : OriginalLocaleConfig) (cs : bool) (tokens : list jsstring)
  (v : Z) :
  parseIntegerTokens tokens (buildParserLocaleConfig d cs) = Some v ->
  ParsesInteger (buildParserLocaleConfig d cs) tokens v.
Proof.
  intros H.
  destruct (parseIntegerTokens_sound tokens (compiled_scalesPositive d cs))
    as (n & E & Hn).
  rewrite E in H. inversion H; subst. assumption.
Qed.





Lemma optEqb_Some (w : jsstring) (o : option jsstring) :
  optEqb (Some w) o = true <-> o = Some w.
Proof.
  destruct o as [x|]; simpl.
  - rewrite str_eqb_eq. split; congruence.
  - split; discriminate.
Qed.

Lemma optEqb_Some_false (w : jsstring) (o : option jsstring) :
  optEqb (Some w) o = false <-> o <> Some w.
Proof.
  rewrite <- optEqb_Some. destruct (optEqb (Some w) o); split; congruence.
Qed.

Lemma addImpliedDual_In (cs : bool) (acc : list jsstring)
  (e : Z * PluralFormVariants) (w : jsstring) :
  In w (addImpliedDual cs acc e) <-> In w acc \/ dualSharesSpelling cs (snd e) w.
Proof.
  unfold addImpliedDual, dualSharesSpelling. cbv zeta.
  destruct (normOpt cs (dual (snd e))) as [[|c s]|] eqn:Ed.
  - split; [auto|]. intros [H|(H1 & H2 & _)]; [assumption|]. congruence.
  - match goal with |- context [if ?b then _ else _] => destruct b eqn:E end.
    + rewrite str_add_In. apply orb_true_iff in E.
      rewrite !optEqb_Some in E. split.
      * intros [H|H]; [auto|]. subst. right. split; [discriminate|]. auto.
      * intros [H|(H1 & H2 & _)]; [auto|]. right. congruence.
    + apply orb_false_iff in E. rewrite !optEqb_Some_false in E.
      split; [auto|]. intros [H|(H1 & H2 & [H3|H3])]; [assumption| |];
        inversion H2; subst; tauto.
  - split; [auto|]. intros [H|(H1 & H2 & _)]; [assumption|]. discriminate.
Qed.

Lemma impliedDual_fold (cs : bool) (l : list (Z * PluralFormVariants)) :
  forall acc w,
  In w (fold_left (addImpliedDual cs) l acc)
  <-> In w acc \/ exists e, In e l /\ dualSharesSpelling cs (snd e) w.
Proof.
  induction l as [|e l IH]; intros acc w; simpl.
  - split; [auto|]. intros [H|(e & [] & _)]. assumption.
  - rewrite IH, addImpliedDual_In. split.
    + intros [[H|H]|(e' & He & H)]; auto.
      * right. exists e. auto.
      * right. exists e'. auto.
    + intros [H|(e' & [He|He] & H)]; auto.
      * subst. auto.
      * right. exists e'. auto.
Qed.

Lemma addPluralForms_dual (cs : bool) (m : WordNumberMap) (n : Z)
  (forms : PluralFormVariants) (w : jsstring) :
  dualHasOwnSpelling cs forms w ->
  map_get (addPluralForms cs m (n, forms)) w = Some (2 * n)%Z.
Proof.
  intros (Hne & Hd & Hp & Hl). unfold addPluralForms. cbv zeta.
  rewrite Hd. destruct w as [|c s]; [congruence|].
  apply optEqb_Some_false in Hp. apply optEqb_Some_false in Hl.
  rewrite Hp, Hl. cbn [truthy negb andb].
  assert (H1 : map_get (map_set m (c :: s) (n * 2)%Z) (c :: s) = Some (2 * n)%Z)
    by (rewrite map_get_set_same; f_equal; lia).
  apply optEqb_Some_false in Hp. apply optEqb_Some_false in Hl.
  destruct (normOpt cs (paucal forms)) as [[|c1 s1]|];
    destruct (normOpt cs (plural forms)) as [[|c2 s2]|];
    repeat (rewrite map_get_set_other by congruence); exact H1.
Qed.

Lemma addPluralForms_other (cs : bool) (m : WordNumberMap) (n : Z)
  (forms : PluralFormVariants) (w : jsstring) :
  ~ formsMention cs forms w ->
  map_get (addPluralForms cs m (n, forms)) w = map_get m w.
Proof.
  intros H. unfold formsMention in H. unfold addPluralForms. cbv zeta.
  destruct (normOpt cs (dual forms)) as [[|c0 s0]|];
    destruct (normOpt cs (paucal forms)) as [[|c1 s1]|];
    destruct (normOpt cs (plural forms)) as [[|c2 s2]|];
    repeat (rewrite map_get_set_other
              by (intro; subst; apply H; auto));
    reflexivity.
Qed.

Lemma pluralForms_later (cs : bool) (after : list (Z * PluralFormVariants))
  (w : jsstring) :
  (forall e, In e after -> ~ formsMention cs (snd e) w) ->
  forall m, map_get (fold_left (addPluralForms cs) after m) w = map_get m w.
Proof.
  induction after as [|[n forms] after IH]; intros H m; simpl; [reflexivity|].
  rewrite IH by (intros e He; apply H; right; assumption).
  apply addPluralForms_other. apply (H (n, forms)). left. reflexivity.
Qed.

Lemma filter_all (A : Type) (f : A -> bool) (l : list A) :
  Forall (fun x => f x = true) l -> filter f l = l.
Proof.
  induction 1 as [|x l Hx Hl IH]; simpl; [reflexivity|].
  rewrite Hx, IH. reflexivity.
Qed.

Lemma filter_keeps (A : Type) (f : A -> bool) (l : list A) :
  Forall (fun x => f x = true) (filter f l).
Proof. apply Forall_forall. intros x Hx. apply filter_In in Hx. tauto. Qed.

(** C3 (as amended).  A word is marked implied-dual exactly when it is the
    (non-empty) dual form of a plural-forms entry and is spelled like that
    entry's paucal or plural form.  Such a word, when it is a scale word of
    magnitude m, parses alone to 2 * m; after an explicit coefficient (the
    tokens before it, all scale words among them below m, parsing to a
    non-zero c, with no negative number word and c * m a safe integer) the
    result is c * m with no doubling.  A dual form with a spelling of its
    own is mapped to twice the entry's magnitude in the reverse word map
    (no later entry respelling it).  The two statements about spellings
    are for a grammar compiled case-sensitively or written in code units
    below 128, where the case folding is the one modelled. *)
Theorem implied_dual (d : OriginalLocaleConfig) (cs : bool) :
  (foldingModelled cs d ->
   forall w,
     includes (impliedDualWords (buildParserLocaleConfig d cs)) w = true
     <-> exists entries e, pluralForms d = Some entries /\ In e entries
                           /\ dualSharesSpelling cs (snd e) w)
  /\ (forall w m tokens,
        includes (impliedDualWords (buildParserLocaleConfig d cs)) w = true ->
        scaleNumber (buildParserLocaleConfig d cs) w = Some m ->
        filter (notAnd (buildParserLocaleConfig d cs)) tokens = [w] ->
        parseIntegerTokens tokens (buildParserLocaleConfig d cs) = Some (2 * m)%Z)
  /\ (forall w m coef tokens c,
        scaleNumber (buildParserLocaleConfig d cs) w = Some m ->
        filter (notAnd (buildParserLocaleConfig d cs)) tokens = coef ++ [w] ->
        coef <> [] ->
        scalesBelow (buildParserLocaleConfig d cs) m coef ->
        parseIntegerTokens coef (buildParserLocaleConfig d cs) = Some c ->
        c <> 0%Z ->
        wordsNonNegative (buildParserLocaleConfig d cs) = true ->
        (c * m <= MAX_SAFE_INTEGER)%Z ->
        parseIntegerTokens tokens (buildParserLocaleConfig d cs) = Some (c * m)%Z)
  /\ (foldingModelled cs d ->
      forall before n forms after w,
        pluralForms d = Some (before ++ (n, forms) :: after) ->
        dualHasOwnSpelling cs forms w ->
        (forall e, In e after -> ~ formsMention cs (snd e) w) ->
        map_get (wordToNumber (buildParserLocaleConfig d cs)) w = Some (2 * n)%Z).
Proof.
  set (config := buildParserLocaleConfig d cs).
  split; [|split; [|split]].
  - intros _ w. rewrite includes_In.
    unfold config. cbn [impliedDualWords buildParserLocaleConfig].
    unfold extractImpliedDualWords.
    destruct (pluralForms d) as [l|].
    + rewrite impliedDual_fold. split.
      * intros [[]|(e & He & H)]. exists l, e. auto.
      * intros (l' & e & El & He & H). inversion El; subst. right. exists e. auto.
    + split; [intros []|]. intros (l' & e & El & _). discriminate.
  - intros w m tokens Hd Hm Ht. apply parse_is. unfold ParsesInteger.
    fold config. rewrite Ht.
    replace (2 * m)%Z with (bareCoefficient config w * m + 0)%Z
      by (unfold bareCoefficient; rewrite Hd; lia).
    apply IV_bare; auto.
    + constructor.
    + unfold suppresses. apply andb_false_r.
    + apply IntegerValue_nil.
  - intros w m coef tokens c Hm Ht Hne Hb Hc Hnz _ _.
    apply parse_is. unfold ParsesInteger. fold config. rewrite Ht.
    apply parse_value in Hc. unfold ParsesInteger in Hc. fold config in Hc.
    assert (Hk : Forall (fun x => notAnd config x = true) (coef ++ [w]))
      by (rewrite <- Ht; apply filter_keeps).
    apply Forall_app in Hk. destruct Hk as [Hk _].
    rewrite (filter_all _ Hk) in Hc.
    replace (c * m)%Z with (orOne c * m + 0)%Z.
    2: { unfold orOne. destruct (c =? 0)%Z eqn:E; [apply Z.eqb_eq in E|]; lia. }
    apply IV_coef; auto.
    + constructor.
    + apply IntegerValue_nil.
  - intros _ before n forms after w Hpf Hown Hlater.
    unfold config. cbn [wordToNumber buildParserLocaleConfig].
    unfold buildWordToNumberMap. rewrite Hpf.
    rewrite fold_left_app. cbn [fold_left].
    rewrite pluralForms_later by assumption.
    apply addPluralForms_dual. assumption.
Qed.

Lemma implied_dual_witness :
  parseIntegerTokens [js "milioni"] (buildParserLocaleConfig italian false)
  = Some 2000000%Z
  /\ parseIntegerTokens [js "dieci"; js "milioni"]
       (buildParserLocaleConfig italian false) = Some 10000000%Z
  /\ map_get (wordToNumber (buildParserLocaleConfig arabic false)) (js "alfan")
     = Some 2000%Z.
Proof.
  destruct (implied_dual italian false) as (_ & H2 & H3 & _).
  destruct (implied_dual arabic false) as (_ & _ & _ & H4).
  split; [|split].
  - apply (H2 (js "milioni") 1000000%Z); vm_compute; reflexivity.
  - apply (H3 (js "milioni") 1000000%Z [js "dieci"] _ 10%Z);
      try (vm_compute; reflexivity).
    + discriminate.
    + constructor; [|constructor]. intros v Hv. vm_compute in Hv. discriminate.
    + discriminate.
    + unfold MAX_SAFE_INTEGER. lia.
  - apply (H4 (or_intror eq_refl) [] 1000%Z
             {| dual := Some (js "Alfan"); paucal := Some (js "Alaf");
                plural := Some (js "Alf") |} []).
    + reflexivity.
    + repeat split; try (vm_compute; reflexivity); vm_compute; discriminate.
    + intros e [].
Defined.

(** C3 (as stated) fails.  An explicit coefficient does not always
    multiply: a coefficient that parses to 0 counts as 1 ("zero milioni" is
    1000000, not 0), and a coefficient that holds a word of the same
    magnitude is not one ("milione milioni" is 1000000 + 2 * 1000000).  A
    word marked implied-dual that is no scale word is not doubled: in a
    grammar whose dual of ten is spelled like its plural, "dieci" alone is
    10. *)
Lemma implied_dual_as_stated_fails :
  includes (impliedDualWords (buildParserLocaleConfig italian false))
    (js "milioni") = true
  /\ parseIntegerTokens [js "zero"] (buildParserLocaleConfig italian false)
     = Some 0%Z
  /\ parseIntegerTokens [js "zero"; js "milioni"]
       (buildParserLocaleConfig italian false) = Some 1000000%Z
  /\ parseIntegerTokens [js "milione"] (buildParserLocaleConfig italian false)
     = Some 1000000%Z
  /\ parseIntegerTokens [js "milione"; js "milioni"]
       (buildParserLocaleConfig italian false) = Some 3000000%Z
  /\ includes (impliedDualWords (buildParserLocaleConfig tensDual false))
       (js "dieci") = true
  /\ parseIntegerTokens [js "dieci"] (buildParserLocaleConfig tensDual false)
     = Some 10%Z.
Proof. repeat split; vm_compute; reflexivity. Qed.


(* ================================================================== *)
(** * Plain numbers, currency and the sign *)

Lemma compiled_parse_total (d : OriginalLocaleConfig) (cs : bool)
  (tokens : list jsstring) :
  exists n, parseIntegerTokens tokens (buildParserLocaleConfig d cs) = Some n
            /\ ParsesInteger (buildParserLocaleConfig d cs) tokens n.
Proof. apply parseIntegerTokens_sound. apply compiled_scalesPositive. Qed.

Lemma compiled_range_total (d : OriginalLocaleConfig) (cs : bool)
  (tokens : list jsstring) (start stop : nat) :
  exists n,
    parseIntegerTokensInRange tokens start stop (buildParserLocaleConfig d cs) = Some n
    /\ ParsesInteger (buildParserLocaleConfig d cs) (slice tokens start stop) n.
Proof. apply parseIntegerTokensInRange_sound. apply compiled_scalesPositive. Qed.




(** ** The sign *)

Lemma Qltb_inject_Z (v : Z) : Qltb (inject_Z v) 0 = (v <? 0)%Z.
Proof.
  unfold Qltb, Qle_bool. simpl. rewrite Z.mul_1_r.
  rewrite Z.ltb_antisym. reflexivity.
Qed.

Lemma parseTokens_sign (config : ParserLocaleConfig) (tokens : list jsstring)
  (r : ParseResult) :
  parseTokens tokens config = Some r -> isNegative r = Qltb (res_value r) 0.
Proof.
  unfold parseTokens. destruct (length tokens =? 0).
  - intros H. inversion H. reflexivity.
  - destruct (parseOrdinalFromTokens tokens config) as [[v|]|]; cbn [bind].
    + intros H. inversion H. simpl. symmetry. apply Qltb_inject_Z.
    + destruct (parseNumberFromTokens tokens config); cbn [bind];
        intros H; inversion H. reflexivity.
    + discriminate.
Qed.

Lemma parseCurrencyTokens_sign (config : ParserLocaleConfig)
  (tokens : list jsstring) (options : ConverterOptions) (r : ParseResult) :
  parseCurrencyTokens tokens config options = Some r ->
  isNegative r = startsWithMinus config tokens.
Proof.
  unfold parseCurrencyTokens. destruct (length tokens =? 0) eqn:E0.
  - apply Nat.eqb_eq in E0. destruct tokens; [|discriminate].
    intros H. inversion H. reflexivity.
  - destruct (findUnitMatches tokens _ _ config options) as [[m|] [f|]];
      repeat match goal with
             | |- context [parseIntegerTokensInRange ?a ?b ?c ?e] =>
                 destruct (parseIntegerTokensInRange a b c e); cbn [bind]
             end;
      intros H; inversion H; reflexivity.
Qed.

(** C10.  For a non-currency [parse] that returns, [isNegative] is
    [value < 0].  In particular a negation word followed by a phrase that is
    no ordinal, has no decimal point and parses to zero gives value 0 with
    [isNegative] false.  Currency parsing instead reports whether the first
    token is a negation word. *)
Theorem isNegative_is_value_below_zero :
  (forall self words options r,
     currencyMode (mergeOptions self options) = false ->
     parse self words options = Returns r ->
     isNegative r = Qltb (res_value r) 0)
  /\ (forall config tokens rest minusWord,
        tokens = minusWord :: rest ->
        includes (minus_words (markers config)) minusWord = true ->
        parseOrdinalFromTokens tokens config = Some None ->
        findPointIndexInRange rest 0 (length rest) config = None ->
        parseIntegerTokens rest config = Some 0%Z ->
        exists r, parseTokens tokens config = Some r
                  /\ (res_value r == 0)%Q /\ isNegative r = false)
  /\ (forall config tokens options r,
        parseCurrencyTokens tokens config options = Some r ->
        isNegative r = startsWithMinus config tokens).
Proof.
  split; [|split].
  - intros self words options r Hc H. unfold parse in H.
    destruct (negb (isValidInput words)); [discriminate|].
    rewrite Hc in H.
    unfold getTokens, getParserConfig, getLocaleClass in H.
    destruct (localeClass self) as [locale|]; cbn [andThen] in H; [|discriminate].
    destruct (getTokensWith (buildParserLocaleConfig locale false) words)
      as [tokens|]; cbn [andThen lift] in H; [|discriminate].
    destruct (parseTokens tokens (buildParserLocaleConfig locale false))
      as [r'|] eqn:E; cbn [lift] in H; inversion H; subst.
    apply (parseTokens_sign _ _ E).
  - intros config tokens rest minusWord Et Hm Ho Hp Hi. subst tokens.
    unfold parseTokens. cbn [length Nat.eqb]. rewrite Ho. cbn [bind].
    unfold parseNumberFromTokens. unfold startsWithMinus. rewrite Hm.
    cbn [negb skipn]. rewrite Hp, Hi. cbn [bind].
    eexists. split; [reflexivity|]. split; reflexivity.
  - apply parseCurrencyTokens_sign.
Qed.

Lemma isNegative_is_value_below_zero_witness :
  (exists r, parse (instanceOf english) (text "minus zero") noOptions = Returns r
             /\ isNegative r = false)
  /\ (exists r, parseTokens [js "minus"; js "zero"]
                  (buildParserLocaleConfig english false) = Some r
                /\ (res_value r == 0)%Q /\ isNegative r = false)
  /\ (exists r, parseCurrencyTokens [js "minus"; js "zero"; js "dollars"]
                  (buildParserLocaleConfig english false) currencyOn = Some r
                /\ isNegative r = true).
Proof.
  destruct isNegative_is_value_below_zero as (H1 & H2 & H3).
  split; [|split].
  - eexists. split; [vm_compute; reflexivity|].
    rewrite (H1 (instanceOf english) (text "minus zero") noOptions);
      vm_compute; reflexivity.
  - apply (H2 (buildParserLocaleConfig english false) _ [js "zero"] (js "minus"));
      vm_compute; reflexivity.
  - eexists. split; [vm_compute; reflexivity|].
    rewrite (H3 (buildParserLocaleConfig english false)
               [js "minus"; js "zero"; js "dollars"] currencyOn);
      vm_compute; reflexivity.
Defined.


(** ** Currency *)

Lemma findCurrencyUnitLoop_spec (tokens : list jsstring) (stop : nat)
  (single : list jsstring) (multi : list (list jsstring)) :
  forall count i,
  match findCurrencyUnitLoop count i tokens stop single multi with
  | Some m =>
      i <= startIndex m < i + count
      /\ unitAt tokens stop single multi (startIndex m) (endIndex m - startIndex m)
      /\ forall j len, i <= j < startIndex m ->
                       ~ unitAt tokens stop single multi j len
  | None =>
      forall j len, i <= j < i + count -> ~ unitAt tokens stop single multi j len
  end.
Proof.
  induction count as [|count IH]; intros i; simpl.
  - intros j len Hj. lia.
  - destruct (find (matchesAt tokens i stop) multi) as [parts|] eqn:Ef.
    + apply find_some in Ef. destruct Ef as [Hin Hm]. simpl.
      split; [lia|]. split.
      * left. exists parts. repeat split; auto. lia.
      * intros j len Hj. lia.
    + destruct (match nth_error tokens i with
                | Some t => includes single t
                | None => false
                end) eqn:Es.
      * simpl. split; [lia|]. split.
        -- right. destruct (nth_error tokens i) as [t|] eqn:Et; [|discriminate].
           exists t. repeat split; auto. lia.
        -- intros j len Hj. lia.
      * assert (Hno : forall len, ~ unitAt tokens stop single multi i len).
        { intros len [(parts & Hin & Hm & _)|(t & Ht & Hi & _)].
          - rewrite (find_none _ _ Ef _ Hin) in Hm. discriminate.
          - rewrite Ht in Es. congruence. }
        specialize (IH (S i)).
        destruct (findCurrencyUnitLoop count (S i) tokens stop single multi) as [m|].
        -- destruct IH as (I1 & I2 & I3). split; [lia|]. split; [assumption|].
           intros j len Hj. destruct (Nat.eq_dec j i) as [->|Hne]; [apply Hno|].
           apply I3. lia.
        -- intros j len Hj. destruct (Nat.eq_dec j i) as [->|Hne]; [apply Hno|].
           apply IH. lia.
Qed.

(** C5 (as amended).  For every currency-mode parse of a non-empty token
    sequence: a leading negation token and a trailing "only" token are left
    out of the range; the main amount is the integer value of the tokens
    before the main-unit match and the fractional amount that of the tokens
    from the end of the main-unit match (one conjunction token skipped) to
    the start of the fractional-unit match; with no unit at all the whole
    range is the main amount.  The amounts are exact when the number words
    are not negative and the amounts are safe integers.  The value is
    main + fractional / 100 in double arithmetic, the division and the
    addition each rounding to the nearest double, negated after a negation
    token; it is the main amount itself when there is no fractional amount.
    The precision is 2 and a precision passed with the call changes
    nothing.  A unit match is the first position of the range at which a
    multi-word or single-word unit stands.  For example "fifty two dollars
    and thirty cents" has the value 52.3 (the double nearest to it), main
    amount 52 and fractional amount 30, and "two dollars and twenty eight
    cents" has the value 2.2800000000000002, the double after the one
    nearest to 2.28. *)
Theorem currency_combination :
  (forall d cs tokens options,
     tokens <> [] ->
     exists main fractional,
       match findUnitMatches tokens
               (if startsWithMinus (buildParserLocaleConfig d cs) tokens
                then 1 else 0)
               (tokenEndOf (buildParserLocaleConfig d cs) tokens
                  (if startsWithMinus (buildParserLocaleConfig d cs) tokens
                   then 1 else 0))
               (buildParserLocaleConfig d cs) options with
       | (None, None) =>
           ParsesInteger (buildParserLocaleConfig d cs)
             (slice tokens
                (if startsWithMinus (buildParserLocaleConfig d cs) tokens
                 then 1 else 0)
                (tokenEndOf (buildParserLocaleConfig d cs) tokens
                   (if startsWithMinus (buildParserLocaleConfig d cs) tokens
                    then 1 else 0))) main
           /\ fractional = 0%Z
       | (Some m, None) =>
           ParsesInteger (buildParserLocaleConfig d cs)
             (slice tokens
                (if startsWithMinus (buildParserLocaleConfig d cs) tokens
                 then 1 else 0) (startIndex m)) main
           /\ fractional = 0%Z
       | (None, Some f) =>
           main = 0%Z
           /\ ParsesInteger (buildParserLocaleConfig d cs)
                (slice tokens
                   (if startsWithMinus (buildParserLocaleConfig d cs) tokens
                    then 1 else 0) (startIndex f)) fractional
       | (Some m, Some f) =>
           ParsesInteger (buildParserLocaleConfig d cs)
             (slice tokens
                (if startsWithMinus (buildParserLocaleConfig d cs) tokens
                 then 1 else 0) (startIndex m)) main
           /\ ParsesInteger (buildParserLocaleConfig d cs)
                (slice tokens
                   (fractionalStartOf (buildParserLocaleConfig d cs) tokens m
                      (tokenEndOf (buildParserLocaleConfig d cs) tokens
                         (if startsWithMinus (buildParserLocaleConfig d cs) tokens
                          then 1 else 0)))
                   (startIndex f)) fractional
       end
       /\ (wordsNonNegative (buildParserLocaleConfig d cs) = true ->
           safeInteger main -> safeInteger fractional ->
           parseCurrencyTokens tokens (buildParserLocaleConfig d cs) options
           = Some (currencyResult
                     (startsWithMinus (buildParserLocaleConfig d cs) tokens)
                     main fractional)))
  /\ (forall isNeg main fractional,
        res_value (currencyResult isNeg main fractional)
        = (if isNeg
           then (- jsAdd (inject_Z main) (jsDiv (inject_Z fractional) 100))%Q
           else jsAdd (inject_Z main) (jsDiv (inject_Z fractional) 100))
        /\ (safeInteger main ->
            res_value (currencyResult false main 0) = inject_Z main))
  /\ (forall tokens config options p,
        parseCurrencyTokens tokens config
          {| opt_currency := opt_currency options;
             opt_currencyOptions := opt_currencyOptions options;
             opt_fractionalPrecision := p |}
        = parseCurrencyTokens tokens config options)
  /\ (forall tokens start stop single multi m,
        findCurrencyUnitInRange tokens start stop single multi = Some m ->
        start <= startIndex m < stop
        /\ unitAt tokens stop single multi (startIndex m)
             (endIndex m - startIndex m)
        /\ forall j len, start <= j < startIndex m ->
                         ~ unitAt tokens stop single multi j len)
  /\ (exists r,
        parse (instanceOf english) (text "fifty two dollars and thirty cents")
          currencyOn = Returns r
        /\ res_value r = fl (523 # 10)
        /\ currencyInfo r = Some {| mainAmount := 52; fractionalAmount := 30 |})
  /\ (exists r,
        parse (instanceOf english) (text "two dollars and twenty eight cents")
          currencyOn = Returns r
        /\ res_value r = (2567051787601183 # 1125899906842624)%Q
        /\ fl (228 # 100) = (5134103575202365 # 2251799813685248)%Q
        /\ ~ (res_value r == fl (228 # 100))%Q).
Proof.
  split; [|split; [|split; [|split; [|split]]]].
  - intros d cs tokens options Hne.
    set (config := buildParserLocaleConfig d cs).
    unfold parseCurrencyTokens.
    destruct (length tokens =? 0) eqn:E0.
    { apply Nat.eqb_eq in E0. destruct tokens; [congruence | discriminate]. }
    cbv zeta.
    destruct (findUnitMatches tokens _ _ config options) as [[m|] [f|]].
    + destruct (compiled_range_total d cs tokens
                  (if startsWithMinus config tokens then 1 else 0) (startIndex m))
        as (main & E1 & H1).
      destruct (compiled_range_total d cs tokens
                  (fractionalStartOf config tokens m
                     (tokenEndOf config tokens
                        (if startsWithMinus config tokens then 1 else 0)))
                  (startIndex f))
        as (fr & E2 & H2).
      fold config in E1, E2, H1, H2. rewrite E1. cbn [bind]. rewrite E2. cbn [bind].
      exists main, fr. auto.
    + destruct (compiled_range_total d cs tokens
                  (if startsWithMinus config tokens then 1 else 0) (startIndex m))
        as (main & E1 & H1).
      fold config in E1, H1. rewrite E1. cbn [bind].
      exists main, 0%Z. auto.
    + destruct (compiled_range_total d cs tokens
                  (if startsWithMinus config tokens then 1 else 0) (startIndex f))
        as (fr & E1 & H1).
      fold config in E1, H1. rewrite E1. cbn [bind].
      exists 0%Z, fr. auto.
    + destruct (compiled_range_total d cs tokens
                  (if startsWithMinus config tokens then 1 else 0)
                  (tokenEndOf config tokens
                     (if startsWithMinus config tokens then 1 else 0)))
        as (main & E1 & H1).
      fold config in E1, H1. rewrite E1. cbn [bind].
      exists main, 0%Z. auto.
  - intros isNeg main fractional. split; [reflexivity|].
    intros Hs. cbn [res_value currencyResult]. apply currencyValue_whole, Hs.
  - intros tokens config options p. reflexivity.
  - intros tokens start stop single multi m H.
    pose proof (findCurrencyUnitLoop_spec tokens stop single multi
                  (stop - start) start) as Hs.
    unfold findCurrencyUnitInRange in H. rewrite H in Hs.
    destruct Hs as (H1 & H2 & H3). split; [lia|]. split; assumption.
  - eexists. split; [vm_compute; reflexivity|].
    split; [vm_compute; reflexivity | reflexivity].
  - eexists. split; [vm_compute; reflexivity|].
    split; [reflexivity|]. split; [vm_compute; reflexivity|].
    vm_compute. discriminate.
Qed.

Lemma currency_combination_witness :
  parseCurrencyTokens
    [js "minus"; js "two"; js "dollars"; js "and"; js "five"; js "cents"; js "only"]
    (buildParserLocaleConfig english false) currencyOn
  = Some (currencyResult true 2 5).
Proof.
  destruct currency_combination as (H & _).
  destruct (H english false
              [js "minus"; js "two"; js "dollars"; js "and"; js "five"; js "cents";
               js "only"] currencyOn)
    as (main & fr & Hseg & E).
  - discriminate.
  - assert (Em : main = 2%Z /\ fr = 5%Z).
    { pose proof (compiled_range_total english false
                    [js "minus"; js "two"; js "dollars"; js "and"; js "five";
                     js "cents"; js "only"] 1 2) as (m' & E1 & H1).
      pose proof (compiled_range_total english false
                    [js "minus"; js "two"; js "dollars"; js "and"; js "five";
                     js "cents"; js "only"] 4 5) as (f' & E2 & H2).
      vm_compute in E1. vm_compute in E2.
      injection E1 as <-. injection E2 as <-.
      replace (findUnitMatches _ _ _ _ _) with
        (Some {| startIndex := 2; endIndex := 3 |},
         Some {| startIndex := 5; endIndex := 6 |}) in Hseg
        by (vm_compute; reflexivity).
      destruct Hseg as [Hm Hf].
      replace (slice _ _ _) with [js "two"] in H1 by (vm_compute; reflexivity).
      replace (slice _ _ _) with [js "two"] in Hm by (vm_compute; reflexivity).
      replace (slice _ _ _) with [js "five"] in H2 by (vm_compute; reflexivity).
      replace (slice _ _ _) with [js "five"] in Hf by (vm_compute; reflexivity).
      split; [apply (IntegerValue_functional Hm H1)
             |apply (IntegerValue_functional Hf H2)]. }
    destruct Em as [-> ->].
    replace (startsWithMinus (buildParserLocaleConfig english false)
               [js "minus"; js "two"; js "dollars"; js "and"; js "five";
                js "cents"; js "only"]) with true in E
      by (vm_compute; reflexivity).
    apply E.
    + vm_compute. reflexivity.
    + unfold safeInteger, MAX_SAFE_INTEGER. lia.
    + unfold safeInteger, MAX_SAFE_INTEGER. lia.
Defined.

(** C5 (as stated) fails: a call that asks for precision 3 still gets
    main + fractional / 100; and the sum is one of doubles, so that "two
    dollars and twenty eight cents" is not the number 2.28 but the double
    after it. *)
Lemma currency_precision_as_stated_fails :
  (exists r,
     parse (instanceOf english) (text "one dollar and five cents")
       currencyPrecision3 = Returns r
     /\ currencyInfo r = Some {| mainAmount := 1; fractionalAmount := 5 |}
     /\ res_value r = fl (105 # 100)
     /\ valueAtPrecision currencyPrecision3 1 5 = fl (1005 # 1000)
     /\ ~ (res_value r == valueAtPrecision currencyPrecision3 1 5)%Q)
  /\ (exists r,
        parse (instanceOf english) (text "two dollars and twenty eight cents")
          currencyOn = Returns r
        /\ currencyInfo r = Some {| mainAmount := 2; fractionalAmount := 28 |}
        /\ ~ (res_value r == fl (228 # 100))%Q
        /\ ~ (res_value r == 228 # 100)%Q).
Proof.
  split.
  - eexists. split; [vm_compute; reflexivity|].
    split; [reflexivity|]. split; [vm_compute; reflexivity|].
    split; [vm_compute; reflexivity|].
    vm_compute. discriminate.
  - eexists. split; [vm_compute; reflexivity|].
    split; [reflexivity|]. split; vm_compute; discriminate.
Qed.


(** ** Decimals *)

Lemma digitValues_digits (config : ParserLocaleConfig) (tokens : list jsstring) :
  Forall isDigit (digitValues config tokens).
Proof.
  unfold digitValues. induction tokens as [|t r IH]; simpl; [constructor|].
  apply Forall_app. split; [|assumption].
  destruct (map_get (wordToNumber config) t) as [d|]; [|constructor].
  destruct ((0 <=? d)%Z && (d <=? 9)%Z) eqn:E; [|constructor].
  apply andb_true_iff in E. destruct E as [E1 E2].
  apply Z.leb_le in E1. apply Z.leb_le in E2.
  constructor; [split; assumption | constructor].
Qed.

Lemma decimalStr_fold (config : ParserLocaleConfig) (tokens : list jsstring) :
  forall str,
  fold_left
    (fun str token =>
       match map_get (wordToNumber config) token with
       | Some digit =>
           if (0 <=? digit)%Z && (digit <=? 9)%Z
           then str ++ [digitChar digit] else str
       | None => str
       end)
    tokens str
  = str ++ map digitChar (digitValues config tokens).
Proof.
  unfold digitValues.
  induction tokens as [|t r IH]; intros str; simpl.
  - rewrite app_nil_r. reflexivity.
  - rewrite IH, map_app.
    destruct (map_get (wordToNumber config) t) as [d|]; simpl; [|reflexivity].
    destruct ((0 <=? d)%Z && (d <=? 9)%Z); simpl; [|reflexivity].
    rewrite <- app_assoc. reflexivity.
Qed.

Lemma digitChar_back (d : Z) : isDigit d -> (Z.of_N (digitChar d) - 48 = d)%Z.
Proof. intros [H1 H2]. unfold digitChar. lia. Qed.

Lemma parseInt_fold (ds : list Z) : Forall isDigit ds -> forall a,
  fold_left (fun acc c => (acc * 10 + (Z.of_N c - 48))%Z) (map digitChar ds) a
  = fold_left (fun acc d => (acc * 10 + d)%Z) ds a.
Proof.
  induction 1 as [|d r Hd Hr IH]; intros a; simpl; [reflexivity|].
  rewrite (digitChar_back Hd). apply IH.
Qed.

Lemma pow10_S (n : nat) : (pow10 (S n) == 10 * pow10 n)%Q.
Proof.
  unfold pow10. rewrite Nat2Z.inj_succ, Z.pow_succ_r by lia.
  rewrite inject_Z_mult. reflexivity.
Qed.

Lemma pow10_nonzero (n : nat) : ~ (pow10 n == 0)%Q.
Proof.
  unfold pow10. intros H. unfold Qeq in H. simpl in H.
  assert (0 < 10 ^ Z.of_nat n)%Z by (apply Z.pow_pos_nonneg; lia). lia.
Qed.

Lemma horner_fraction (ds : list Z) : forall a,
  (inject_Z (fold_left (fun acc d => (acc * 10 + d)%Z) ds a) / pow10 (length ds)
   == inject_Z a + fractionOfDigits ds)%Q.
Proof.
  induction ds as [|d r IH]; intros a.
  - simpl. unfold pow10. simpl. field.
  - cbn [fold_left length fractionOfDigits].
    pose proof (@pow10_nonzero (length r)) as Hnz.
    rewrite pow10_S.
    setoid_replace
      (inject_Z (fold_left (fun acc d0 => (acc * 10 + d0)%Z) r (a * 10 + d)%Z)
       / (10 * pow10 (length r)))%Q
      with ((inject_Z (fold_left (fun acc d0 => (acc * 10 + d0)%Z) r (a * 10 + d)%Z)
             / pow10 (length r)) / 10)%Q
      by (field; assumption).
    rewrite IH, inject_Z_plus, inject_Z_mult. field.
Qed.

Lemma allDigits_length (config : ParserLocaleConfig) (tokens : list jsstring) :
  isAllSingleDigits tokens config = true ->
  length (digitValues config tokens) = length tokens.
Proof.
  unfold isAllSingleDigits, digitValues.
  induction tokens as [|t r IH]; simpl; [reflexivity|].
  intros H. apply andb_true_iff in H. destruct H as [H1 H2].
  rewrite length_app, (IH H2).
  destruct (map_get (wordToNumber config) t) as [d|]; [|discriminate].
  apply negb_true_iff, orb_false_iff in H1. destruct H1 as [Ha Hb].
  apply Z.ltb_ge in Ha. rewrite Z.gtb_ltb in Hb. apply Z.ltb_ge in Hb.
  replace ((0 <=? d)%Z && (d <=? 9)%Z) with true
    by (symmetry; apply andb_true_iff; split; apply Z.leb_le; lia).
  reflexivity.
Qed.

Lemma digitsLoop_spec : forall fuel v,
  (0 < v)%Z -> (v < 10 ^ Z.of_nat (S fuel))%Z ->
  (10 ^ (Z.of_nat (digitsLoop fuel v) - 1) <= v < 10 ^ Z.of_nat (digitsLoop fuel v))%Z.
Proof.
  induction fuel as [|fuel IH]; intros v Hpos Hlt.
  - simpl in *. lia.
  - cbn [digitsLoop]. destruct (v <? 10)%Z eqn:E.
    + apply Z.ltb_lt in E. simpl. lia.
    + apply Z.ltb_ge in E.
      assert (Hq : (0 < v / 10)%Z) by (apply Z.div_str_pos; lia).
      assert (Hl : (v / 10 < 10 ^ Z.of_nat (S fuel))%Z).
      { apply Z.div_lt_upper_bound; [lia|].
        rewrite <- Z.pow_succ_r by lia. rewrite <- Nat2Z.inj_succ. assumption. }
      specialize (IH _ Hq Hl).
      set (p := digitsLoop fuel (v / 10)) in *.
      rewrite Nat2Z.inj_succ.
      replace (Z.succ (Z.of_nat p) - 1)%Z with (Z.succ (Z.of_nat p - 1))%Z by lia.
      assert (Hp : (1 <= Z.of_nat p)%Z).
      { destruct p; [|lia]. simpl in IH. lia. }
      rewrite !Z.pow_succ_r by lia.
      pose proof (Z.div_mod v 10). pose proof (Z.mod_pos_bound v 10). lia.
Qed.

Lemma log10Places_spec (v : Z) :
  (0 < v)%Z ->
  exists p, log10Places v = Some p
            /\ (10 ^ (Z.of_nat p - 1) <= v < 10 ^ Z.of_nat p)%Z.
Proof.
  intros Hpos. unfold log10Places.
  replace (v <? 0)%Z with false by (symmetry; apply Z.ltb_ge; lia).
  eexists. split; [reflexivity|].
  apply digitsLoop_spec; [assumption|].
  pose proof (Z.log2_spec v Hpos) as [_ Hu].
  assert (H0 : (0 <= Z.log2 v)%Z) by apply Z.log2_nonneg.
  rewrite Nat2Z.inj_succ, Z2Nat.id by assumption.
  eapply Z.lt_le_trans; [exact Hu|].
  apply Z.pow_le_mono_l. lia.
Qed.

Lemma digitWords_iff (config : ParserLocaleConfig) (tokens : list jsstring) :
  Forall (digitWord config) tokens <-> isAllSingleDigits tokens config = true.
Proof.
  unfold isAllSingleDigits. rewrite forallb_forall, Forall_forall.
  split; intros H t Ht; specialize (H t Ht).
  - destruct H as (d & -> & H0 & H9).
    apply negb_true_iff, orb_false_iff. split; [apply Z.ltb_ge; lia|].
    rewrite Z.gtb_ltb. apply Z.ltb_ge. lia.
  - unfold digitWord.
    destruct (map_get (wordToNumber config) t) as [d|]; [|discriminate].
    apply negb_true_iff, orb_false_iff in H. destruct H as [Ha Hb].
    apply Z.ltb_ge in Ha. rewrite Z.gtb_ltb in Hb. apply Z.ltb_ge in Hb.
    exists d. split; [reflexivity|]. split; lia.
Qed.

(** C4 (as amended).  A non-empty decimal token sequence whose first token
    maps to 0, or all of whose tokens map to a single digit, is read digit
    by digit: the place count is the number of digit tokens (all the tokens
    in the second case) and, up to 15 digits, value / 10^places is the
    fraction 0.d1 d2 ... dn of those digits, leading zeros kept.  Any other
    sequence is parsed as an integer phrase; a value of 0 gets 0 places and
    a positive value below 10^14 gets as place count the number of its
    decimal digits, floor(log10 value) + 1 (no number word being negative).
    The number is integerPart + value / 10^places in double arithmetic.  So
    "zero point zero six three" is 0.063 and "point sixty three" is 0.63,
    each the double nearest to the fraction. *)
Theorem decimal_divergence :
  (forall config tokens,
     (exists first rest, tokens = first :: rest
                         /\ map_get (wordToNumber config) first = Some 0%Z)
     \/ (tokens <> [] /\ Forall (digitWord config) tokens) ->
     length (digitValues config tokens) <= 15 ->
     exists v p,
       parseDecimalTokens tokens config
       = Some {| dec_value := v; dec_places := Some p |}
       /\ p = length (digitValues config tokens)
       /\ (inject_Z v / pow10 p == fractionOfDigits (digitValues config tokens))%Q
       /\ (Forall (digitWord config) tokens -> p = length tokens))
  /\ (forall d cs tokens first rest,
        tokens = first :: rest ->
        map_get (wordToNumber (buildParserLocaleConfig d cs)) first <> Some 0%Z ->
        ~ Forall (digitWord (buildParserLocaleConfig d cs)) tokens ->
        wordsNonNegative (buildParserLocaleConfig d cs) = true ->
        exists v,
          ParsesInteger (buildParserLocaleConfig d cs) tokens v
          /\ (0 <= v)%Z
          /\ ((v < 10 ^ 14)%Z ->
              exists p,
                parseDecimalTokens tokens (buildParserLocaleConfig d cs)
                = Some {| dec_value := v; dec_places := Some p |}
                /\ (v = 0%Z -> p = 0)
                /\ ((0 < v)%Z ->
                    (10 ^ (Z.of_nat p - 1) <= v < 10 ^ Z.of_nat p)%Z)))
  /\ (forall integerPart v p,
        v <> 0%Z -> 0 < p <= 15 ->
        combineIntegerAndDecimal integerPart v p
        = fl (inject_Z integerPart + fl (inject_Z v / pow10 p))%Q)
  /\ convert (instanceOf english) (text "zero point zero six three") noOptions
     = Returns (fl (63 # 1000))
  /\ convert (instanceOf english) (text "point sixty three") noOptions
     = Returns (fl (63 # 100)).
Proof.
  split; [|split; [|split; [|split]]].
  - intros config tokens Hcase Hlen.
    assert (Hbranch : exists first rest, tokens = first :: rest
              /\ (match map_get (wordToNumber config) first with
                  | Some d => (d =? 0)%Z
                  | None => false
                  end || isAllSingleDigits tokens config) = true).
    { destruct Hcase as [(first & rest & Et & H0)|(Hne & Ha)].
      - exists first, rest. split; [assumption|]. rewrite H0. reflexivity.
      - destruct tokens as [|first rest]; [congruence|].
        exists first, rest. split; [reflexivity|].
        apply digitWords_iff in Ha. rewrite Ha. apply orb_true_r. }
    destruct Hbranch as (first & rest & Et & Hb). subst tokens.
    unfold parseDecimalTokens. rewrite Hb.
    rewrite decimalStr_fold. cbn [app]. rewrite length_map.
    pose proof (digitValues_digits config (first :: rest)) as Hd.
    set (ds := digitValues config (first :: rest)) in *.
    eexists. eexists. split; [reflexivity|]. split; [reflexivity|]. split.
    + unfold parseIntDigits. destruct ds as [|d r] eqn:Eds.
      * simpl. unfold pow10. simpl. reflexivity.
      * rewrite <- Eds in *.
        assert (Em : map digitChar ds <> [])
          by (rewrite Eds; simpl; discriminate).
        destruct (map digitChar ds) as [|c cs] eqn:Emap; [congruence|].
        rewrite <- Emap, (parseInt_fold Hd).
        rewrite horner_fraction. simpl (inject_Z 0). field.
    + intros Ha. unfold ds. apply allDigits_length.
      apply digitWords_iff. assumption.
  - intros d cs tokens first rest Et Hz Ha Hn. subst tokens.
    set (config := buildParserLocaleConfig d cs) in *.
    destruct (compiled_parse_total d cs (first :: rest)) as (v & Ev & Hv).
    fold config in Ev, Hv. exists v. split; [exact Hv|].
    assert (H0 : (0 <= v)%Z)
      by (apply (IntegerValue_nonneg (compiled_scalesPositive d cs) Hn Hv)).
    split; [exact H0|]. intros _.
    assert (Hd : parseDecimalTokens (first :: rest) config
                 = Some {| dec_value := v;
                           dec_places := if (v =? 0)%Z then Some 0
                                         else log10Places v |}).
    { unfold parseDecimalTokens.
      assert (Hf : match map_get (wordToNumber config) first with
                   | Some d0 => (d0 =? 0)%Z
                   | None => false
                   end = false).
      { destruct (map_get (wordToNumber config) first) as [d0|]; [|reflexivity].
        apply Z.eqb_neq. intro. subst. congruence. }
      assert (Hs : isAllSingleDigits (first :: rest) config = false).
      { destruct (isAllSingleDigits (first :: rest) config) eqn:E; [|reflexivity].
        apply digitWords_iff in E. contradiction. }
      rewrite Hf, Hs. cbn [orb]. rewrite Ev. reflexivity. }
    rewrite Hd. destruct (v =? 0)%Z eqn:E0.
    + apply Z.eqb_eq in E0. exists 0. split; [reflexivity|]. split; [reflexivity|].
      lia.
    + apply Z.eqb_neq in E0.
      destruct (@log10Places_spec v ltac:(lia)) as (p & Ep & Hp).
      exists p. rewrite Ep. split; [reflexivity|]. split; [lia|].
      intros _. exact Hp.
  - intros integerPart v p Hv Hp. unfold combineIntegerAndDecimal.
    replace (v =? 0)%Z with false by (symmetry; apply Z.eqb_neq; exact Hv).
    replace (p =? 0) with false by (symmetry; apply Nat.eqb_neq; lia).
    cbn [orb]. unfold jsAdd, jsDiv. rewrite mathPow10_exact by lia. reflexivity.
  - vm_compute. reflexivity.
  - vm_compute. reflexivity.
Qed.

Lemma decimal_divergence_witness :
  (exists v p,
     parseDecimalTokens [js "zero"; js "six"; js "three"]
       (buildParserLocaleConfig english false)
     = Some {| dec_value := v; dec_places := Some p |} /\ p = 3)
  /\ (exists p,
        parseDecimalTokens [js "sixty"; js "three"]
          (buildParserLocaleConfig english false)
        = Some {| dec_value := 63; dec_places := Some p |}
        /\ (10 ^ (Z.of_nat p - 1) <= 63 < 10 ^ Z.of_nat p)%Z).
Proof.
  destruct decimal_divergence as (H1 & H2 & _).
  split.
  - destruct (H1 (buildParserLocaleConfig english false)
                [js "zero"; js "six"; js "three"])
      as (v & p & E & Hp & _).
    { left. exists (js "zero"), [js "six"; js "three"].
      split; [reflexivity | vm_compute; reflexivity]. }
    { vm_compute. lia. }
    exists v, p. split; [exact E|]. rewrite Hp. vm_compute. reflexivity.
  - destruct (H2 english false [js "sixty"; js "three"] (js "sixty") [js "three"])
      as (v & Hv & H0 & Hd).
    + reflexivity.
    + vm_compute. discriminate.
    + intros H. inversion H as [|? ? (d & Hg & _ & H9) _]; subst.
      vm_compute in Hg. inversion Hg; subst. lia.
    + vm_compute. reflexivity.
    + assert (Ev : v = 63%Z).
      { pose proof (parse_is Hv) as E. vm_compute in E. inversion E. reflexivity. }
      subst v. destruct Hd as (p & E & _ & Hp); [lia|].
      exists p. split; [exact E|]. apply Hp. lia.
Defined.

(** C4 (as stated) fails on an integer phrase of value 0: the place count
    is 0 and the fraction is dropped, where floor(log10 0) + 1 is no
    number; "one point foo" is 1. *)
Lemma decimal_places_as_stated_fails :
  parseDecimalTokens [js "foo"] (buildParserLocaleConfig english false)
  = Some {| dec_value := 0; dec_places := Some 0 |}
  /\ ParsesInteger (buildParserLocaleConfig english false) [js "foo"] 0
  /\ claimedPlaces 0 = None
  /\ convert (instanceOf english) (text "one point foo") noOptions
     = Returns 1%Q.
Proof.
  split; [vm_compute; reflexivity|]. split.
  - apply parse_value. vm_compute. reflexivity.
  - split; vm_compute; reflexivity.
Qed.


(* ================================================================== *)
(** * The facade: invalid input and termination *)

Lemma dropWhile_length (p : N -> bool) (s : jsstring) :
  length (dropWhile p s) <= length s.
Proof.
  induction s as [|c r IH]; simpl; [lia|]. destruct (p c); simpl; lia.
Qed.

Lemma dropWhile_head (p : N -> bool) (s : jsstring) (c : N) (r : jsstring) :
  dropWhile p s = c :: r -> p c = false.
Proof.
  induction s as [|x s IH]; simpl; [discriminate|].
  destruct (p x) eqn:E; [assumption|]. intros H. inversion H; subst. assumption.
Qed.

Lemma skipn_shorter (A : Type) (n : nat) (l : list A) :
  0 < n -> l <> [] -> length (skipn n l) < length l.
Proof.
  intros Hn Hl. rewrite length_skipn. destruct l; [congruence|]. cbn [length]. lia.
Qed.

Lemma tokenizeWithPhrases_loop_total (wordMap : WordNumberMap)
  (phrases : list jsstring) :
  forall fuel rest tokens,
  length rest < fuel ->
  exists result,
    tokenizeWithPhrases_loop fuel wordMap phrases rest tokens = Some result.
Proof.
  induction fuel as [|fuel IH]; intros rest tokens Hf; [lia|].
  cbn [tokenizeWithPhrases_loop].
  pose proof (dropWhile_length isAsciiSpace rest) as Hd.
  destruct (dropWhile isAsciiSpace rest) as [|c r] eqn:E.
  - eexists. reflexivity.
  - pose proof (dropWhile_head _ _ E) as Hc.
    destruct (find (phraseMatches (c :: r)) phrases) as [phrase|] eqn:Ef.
    + apply find_some in Ef. destruct Ef as [_ Hm].
      apply IH. destruct phrase as [|x phrase].
      * unfold phraseMatches in Hm. simpl in Hm. congruence.
      * pose proof (@skipn_shorter _ (length (x :: phrase)) (c :: r)) as Hs.
        simpl in Hs, Hd |- *. assert (length (skipn (length phrase) r) <= length r)
          by (rewrite length_skipn; lia). lia.
    + assert (Hw : length (skipn (length (takeWord (c :: r))) (c :: r)) < fuel).
      { simpl. rewrite Hc. simpl.
        assert (length (skipn (length (takeWord r)) r) <= length r)
          by (rewrite length_skipn; lia).
        simpl in Hd. lia. }
      destruct (map_has wordMap (takeWord (c :: r))); [apply IH; assumption|].
      destruct (includesHyphen (takeWord (c :: r))); apply IH; assumption.
Qed.

Lemma tokenize_total (input : jsstring) (caseSens : bool) (wordMap : WordNumberMap)
  (phrases : list jsstring) :
  exists result,
    tokenize input {| tk_caseSensitive := Some caseSens;
                      tk_wordMap := Some wordMap;
                      tk_sortedPhrases := Some phrases |} = Some result.
Proof.
  unfold tokenize. destruct input as [|c s]; [eexists; reflexivity|].
  cbn [tk_caseSensitive tk_wordMap tk_sortedPhrases].
  unfold tokenizeWithPhrases. apply tokenizeWithPhrases_loop_total. lia.
Qed.

Lemma startsWith_nil (s : jsstring) : startsWith s [] = true.
Proof. destruct s; reflexivity. Qed.

Lemma tokenizeConcatenated_loop_total (words : list jsstring) :
  ~ In [] words ->
  forall fuel remaining tokens,
  length remaining < fuel ->
  exists result,
    tokenizeConcatenated_loop fuel words remaining tokens = Some result.
Proof.
  intros Hne. induction fuel as [|fuel IH]; intros remaining tokens Hf; [lia|].
  cbn [tokenizeConcatenated_loop].
  destruct remaining as [|c tl]; [eexists; reflexivity|].
  destruct (find (startsWith (c :: tl)) words) as [word|] eqn:Ef.
  - apply find_some in Ef. destruct Ef as [Hin _].
    apply IH. destruct word as [|x word]; [contradiction|].
    simpl. assert (length (skipn (length word) tl) <= length tl)
      by (rewrite length_skipn; lia).
    simpl in Hf. lia.
  - apply IH. simpl in Hf. lia.
Qed.

Lemma sort_insert_In (A : Type) (cmp : A -> A -> Z) (x y : A) (l : list A) :
  In y (sort_insert cmp x l) -> y = x \/ In y l.
Proof.
  induction l as [|z l IH]; simpl.
  - intros [H|[]]; auto.
  - destruct (cmp z x <=? 0)%Z; simpl.
    + intros [H|H]; [auto|]. apply IH in H. tauto.
    + intros [H|[H|H]]; auto.
Qed.

Lemma sort_In (A : Type) (cmp : A -> A -> Z) (l : list A) (y : A) :
  In y (sort cmp l) -> In y l.
Proof.
  unfold sort.
  assert (H : forall acc, In y (fold_left (fun acc x => sort_insert cmp x acc) l acc)
                          -> In y acc \/ In y l).
  { induction l as [|x l IH]; intros acc Hin; simpl in *; [auto|].
    apply IH in Hin. destruct Hin as [Hin|Hin]; [|auto].
    apply sort_insert_In in Hin. destruct Hin as [->|Hin]; auto. }
  intros Hin. apply H in Hin. destruct Hin as [[]|Hin]. assumption.
Qed.

Lemma getTokensWith_total (d : OriginalLocaleConfig) (words : jsvalue) :
  wordsNonEmpty (buildParserLocaleConfig d false) ->
  exists tokens,
    getTokensWith (buildParserLocaleConfig d false) words = Some tokens.
Proof.
  intros Hw. unfold getTokensWith.
  destruct (trimMode (buildParserLocaleConfig d false)) eqn:Et.
  - unfold tokenizeConcatenated.
    destruct (cleanInput words) as [|c s] eqn:Ec; [eexists; reflexivity|].
    apply tokenizeConcatenated_loop_total; [|lia].
    cbn [sortedConcatenatedWords buildParserLocaleConfig].
    intros Hin. apply sort_In in Hin. apply in_app_or in Hin.
    destruct Hin as [Hin|Hin].
    + apply (Hw Et). exact Hin.
    + apply filter_In in Hin. destruct Hin as [_ Hin]. discriminate.
  - apply tokenize_total.
Qed.

Lemma getParserConfig_set (self : Instance) (d : OriginalLocaleConfig) :
  localeClass self = Some d ->
  getParserConfig self = Returns (buildParserLocaleConfig d false).
Proof.
  intros H. unfold getParserConfig, getLocaleClass. rewrite H. reflexivity.
Qed.

Lemma getParserConfig_unset (self : Instance) :
  localeClass self = None -> getParserConfig self = Throws NoLocaleSet.
Proof.
  intros H. unfold getParserConfig, getLocaleClass. rewrite H. reflexivity.
Qed.

Lemma getTokens_set (self : Instance) (d : OriginalLocaleConfig)
  (words : jsvalue) :
  localeClass self = Some d ->
  getTokens self words
  = lift (getTokensWith (buildParserLocaleConfig d false) words).
Proof.
  intros H. unfold getTokens. rewrite (getParserConfig_set self H). reflexivity.
Qed.

Lemma getTokens_total (self : Instance) (d : OriginalLocaleConfig)
  (words : jsvalue) :
  localeClass self = Some d ->
  wordsNonEmpty (buildParserLocaleConfig d false) ->
  exists tokens, getTokens self words = Returns tokens.
Proof.
  intros Hl Hw. rewrite (getTokens_set self words Hl).
  destruct (getTokensWith_total words Hw) as (tokens & E).
  exists tokens. rewrite E. reflexivity.
Qed.

Lemma compiled_decimal_total (d : OriginalLocaleConfig) (cs : bool)
  (tokens : list jsstring) :
  exists r, parseDecimalTokens tokens (buildParserLocaleConfig d cs) = Some r.
Proof.
  unfold parseDecimalTokens. destruct tokens as [|first rest]; [eexists; reflexivity|].
  match goal with |- context [if ?b then _ else _] => destruct b end.
  - eexists. reflexivity.
  - destruct (compiled_parse_total d cs (first :: rest)) as (v & Ev & _).
    rewrite Ev. eexists. reflexivity.
Qed.

Lemma compiled_aroundPoint_total (d : OriginalLocaleConfig) (cs : bool)
  (tokens : list jsstring) (i : nat) :
  exists q, parseAroundPoint tokens i (buildParserLocaleConfig d cs) = Some q.
Proof.
  unfold parseAroundPoint.
  assert (Hi : exists n,
            (if 0 <? length (slice tokens 0 i)
             then parseIntegerTokens (slice tokens 0 i) (buildParserLocaleConfig d cs)
             else Some 0%Z) = Some n).
  { destruct (0 <? length (slice tokens 0 i)); [|eexists; reflexivity].
    destruct (compiled_parse_total d cs (slice tokens 0 i)) as (n & E & _).
    exists n. assumption. }
  destruct Hi as (n & Hi). rewrite Hi. cbn [bind].
  destruct (compiled_decimal_total d cs (skipn (i + 1) tokens)) as (r & Er).
  rewrite Er. cbn [bind].
  destruct (placesPositive (dec_places r)); eexists; reflexivity.
Qed.

Lemma compiled_number_total (d : OriginalLocaleConfig) (cs : bool)
  (tokens : list jsstring) :
  exists q, parseNumberFromTokens tokens (buildParserLocaleConfig d cs) = Some q.
Proof.
  unfold parseNumberFromTokens. destruct tokens as [|t r]; [eexists; reflexivity|].
  destruct (negb (startsWithMinus (buildParserLocaleConfig d cs) (t :: r))).
  - destruct (findPointIndexInRange (t :: r) 0 (length (t :: r))
                (buildParserLocaleConfig d cs)) as [i|].
    + apply compiled_aroundPoint_total.
    + destruct (compiled_parse_total d cs (t :: r)) as (n & E & _).
      rewrite E. eexists. reflexivity.
  - destruct (findPointIndexInRange (skipn 1 (t :: r)) 0 (length (skipn 1 (t :: r)))
                (buildParserLocaleConfig d cs)) as [i|].
    + destruct (compiled_aroundPoint_total d cs (skipn 1 (t :: r)) i) as (q & E).
      rewrite E. eexists. reflexivity.
    + destruct (compiled_parse_total d cs (skipn 1 (t :: r))) as (n & E & _).
      rewrite E. eexists. reflexivity.
Qed.

Lemma compiled_ordinal_total (d : OriginalLocaleConfig) (cs : bool)
  (tokens : list jsstring) :
  exists o, parseOrdinalFromTokens tokens (buildParserLocaleConfig d cs) = Some o.
Proof.
  unfold parseOrdinalFromTokens. destruct tokens as [|t r]; [eexists; reflexivity|].
  repeat match goal with
         | |- context [if ?b then _ else _] => destruct b
         | |- context [match detectOrdinal ?a ?b with _ => _ end] =>
             destruct (detectOrdinal a b)
         | |- exists o, Some _ = Some o => eexists; reflexivity
         | |- context [parseIntegerTokens ?a (buildParserLocaleConfig d cs)] =>
             let n := fresh "n" in let E := fresh "E" in
             destruct (compiled_parse_total d cs a) as (n & E & _);
             rewrite E; cbn [bind]
         end.
Qed.

Lemma compiled_convertTokens_total (d : OriginalLocaleConfig) (cs : bool)
  (tokens : list jsstring) :
  exists q, convertTokens tokens (buildParserLocaleConfig d cs) = Some q.
Proof.
  unfold convertTokens. destruct (length tokens =? 0); [eexists; reflexivity|].
  destruct (compiled_ordinal_total d cs tokens) as ([v|] & E); rewrite E; cbn [bind].
  - eexists. reflexivity.
  - apply compiled_number_total.
Qed.

Lemma compiled_parseTokens_total (d : OriginalLocaleConfig) (cs : bool)
  (tokens : list jsstring) :
  exists r, parseTokens tokens (buildParserLocaleConfig d cs) = Some r.
Proof.
  unfold parseTokens. destruct (length tokens =? 0); [eexists; reflexivity|].
  destruct (compiled_ordinal_total d cs tokens) as ([v|] & E); rewrite E; cbn [bind].
  - eexists. reflexivity.
  - destruct (compiled_number_total d cs tokens) as (q & Eq). rewrite Eq.
    eexists. reflexivity.
Qed.

Lemma compiled_currency_total (d : OriginalLocaleConfig) (cs : bool)
  (tokens : list jsstring) (options : ConverterOptions) :
  exists r, parseCurrencyTokens tokens (buildParserLocaleConfig d cs) options = Some r.
Proof.
  unfold parseCurrencyTokens. destruct (length tokens =? 0); [eexists; reflexivity|].
  cbv zeta.
  destruct (findUnitMatches tokens _ _ (buildParserLocaleConfig d cs) options)
    as [[m|] [f|]];
    repeat match goal with
           | |- context [parseIntegerTokensInRange ?a ?b ?c (buildParserLocaleConfig d cs)] =>
               let n := fresh "n" in let E := fresh "E" in
               destruct (compiled_range_total d cs a b c) as (n & E & _);
               rewrite E; cbn [bind]
           end;
    eexists; reflexivity.
Qed.

Lemma blank_iff (words : jsvalue) : isValidInput words = false <-> blank words.
Proof.
  destruct words as [| | b | z | s]; simpl; try tauto.
  induction s as [|c s IH]; simpl.
  - split; [constructor | reflexivity].
  - rewrite orb_false_iff, negb_false_iff, IH. split.
    + intros [H1 H2]. constructor; assumption.
    + intros H. inversion H; subst. split; assumption.
Qed.


Lemma convert_throws_iff (self : Instance) (words : jsvalue)
  (options : ConverterOptions) (e : error) :
  convert self words options = Throws e <-> throwsWhen self words e.
Proof.
  unfold convert, parseCurrency, throwsWhen. rewrite <- blank_iff.
  destruct (isValidInput words); cbn [negb].
  - destruct (localeClass self) as [d|] eqn:El.
    + split; [|intros [[_ H]|(_ & _ & H)]; discriminate].
      rewrite (getTokens_set self words El), (getParserConfig_set self El).
      destruct (getTokensWith (buildParserLocaleConfig d false) words)
        as [tokens|]; cbn [andThen lift];
        destruct (currencyMode (mergeOptions self options)); try discriminate.
      * destruct (parseCurrencyTokens tokens (buildParserLocaleConfig d false)
                    (mergeOptions self options)); discriminate.
      * destruct (convertTokens tokens (buildParserLocaleConfig d false));
          discriminate.
    + rewrite (getParserConfig_unset self El). cbn [andThen].
      destruct (currencyMode (mergeOptions self options)); split.
      * intros H. inversion H. right. split; [reflexivity|].
        split; [discriminate | reflexivity].
      * intros [[_ H]|(-> & _)]; [discriminate | reflexivity].
      * intros H. inversion H. right. split; [reflexivity|].
        split; [discriminate | reflexivity].
      * intros [[_ H]|(-> & _)]; [discriminate | reflexivity].
  - split.
    + intros H. inversion H. left. auto.
    + intros [[-> _]|(_ & H & _)]; [reflexivity | contradiction H; reflexivity].
Qed.

Lemma parse_throws_iff (self : Instance) (words : jsvalue)
  (options : ConverterOptions) (e : error) :
  parse self words options = Throws e <-> throwsWhen self words e.
Proof.
  unfold parse, parseCurrency, throwsWhen. rewrite <- blank_iff.
  destruct (isValidInput words); cbn [negb].
  - destruct (localeClass self) as [d|] eqn:El.
    + split; [|intros [[_ H]|(_ & _ & H)]; discriminate].
      rewrite (getTokens_set self words El), (getParserConfig_set self El).
      destruct (getTokensWith (buildParserLocaleConfig d false) words)
        as [tokens|]; cbn [andThen lift];
        destruct (currencyMode (mergeOptions self options)); try discriminate.
      * destruct (parseCurrencyTokens tokens (buildParserLocaleConfig d false)
                    (mergeOptions self options)); discriminate.
      * destruct (parseTokens tokens (buildParserLocaleConfig d false));
          discriminate.
    + rewrite (getParserConfig_unset self El). cbn [andThen].
      destruct (currencyMode (mergeOptions self options)); split.
      * intros H. inversion H. right. split; [reflexivity|].
        split; [discriminate | reflexivity].
      * intros [[_ H]|(-> & _)]; [discriminate | reflexivity].
      * intros H. inversion H. right. split; [reflexivity|].
        split; [discriminate | reflexivity].
      * intros [[_ H]|(-> & _)]; [discriminate | reflexivity].
  - split.
    + intros H. inversion H. left. auto.
    + intros [[-> _]|(_ & H & _)]; [reflexivity | contradiction H; reflexivity].
Qed.

Lemma unrecognized_sum (config : ParserLocaleConfig) (tokens : list jsstring) :
  Forall (unrecognized config) tokens ->
  Forall (fun t => scaleNumber config t = None) tokens
  /\ sumTokens config tokens = 0%Z.
Proof.
  intros H. split.
  - apply Forall_forall. intros t Ht. rewrite Forall_forall in H.
    destruct (H _ Ht) as (Hm & _). unfold scaleNumber. rewrite Hm. reflexivity.
  - unfold sumTokens. generalize 0%Z.
    induction H as [|t r (Hm & _) Hr IH]; intros acc; simpl; [reflexivity|].
    rewrite Hm. apply IH.
Qed.

Lemma Forall_filter (A : Type) (P : A -> Prop) (f : A -> bool) (l : list A) :
  Forall P l -> Forall P (filter f l).
Proof.
  intros H. apply Forall_forall. intros x Hx. apply filter_In in Hx.
  rewrite Forall_forall in H. apply H. tauto.
Qed.

Lemma findIndex_none (A : Type) (p : A -> bool) (l : list A) :
  Forall (fun x => p x = false) l -> findIndex p l = None.
Proof.
  induction 1 as [|x l Hx Hl IH]; simpl; [reflexivity|]. rewrite Hx, IH. reflexivity.
Qed.

Lemma unrecognized_number (d : OriginalLocaleConfig) (cs : bool)
  (tokens : list jsstring) :
  Forall (unrecognized (buildParserLocaleConfig d cs)) tokens ->
  parseNumberFromTokens tokens (buildParserLocaleConfig d cs) = Some 0%Q.
Proof.
  intros Hu. set (config := buildParserLocaleConfig d cs) in *.
  unfold parseNumberFromTokens. destruct tokens as [|t r]; [reflexivity|].
  assert (Hm : startsWithMinus config (t :: r) = false).
  { inversion Hu as [|? ? (_ & Hmi & _) _]; subst. exact Hmi. }
  rewrite Hm. cbn [negb].
  assert (Hp : findPointIndexInRange (t :: r) 0 (length (t :: r)) config = None).
  { unfold findPointIndexInRange.
    match goal with |- (if ?b then _ else _) = _ => destruct b end; [reflexivity|].
    rewrite slice_full. apply findIndex_none.
    apply Forall_forall. intros x Hx. rewrite Forall_forall in Hu.
    destruct (Hu _ Hx) as (_ & _ & Hpt). exact Hpt. }
  rewrite Hp.
  assert (Hi : parseIntegerTokens (t :: r) config = Some 0%Z).
  { apply parse_is. unfold ParsesInteger. fold config.
    destruct (unrecognized_sum (Forall_filter (notAnd config) Hu)) as (H1 & H2).
    rewrite <- H2. apply IV_sum. assumption. }
  rewrite Hi. reflexivity.
Qed.

(** C9 (as amended).  [convert] and [parse] throw the "Invalid Input" error
    exactly when the argument is null, undefined, not a string, or a string
    with no character other than space, tab, line feed and carriage return
    (such a string is whitespace only; not every whitespace-only string is
    such a string); the one other error is that of an instance no locale
    was set on.  On every other string, an instance with a locale returns
    (for a space-free grammar, provided none of its words is empty).  A
    phrase of unrecognized tokens that is no ordinal phrase gives 0, not an
    error. *)
Theorem invalid_input_iff :
  (forall self words options,
     (convert self words options = Throws (InvalidInput words) <-> blank words)
     /\ (parse self words options = Throws (InvalidInput words) <-> blank words))
  /\ (forall self words options e,
        (convert self words options = Throws e <-> throwsWhen self words e)
        /\ (parse self words options = Throws e <-> throwsWhen self words e))
  /\ (forall self d words options,
        localeClass self = Some d ->
        wordsNonEmpty (buildParserLocaleConfig d false) -> ~ blank words ->
        (exists v, convert self words options = Returns v)
        /\ (exists r, parse self words options = Returns r))
  /\ (forall self d words options tokens,
        localeClass self = Some d ->
        ~ blank words ->
        currencyMode (mergeOptions self options) = false ->
        getTokens self words = Returns tokens ->
        Forall (unrecognized (buildParserLocaleConfig d false)) tokens ->
        parseOrdinalFromTokens tokens (buildParserLocaleConfig d false)
        = Some None ->
        convert self words options = Returns 0%Q)
  /\ (forall words, blank words -> whitespaceOnly words).
Proof.
  split; [|split; [|split; [|split]]].
  - intros self words options. split.
    + rewrite convert_throws_iff. unfold throwsWhen. split.
      * intros [[_ H]|(H & _)]; [assumption | discriminate].
      * intros H. left. auto.
    + rewrite parse_throws_iff. unfold throwsWhen. split.
      * intros [[_ H]|(H & _)]; [assumption | discriminate].
      * intros H. left. auto.
  - intros self words options e. split.
    + apply convert_throws_iff.
    + apply parse_throws_iff.
  - intros self d words options Hl Hw Hb.
    rewrite <- blank_iff in Hb. apply not_false_is_true in Hb.
    destruct (getTokens_total self words Hl Hw) as (tokens & Et).
    unfold convert, parse, parseCurrency.
    rewrite Hb, Et, (getParserConfig_set self Hl). cbn [negb andThen].
    destruct (currencyMode (mergeOptions self options)).
    + destruct (compiled_currency_total d false tokens
                  (mergeOptions self options)) as (r & Er).
      rewrite Er. cbn [andThen lift]. split; eexists; reflexivity.
    + destruct (compiled_convertTokens_total d false tokens) as (q & Eq).
      destruct (compiled_parseTokens_total d false tokens) as (r & Er).
      rewrite Eq, Er. cbn [lift]. split; eexists; reflexivity.
  - intros self d words options tokens Hl Hb Hc Et Hu Ho.
    rewrite <- blank_iff in Hb. apply not_false_is_true in Hb.
    unfold convert. rewrite Hb, Hc, Et, (getParserConfig_set self Hl).
    cbn [negb andThen].
    unfold convertTokens. destruct (length tokens =? 0); [reflexivity|].
    rewrite Ho. cbn [bind]. rewrite (unrecognized_number Hu). reflexivity.
  - intros [| | | |s]; cbn [blank whitespaceOnly]; try exact (fun H => H).
    apply Forall_impl. intros c Hc. unfold isAsciiSpace in Hc.
    repeat (apply orb_true_iff in Hc; destruct Hc as [Hc|Hc]);
      apply N.eqb_eq in Hc; subst; reflexivity.
Qed.

Lemma invalid_input_iff_witness :
  (exists v, convert (instanceOf english) (text "one hundred and six.") noOptions
             = Returns v)
  /\ convert (instanceOf english) (text "foo bar") noOptions = Returns 0%Q
  /\ convert (instanceOf english) (text "   ") noOptions
     = Throws (InvalidInput (text "   "))
  /\ convert (instanceOf english) JNull noOptions = Throws (InvalidInput JNull)
  /\ parse noLocale (text "one") noOptions = Throws NoLocaleSet.
Proof.
  destruct invalid_input_iff as (H1 & H2 & H3 & H4 & _).
  split; [|split; [|split; [|split]]].
  - apply (H3 (instanceOf english) english (text "one hundred and six.")
              noOptions).
    + reflexivity.
    + intros Ht. vm_compute in Ht. discriminate.
    + intros Hb. apply blank_iff in Hb. vm_compute in Hb. discriminate.
  - apply (H4 (instanceOf english) english (text "foo bar") noOptions
              [js "foo"; js "bar"]).
    + reflexivity.
    + intros Hb. apply blank_iff in Hb. vm_compute in Hb. discriminate.
    + vm_compute. reflexivity.
    + vm_compute. reflexivity.
    + repeat constructor.
    + vm_compute. reflexivity.
  - apply (H1 (instanceOf english) (text "   ") noOptions).
    apply blank_iff. vm_compute. reflexivity.
  - apply (H1 (instanceOf english) JNull noOptions). exact I.
  - apply (H2 noLocale (text "one") noOptions). right.
    split; [reflexivity|]. split; [|reflexivity].
    intros Hb. apply blank_iff in Hb. vm_compute in Hb. discriminate.
Defined.

(** C9 (as stated) fails: a string of whitespace other than space, tab,
    line feed and carriage return (a no-break space; a vertical tab and a
    form feed) holds no non-whitespace character, and is accepted:
    [convert] returns 0 and [parse] returns as well. *)
Lemma whitespace_only_as_stated_fails :
  whitespaceOnly (JString [160%N])
  /\ convert (instanceOf english) (JString [160%N]) noOptions = Returns 0%Q
  /\ (exists r,
        parse (instanceOf english) (JString [160%N]) noOptions = Returns r
        /\ res_value r = 0%Q)
  /\ whitespaceOnly (JString [11%N; 12%N])
  /\ convert (instanceOf english) (JString [11%N; 12%N]) noOptions
     = Returns 0%Q.
Proof.
  split; [repeat constructor|]. split; [vm_compute; reflexivity|].
  split; [eexists; split; vm_compute; reflexivity|].
  split; [repeat constructor | vm_compute; reflexivity].
Qed.


(* ================================================================== *)
(** * Cleaning the input *)

Lemma dropWhile_fix (p : N -> bool) (l : jsstring) :
  dropWhile p l = l <-> l = [] \/ exists c r, l = c :: r /\ p c = false.
Proof.
  destruct l as [|c r]; simpl.
  - split; auto.
  - destruct (p c) eqn:E.
    + split.
      * intros H. pose proof (dropWhile_length p r) as Hl.
        rewrite H in Hl. simpl in Hl. lia.
      * intros [H|(c' & r' & H & Hc)]; [discriminate|].
        inversion H; subst. congruence.
    + split; [|reflexivity]. intros _. right. exists c, r. auto.
Qed.

Lemma dropWhile_idem (p : N -> bool) (l : jsstring) :
  dropWhile p (dropWhile p l) = dropWhile p l.
Proof.
  apply dropWhile_fix. destruct (dropWhile p l) as [|c r] eqn:E; [auto|].
  right. exists c, r. split; [reflexivity|]. apply (dropWhile_head _ _ E).
Qed.

Lemma dropWhile_suffix (p : N -> bool) (l : jsstring) :
  exists w, l = w ++ dropWhile p l.
Proof.
  induction l as [|c r (w & IH)]; simpl.
  - exists []. reflexivity.
  - destruct (p c).
    + exists (c :: w). simpl. f_equal. assumption.
    + exists []. reflexivity.
Qed.

Lemma trimEnd_prefix (l : jsstring) : exists w, l = trimEnd l ++ w.
Proof.
  unfold trimEnd. destruct (dropWhile_suffix isJsSpace (rev l)) as (w & Hw).
  exists (rev w). rewrite <- rev_app_distr, <- Hw, rev_involutive. reflexivity.
Qed.

Lemma trimEnd_idem (l : jsstring) : trimEnd (trimEnd l) = trimEnd l.
Proof.
  unfold trimEnd. rewrite rev_involutive, dropWhile_idem. reflexivity.
Qed.

Lemma trimEnd_snoc (l : jsstring) (c : N) :
  isJsSpace c = false -> trimEnd (l ++ [c]) = l ++ [c].
Proof.
  intros H. unfold trimEnd. rewrite rev_app_distr. simpl. rewrite H.
  simpl. rewrite rev_involutive. reflexivity.
Qed.

Lemma trimEnd_fix (l : jsstring) :
  trimEnd l = l ->
  l = [] \/ exists r c, l = r ++ [c] /\ isJsSpace c = false.
Proof.
  unfold trimEnd. intros H.
  assert (Hd : dropWhile isJsSpace (rev l) = rev l).
  { rewrite <- H at 2. rewrite rev_involutive. reflexivity. }
  apply dropWhile_fix in Hd. destruct Hd as [Hd|(c & r & Hd & Hc)].
  - left. destruct l; [reflexivity|]. simpl in Hd.
    destruct (rev l); discriminate.
  - right. exists (rev r), c. split; [|assumption].
    rewrite <- (rev_involutive l), Hd. reflexivity.
Qed.

Lemma tight_trim (l : jsstring) : tight l -> trim l = l.
Proof. intros [H1 H2]. unfold trim. rewrite H1. assumption. Qed.

Lemma trim_tight (s : jsstring) : tight (trim s).
Proof.
  unfold tight, trim. split; [|apply trimEnd_idem].
  unfold trimStart. apply dropWhile_fix.
  destruct (trimEnd (dropWhile isJsSpace s)) as [|c r] eqn:E; [auto|].
  right. exists c, r. split; [reflexivity|].
  destruct (trimEnd_prefix (dropWhile isJsSpace s)) as (w & Hw).
  rewrite E in Hw. simpl in Hw. apply (dropWhile_head _ _ Hw).
Qed.

Lemma collapse_snoc (l : jsstring) : forall b c,
  isJsSpace c = false ->
  collapseSpaces b (l ++ [c]) = collapseSpaces b l ++ [c].
Proof.
  induction l as [|x l IH]; intros b c Hc; simpl.
  - rewrite Hc. reflexivity.
  - destruct (isJsSpace x).
    + destruct b; simpl; rewrite IH by assumption; reflexivity.
    + simpl. rewrite IH by assumption. reflexivity.
Qed.

Lemma collapse_tight (t : jsstring) :
  tight t -> tight (collapseSpaces false t).
Proof.
  intros [H1 H2]. split.
  - unfold trimStart in *. apply dropWhile_fix in H1. apply dropWhile_fix.
    destruct H1 as [->|(c & r & -> & Hc)]; [auto|].
    right. simpl. rewrite Hc. eexists. eexists. split; [reflexivity | assumption].
  - apply trimEnd_fix in H2. destruct H2 as [->|(r & c & -> & Hc)]; [reflexivity|].
    rewrite collapse_snoc by assumption. apply trimEnd_snoc. assumption.
Qed.

Lemma punct_not_space (c : N) : isPunct c = true -> isJsSpace c = false.
Proof.
  unfold isPunct. intros H. apply orb_true_iff in H.
  destruct H as [H|H]; apply N.eqb_eq in H; subst; reflexivity.
Qed.

Lemma noPunctuation_dropWhile (p : N -> bool) (l : jsstring) :
  noPunctuation l -> noPunctuation (dropWhile p l).
Proof.
  unfold noPunctuation. induction 1 as [|c r Hc Hr IH]; simpl; [constructor|].
  destruct (p c); [assumption | constructor; assumption].
Qed.

Lemma noPunctuation_trim (s : jsstring) : noPunctuation s -> noPunctuation (trim s).
Proof.
  intros H. unfold trim, trimEnd, trimStart, noPunctuation in *.
  apply Forall_rev. apply noPunctuation_dropWhile. apply Forall_rev.
  apply noPunctuation_dropWhile. assumption.
Qed.

Lemma noPunctuation_collapse (l : jsstring) : forall b,
  noPunctuation l -> noPunctuation (collapseSpaces b l).
Proof.
  unfold noPunctuation. induction l as [|c r IH]; intros b H; simpl; [constructor|].
  inversion H as [|? ? Hc Hr]; subst.
  destruct (isJsSpace c).
  - destruct b; [apply IH; assumption|].
    constructor; [reflexivity | apply IH; assumption].
  - constructor; [assumption | apply IH; assumption].
Qed.

Lemma stripPunct_none (l : jsstring) : noPunctuation l -> stripPunct l = l.
Proof.
  unfold noPunctuation. induction 1 as [|c r Hc Hr IH]; simpl; [reflexivity|].
  rewrite Hc. simpl. rewrite IH. reflexivity.
Qed.

Lemma collapse_clean (l : jsstring) : forall b,
  noPunctuation l -> needsCleaning b (collapseSpaces b l) = false.
Proof.
  unfold noPunctuation. induction l as [|c r IH]; intros b H; simpl.
  - destruct b; reflexivity.
  - inversion H as [|? ? Hc Hr]; subst.
    destruct (isJsSpace c) eqn:Es.
    + destruct b; [apply IH; assumption|].
      simpl. apply IH. assumption.
    + assert (H32 : (c =? 32)%N = false).
      { destruct (c =? 32)%N eqn:E; [|reflexivity].
        apply N.eqb_eq in E. subst. discriminate. }
      simpl. rewrite H32. unfold isPunct in Hc. rewrite Hc.
      pose proof (IH false Hr) as Hf. destruct b; assumption.
Qed.

Lemma clean_tight (r : jsstring) :
  tight r -> needsCleaning false r = false -> cleanInput (JString r) = r.
Proof.
  intros Ht Hn. unfold cleanInput. destruct r as [|c r']; [reflexivity|].
  rewrite (tight_trim Ht), Hn. reflexivity.
Qed.

(** ** Strings that cleaning leaves alone *)

Lemma collapse_length (t : jsstring) : forall b,
  length (collapseSpaces b t) <= length t.
Proof.
  induction t as [|c r IH]; intros b; cbn [collapseSpaces length]; [lia|].
  pose proof (IH true). pose proof (IH false).
  destruct (isJsSpace c); [destruct b|]; cbn [length]; lia.
Qed.

Lemma trim_length (s : jsstring) : length (trim s) <= length s.
Proof.
  unfold trim, trimEnd, trimStart. rewrite length_rev.
  pose proof (dropWhile_length isJsSpace (rev (dropWhile isJsSpace s))).
  pose proof (dropWhile_length isJsSpace s).
  rewrite length_rev in *. lia.
Qed.

Lemma strip_length (x : jsstring) : length (stripPunct x) <= length x.
Proof.
  induction x as [|c r IH]; cbn [stripPunct length]; [lia|].
  destruct (isPunct c && match r with [] => true | d :: _ => isJsSpace d end);
    cbn [length]; lia.
Qed.

Lemma strip_cons_length (c : N) (x : jsstring) :
  length (stripPunct (c :: x)) <= S (length (stripPunct x)).
Proof.
  cbn [stripPunct].
  destruct (isPunct c && match x with [] => true | d :: _ => isJsSpace d end);
    cbn [length]; lia.
Qed.

Lemma not_space_not_32 (c : N) : isJsSpace c = false -> (c =? 32)%N = false.
Proof.
  intros H. destruct (c =? 32)%N eqn:E; [|reflexivity].
  apply N.eqb_eq in E. subst. discriminate.
Qed.

Lemma needsCleaning_char (b : bool) (c : N) (r : jsstring) :
  isJsSpace c = false ->
  needsCleaning b (c :: r)
  = if isPunct c
    then match r with
         | [] => true
         | d :: _ => if (d =? 32)%N then true else needsCleaning false r
         end
    else needsCleaning false r.
Proof.
  intros H. cbn [needsCleaning]. rewrite (@not_space_not_32 c H). reflexivity.
Qed.

(** Whatever the scan flags makes the cleaned string shorter. *)
Lemma cleaning_shortens (t : jsstring) : forall b r,
  (b = true -> r = true) ->
  needsCleaning b t = true ->
  length (stripPunct (collapseSpaces r t)) < length t.
Proof.
  induction t as [|c t' IH]; intros b r Hbr Hn; [discriminate|].
  destruct (isJsSpace c) eqn:Es.
  - cbn [collapseSpaces]. rewrite Es.
    destruct (c =? 32)%N eqn:E32.
    + cbn [needsCleaning] in Hn. rewrite E32 in Hn. destruct b.
      * rewrite (Hbr eq_refl).
        pose proof (strip_length (collapseSpaces true t')).
        pose proof (collapse_length t' true). cbn [length]. lia.
      * specialize (IH true true (fun _ => eq_refl) Hn).
        destruct r; cbn [length]; [lia|].
        pose proof (strip_cons_length 32 (collapseSpaces true t')). lia.
    + assert (Hp : ((c =? 46) || (c =? 44))%N = false).
      { destruct ((c =? 46) || (c =? 44))%N eqn:E; [|reflexivity].
        rewrite (@punct_not_space c E) in Es. discriminate. }
      cbn [needsCleaning] in Hn. rewrite E32, Hp in Hn.
      specialize (IH false true (fun H => eq_refl) Hn).
      destruct r; cbn [length]; [lia|].
      pose proof (strip_cons_length 32 (collapseSpaces true t')). lia.
  - cbn [collapseSpaces]. rewrite Es.
    rewrite (@needsCleaning_char b c t' Es) in Hn.
    destruct (isPunct c) eqn:Ep.
    + destruct t' as [|d t'']; [cbn [collapseSpaces stripPunct]; rewrite Ep; cbn; lia|].
      destruct (d =? 32)%N eqn:Ed.
      * apply N.eqb_eq in Ed. subst d. cbn [collapseSpaces isJsSpace].
        change (isJsSpace 32) with true. cbn [stripPunct]. rewrite Ep.
        change (isJsSpace 32) with true. cbn [andb].
        pose proof (strip_cons_length 32 (collapseSpaces true t'')).
        pose proof (strip_length (collapseSpaces true t'')).
        pose proof (collapse_length t'' true).
        change (isPunct 32) with false. cbn [andb length]. lia.
      * specialize (IH false false (fun H => H) Hn).
        pose proof (strip_cons_length c (collapseSpaces false (d :: t''))).
        cbn [length] in *. lia.
    + specialize (IH false false (fun H => H) Hn).
      pose proof (strip_cons_length c (collapseSpaces false t')).
      cbn [length] in *. lia.
Qed.

(** The strings [cleanInput] returns unchanged. *)
Lemma cleanInput_fixed (t : jsstring) :
  cleanInput (JString t) = t <-> settled t.
Proof.
  split.
  - intros H. destruct t as [|c r]; [split; [split|]; reflexivity|].
    unfold cleanInput in H.
    destruct (needsCleaning false (trim (c :: r))) eqn:En; cbn [negb] in H.
    + exfalso.
      pose proof (@cleaning_shortens (trim (c :: r)) false false (fun E => E) En)
        as Hlt.
      rewrite H in Hlt.
      pose proof (trim_length (c :: r)). lia.
    + split; [rewrite <- H; apply trim_tight|]. rewrite <- H. exact En.
  - intros [Ht Hn]. apply clean_tight; assumption.
Qed.

Lemma endsClean_snoc (r : jsstring) (c : N) : forall b,
  endsClean b (r ++ [c]) = negb (isJsSpace c).
Proof.
  induction r as [|x r IH]; intros b; cbn [app endsClean]; [reflexivity|apply IH].
Qed.

Lemma trimEnd_endsClean (t : jsstring) :
  trimEnd t = t <-> endsClean false t = true.
Proof.
  split.
  - intros H. apply trimEnd_fix in H.
    destruct H as [->|(r & c & -> & Hc)]; [reflexivity|].
    rewrite endsClean_snoc, Hc. reflexivity.
  - intros H. destruct t as [|c0 t0]; [reflexivity|].
    destruct (@exists_last _ (c0 :: t0) ltac:(discriminate)) as (r & c & E).
    rewrite E in *. rewrite endsClean_snoc in H. apply negb_true_iff in H.
    apply trimEnd_snoc, H.
Qed.

Lemma tight_cons (c : N) (v : jsstring) :
  tight (c :: v) <-> isJsSpace c = false /\ endsClean false v = true.
Proof.
  unfold tight. rewrite trimEnd_endsClean. unfold trimStart.
  rewrite dropWhile_fix. cbn [endsClean]. split.
  - intros [[H|(c' & r & E & Hc)] He]; [discriminate|].
    inversion E; subst. rewrite Hc in He. auto.
  - intros [Hc He]. rewrite Hc. split; [|exact He].
    right. exists c, v. auto.
Qed.

(** Collapsing the whitespace of a string that does not end with
    whitespace leaves single spaces only. *)
Lemma collapse_singleSpaced (t : jsstring) : forall b,
  endsClean b t = true -> singleSpaced b (collapseSpaces b t) = true.
Proof.
  induction t as [|c r IH]; intros b H; cbn [collapseSpaces].
  - exact H.
  - cbn [endsClean] in H. destruct (isJsSpace c) eqn:Es.
    + destruct b; [apply IH, H|].
      cbn [singleSpaced]. change (isJsSpace 32) with true.
      cbn [N.eqb negb andb]. rewrite (IH true H). reflexivity.
    + cbn [singleSpaced]. rewrite Es. apply IH, H.
Qed.

(** After a character [x] that cleaning keeps, the rest [u] of a
    single-spaced string has its stripped marks after words exactly when
    what is left of it is settled: the scan flags nothing, the string does
    not end with a space, and [x], if it is a mark, is followed by a
    character that is no space. *)
Lemma marks_settled_from : forall n u, length u <= n -> forall x,
  singleSpaced (isJsSpace x) u = true ->
  (isPunct x = true -> exists c r, u = c :: r /\ isJsSpace c = false) ->
  (marksFollowWordsFrom (Some x) u = true
   <-> needsCleaning (isJsSpace x) (stripPunct u) = false
       /\ endsClean (isJsSpace x) (stripPunct u) = true
       /\ (isPunct x = true ->
           exists d v, stripPunct u = d :: v /\ (d =? 32)%N = false)).
Proof.
  induction n as [|n IH]; intros u Hlen x Hs Hv.
  - destruct u; [|cbn [length] in Hlen; lia].
    cbn [marksFollowWordsFrom stripPunct needsCleaning endsClean].
    cbn [singleSpaced] in Hs. split; [|reflexivity].
    intros _. split; [reflexivity|]. split; [exact Hs|].
    intros Hp. destruct (Hv Hp) as (c & r & E & _). discriminate.
  - destruct u as [|c r].
    + cbn [marksFollowWordsFrom stripPunct needsCleaning endsClean].
      cbn [singleSpaced] in Hs. split; [|reflexivity].
      intros _. split; [reflexivity|]. split; [exact Hs|].
      intros Hp. destruct (Hv Hp) as (c & r & E & _). discriminate.
    + cbn [length] in Hlen. destruct (isJsSpace c) eqn:Es.
      * (* a space *)
        cbn [singleSpaced] in Hs. rewrite Es in Hs.
        apply andb_true_iff in Hs. destruct Hs as [Hs Hr].
        apply andb_true_iff in Hs. destruct Hs as [Hc Hx].
        apply N.eqb_eq in Hc. subst c. apply negb_true_iff in Hx.
        assert (Hnp : isPunct x = false).
        { destruct (isPunct x) eqn:Ep; [|reflexivity].
          destruct (Hv eq_refl) as (c & r' & E & Hc). inversion E; subst.
          discriminate. }
        cbn [marksFollowWordsFrom stripPunct].
        change (isPunct 32) with false. cbn [andb].
        rewrite Hx. cbn [needsCleaning N.eqb Pos.eqb endsClean].
        change (isJsSpace 32) with true.
        rewrite (IH r ltac:(lia) 32%N Hr ltac:(discriminate)).
        change (isJsSpace 32) with true. change (isPunct 32) with false.
        rewrite Hnp. intuition discriminate.
      * cbn [singleSpaced] in Hs. rewrite Es in Hs.
        destruct (isPunct c && match r with [] => true | d :: _ => isJsSpace d end)
          eqn:Est.
        -- (* a mark that is stripped *)
           apply andb_true_iff in Est. destruct Est as [Ep Hnext].
           cbn [marksFollowWordsFrom stripPunct]. rewrite Ep, Hnext. cbn [andb].
           destruct r as [|d r'].
           ++ cbn [marksFollowWordsFrom stripPunct needsCleaning endsClean].
              rewrite andb_true_r. split.
              ** intros H. apply andb_true_iff in H. destruct H as [H1 H2].
                 apply negb_true_iff in H2. split; [reflexivity|].
                 split; [exact H1|]. intros Hp. congruence.
              ** intros (_ & H1 & H2). apply andb_true_iff. split; [exact H1|].
                 apply negb_true_iff. destruct (isPunct x); [|reflexivity].
                 destruct (H2 eq_refl) as (d & v & E & _). discriminate.
           ++ cbn [singleSpaced] in Hs. rewrite Hnext in Hs.
              apply andb_true_iff in Hs. destruct Hs as [Hs Hr].
              apply andb_true_iff in Hs. destruct Hs as [Hd _].
              apply N.eqb_eq in Hd. subst d.
              cbn [marksFollowWordsFrom stripPunct].
              change (isPunct 32) with false. cbn [andb].
              cbn [needsCleaning N.eqb Pos.eqb endsClean].
              change (isJsSpace 32) with true.
              cbn [length] in Hlen. rewrite !andb_true_iff.
              rewrite (IH r' ltac:(lia) 32%N Hr ltac:(discriminate)).
              change (isJsSpace 32) with true. change (isPunct 32) with false.
              split.
              ** intros ((Hx & Hp) & H2).
                 apply negb_true_iff in Hx. apply negb_true_iff in Hp.
                 rewrite Hx. destruct H2 as (H2 & H3 & _).
                 split; [exact H2|]. split; [exact H3|]. intros; congruence.
              ** intros (H1 & H2 & H3).
                 destruct (isJsSpace x) eqn:Ex; [discriminate|].
                 destruct (isPunct x) eqn:Epx.
                 { destruct (H3 eq_refl) as (d & v & E & Hd).
                   inversion E; subst. discriminate. }
                 cbn [negb]. split; [split; reflexivity|].
                 split; [exact H1|]. split; [exact H2|]. discriminate.
        -- (* a character that is kept *)
           cbn [marksFollowWordsFrom stripPunct]. rewrite Est. cbn [andb].
           rewrite (@needsCleaning_char (isJsSpace x) c (stripPunct r) Es).
           cbn [endsClean]. rewrite Es.
           assert (Hv' : isPunct c = true ->
                         exists d r', r = d :: r' /\ isJsSpace d = false).
           { intros Ep. rewrite Ep in Est. cbn [andb] in Est.
             destruct r as [|d r']; [discriminate|]. exists d, r'. auto. }
           rewrite (IH r ltac:(lia) c); [|rewrite Es; exact Hs|exact Hv'].
           rewrite Es.
           assert (Hc32 : (c =? 32)%N = false) by (apply not_space_not_32, Es).
           destruct (isPunct c) eqn:Ep.
           ++ split.
              ** intros (H1 & H2 & H3). destruct (H3 eq_refl) as (d & v & E & Hd).
                 rewrite E in *. rewrite Hd. split; [exact H1|].
                 split; [exact H2|]. intros _. exists c, (d :: v). auto.
              ** intros (H1 & H2 & _).
                 destruct (stripPunct r) as [|d v] eqn:E; [discriminate|].
                 destruct (d =? 32)%N eqn:Ed; [discriminate|].
                 split; [exact H1|]. split; [exact H2|].
                 intros _. exists d, v. auto.
           ++ split.
              ** intros (H1 & H2 & _). split; [exact H1|]. split; [exact H2|].
                 intros _. exists c, (stripPunct r). auto.
              ** intros (H1 & H2 & _). split; [exact H1|]. split; [exact H2|].
                 discriminate.
Qed.

Lemma settled_nil : settled [].
Proof. split; [split|]; reflexivity. Qed.

(** Stripping a string whose first character is kept, or which is one
    character long. *)
Lemma marks_settled (c : N) (r : jsstring) :
  isJsSpace c = false -> singleSpaced false r = true ->
  (settled (stripPunct (c :: r)) <-> marksFollowWords (c :: r) = true).
Proof.
  intros Es Hs.
  destruct (isPunct c && match r with [] => true | d :: _ => isJsSpace d end)
    eqn:Est.
  - (* the first character is a mark that is stripped *)
    apply andb_true_iff in Est. destruct Est as [Ep Hnext].
    destruct r as [|d r'].
    + cbn [stripPunct marksFollowWords]. rewrite Ep. cbn [andb].
      split; [reflexivity|]. intros _. apply settled_nil.
    + cbn [singleSpaced] in Hs. rewrite Hnext in Hs.
      apply andb_true_iff in Hs. destruct Hs as [Hs _].
      apply andb_true_iff in Hs. destruct Hs as [Hd _].
      apply N.eqb_eq in Hd. subst d.
      cbn [marksFollowWords marksFollowWordsFrom stripPunct].
      rewrite Ep. change (isJsSpace 32) with true. change (isPunct 32) with false.
      cbn [andb]. split; [|discriminate].
      intros [Ht _]. apply tight_cons in Ht. destruct Ht as [H _]. discriminate.
  - (* the first character is kept *)
    assert (Hm : marksFollowWords (c :: r)
                 = marksFollowWordsFrom (Some 97%N) (c :: r)).
    { destruct r as [|d r'];
        cbn [marksFollowWords marksFollowWordsFrom]; rewrite Est; reflexivity. }
    rewrite Hm.
    rewrite (@marks_settled_from (length (c :: r)) (c :: r) (le_n _) 97%N).
    + change (isJsSpace 97) with false. change (isPunct 97) with false.
      cbn [stripPunct]. rewrite Est. unfold settled. rewrite tight_cons.
      cbn [endsClean]. rewrite Es. split.
      * intros [[_ H1] H2]. split; [exact H2|]. split; [exact H1|]. discriminate.
      * intros (H1 & H2 & _). split; [split; [reflexivity | exact H2] | exact H1].
    + change (isJsSpace 97) with false. cbn [singleSpaced]. rewrite Es. exact Hs.
    + discriminate.
Qed.

(** C8 (as amended).  Cleaning twice is cleaning once exactly when the
    cleaned string is settled: no whitespace at either end, no two spaces
    in a row, no full stop or comma before a space or at the end.  That is
    the case exactly when the trimmed input needs no cleaning, or every
    full stop or comma that is stripped (one before whitespace or at the
    end, whitespace runs taken as one space) directly follows a character
    that is neither whitespace nor a full stop or comma, or is the whole
    trimmed input. *)
Theorem cleanInput_idempotent (s : jsstring) :
  (cleanInput (JString (cleanInput (JString s))) = cleanInput (JString s)
   <-> settled (cleanInput (JString s)))
  /\ (settled (cleanInput (JString s))
      <-> needsCleaning false (trim s) = false
          \/ marksFollowWords (collapseSpaces false (trim s)) = true).
Proof.
  split; [apply cleanInput_fixed|].
  destruct s as [|c0 s0].
  - cbn [cleanInput]. split; [intros _; left; reflexivity|].
    intros _. apply settled_nil.
  - assert (E : cleanInput (JString (c0 :: s0))
                = if negb (needsCleaning false (trim (c0 :: s0)))
                  then trim (c0 :: s0)
                  else stripPunct (collapseSpaces false (trim (c0 :: s0))))
      by reflexivity.
    rewrite E. clear E. pose proof (trim_tight (c0 :: s0)) as Ht.
    destruct (needsCleaning false (trim (c0 :: s0))) eqn:En; cbn [negb].
    + destruct (trim (c0 :: s0)) as [|c t'] eqn:Et; [discriminate|].
      apply tight_cons in Ht. destruct Ht as [Es He].
      cbn [collapseSpaces]. rewrite Es.
      rewrite (@marks_settled c (collapseSpaces false t') Es
                 (@collapse_singleSpaced t' false He)).
      split; [auto|]. intros [H|H]; [discriminate | exact H].
    + split; [auto|]. intros _. split; assumption.
Qed.

Lemma cleanInput_idempotent_witness :
  cleanInput (JString (cleanInput (text "  one   two  ")))
  = cleanInput (text "  one   two  ")
  /\ cleanInput (JString (cleanInput (text "one hundred.")))
     = cleanInput (text "one hundred.")
  /\ cleanInput (JString (cleanInput (text "one, two")))
     = cleanInput (text "one, two")
  /\ cleanInput (JString (cleanInput (text "a .")))
     <> cleanInput (text "a .").
Proof.
  split; [|split; [|split]].
  - apply (proj1 (cleanInput_idempotent (js "  one   two  "))).
    apply (proj2 (cleanInput_idempotent (js "  one   two  "))).
    right. vm_compute. reflexivity.
  - apply (proj1 (cleanInput_idempotent (js "one hundred."))).
    apply (proj2 (cleanInput_idempotent (js "one hundred."))).
    right. vm_compute. reflexivity.
  - apply (proj1 (cleanInput_idempotent (js "one, two"))).
    apply (proj2 (cleanInput_idempotent (js "one, two"))).
    right. vm_compute. reflexivity.
  - intros H.
    apply (proj1 (cleanInput_idempotent (js "a ."))) in H.
    apply (proj2 (cleanInput_idempotent (js "a ."))) in H.
    destruct H as [H|H]; vm_compute in H; discriminate.
Defined.

(** C8 (as stated) fails: cleaning "a.." strips only the last full stop, and
    cleaning the result strips the other; cleaning "a ." leaves a space at
    the end, which the next cleaning trims. *)
Lemma cleanInput_not_idempotent :
  cleanInput (text "a..") = js "a."
  /\ cleanInput (JString (cleanInput (text "a.."))) = js "a"
  /\ cleanInput (JString (cleanInput (text "a.."))) <> cleanInput (text "a..")
  /\ cleanInput (text "a .") = js "a "
  /\ cleanInput (JString (cleanInput (text "a ."))) = js "a".
Proof.
  split; [reflexivity|]. split; [reflexivity|].
  split; [vm_compute; discriminate|]. split; reflexivity.
Qed.

(* ================================================================== *)
(** * Worked instances of the integer and scale theorems *)

Lemma integer_parse_highest_scale_wins_witness :
  parseIntegerTokens [js "two"; js "hundred"; js "and"; js "six"]
    (buildParserLocaleConfig english false) = Some 206%Z.
Proof.
  destruct (integer_parse_highest_scale_wins english false
              [js "two"; js "hundred"; js "and"; js "six"])
    as (n & _ & Hu & Hs).
  assert (E : 206%Z = n); [apply Hu|].
  2: { subst n. apply Hs; [vm_compute; reflexivity|].
       unfold MAX_SAFE_INTEGER. lia. }
  unfold ParsesInteger.
  replace (filter (notAnd (buildParserLocaleConfig english false))
             [js "two"; js "hundred"; js "and"; js "six"])
    with ([js "two"] ++ js "hundred" :: [js "six"]) by (vm_compute; reflexivity).
  change 206%Z with (orOne 2 * 100 + 6)%Z.
  apply IV_coef.
  - discriminate.
  - vm_compute. reflexivity.
  - constructor; [|constructor]. intros v Hv. vm_compute in Hv. discriminate.
  - constructor; [|constructor]. intros v Hv. vm_compute in Hv. discriminate.
  - change 2%Z with (sumTokens (buildParserLocaleConfig english false) [js "two"]).
    apply IV_sum. constructor; [vm_compute; reflexivity | constructor].
  - change 6%Z with (sumTokens (buildParserLocaleConfig english false) [js "six"]).
    apply IV_sum. constructor; [vm_compute; reflexivity | constructor].
Defined.

Lemma scale_words_exactly_powers_of_ten_witness :
  In 1000%Z (scaleWords (buildParserLocaleConfig english false))
  /\ ~ In 10%Z (scaleWords (buildParserLocaleConfig english false)).
Proof.
  destruct (scale_words_exactly_powers_of_ten english false) as (H & _).
  split.
  - apply H. split.
    + exists (js "thousand"). vm_compute. reflexivity.
    + left. exists 3%Z. split; [lia | reflexivity].
  - intros Hin. apply H in Hin. destruct Hin as (_ & [(e & He & E)|(k & (e & He & ->) & E)]).
    + assert (100 <= 10 ^ e)%Z
        by (change 100%Z with (10 ^ 2)%Z; apply Z.pow_le_mono_r; lia).
      lia.
    + assert (100 <= 10 ^ e)%Z
        by (change 100%Z with (10 ^ 2)%Z; apply Z.pow_le_mono_r; lia).
      lia.
Defined.


(* ================================================================== *)
(** * The facade: [convert] against [parse], and the caches *)

Lemma convertTokens_parseTokens (tokens : list jsstring)
  (config : ParserLocaleConfig) :
  convertTokens tokens config
  = match parseTokens tokens config with
    | Some r => Some (res_value r)
    | None => None
    end.
Proof.
  unfold convertTokens, parseTokens.
  destruct (length tokens =? 0); [reflexivity|].
  destruct (parseOrdinalFromTokens tokens config) as [[v|]|]; cbn [bind];
    try reflexivity.
  destruct (parseNumberFromTokens tokens config); reflexivity.
Qed.

(** X1.  [convert] returns the [value] of what [parse] returns for the same
    arguments, and throws exactly when [parse] throws, with the same
    error. *)
Theorem convert_is_value_of_parse (self : Instance) (words : jsvalue)
  (options : ConverterOptions) :
  convert self words options = valueOf (parse self words options).
Proof.
  unfold convert, parse, valueOf.
  destruct (negb (isValidInput words)); [reflexivity|].
  destruct (currencyMode (mergeOptions self options)); [reflexivity|].
  destruct (getParserConfig self) as [config|e|]; cbn [andThen];
    try reflexivity.
  destruct (getTokens self words) as [tokens|e|]; cbn [andThen];
    try reflexivity.
  rewrite convertTokens_parseTokens.
  destruct (parseTokens tokens config); reflexivity.
Qed.

(** X2.  Outside currency mode, [convert] of a valid input is what
    [parseOrdinal] returns when that is not [null], and what [parseNumber]
    returns otherwise. *)
Theorem convert_is_ordinal_or_number (self : Instance) (words : jsvalue)
  (options : ConverterOptions) :
  isValidInput words = true ->
  currencyMode (mergeOptions self options) = false ->
  convert self words options
  = (ordinalResult <-- parseOrdinal self words ;;
     match ordinalResult with
     | Some v => Returns (inject_Z v)
     | None => parseNumber self words
     end).
Proof.
  intros Hv Hc. unfold convert, parseOrdinal, parseNumber.
  rewrite Hv, Hc. cbn [negb].
  destruct (getParserConfig self) as [config|e|]; cbn [andThen];
    try reflexivity.
  destruct (getTokens self words) as [tokens|e|]; cbn [andThen];
    try reflexivity.
  unfold convertTokens. destruct tokens as [|t r]; [reflexivity|].
  cbn [length Nat.eqb].
  destruct (parseOrdinalFromTokens (t :: r) config) as [[v|]|];
    cbn [bind lift andThen]; reflexivity.
Qed.

Lemma convert_is_ordinal_or_number_witness :
  convert (instanceOf english) (text "twenty first") noOptions
  = Returns (inject_Z 21).
Proof.
  rewrite (@convert_is_ordinal_or_number (instanceOf english)
             (text "twenty first") noOptions);
    vm_compute; reflexivity.
Defined.

(** ** The cached locale and grammar *)

Lemma coherent_after (self : Fields.fields) (cur : option OriginalLocaleConfig)
  (c : Fields.call) :
  Fields.coherent self cur ->
  Fields.coherent (Fields.after self c) (Fields.lastSet cur [c]).
Proof.
  intros H. pose proof H as (H1 & H2 & H3).
  destruct c as [cls| |]; cbn [Fields.after Fields.lastSet].
  - unfold Fields.coherent. cbn.
    split; [reflexivity|]. split; intros; discriminate.
  - unfold Fields.getLocale, Fields.getLocaleClass.
    destruct (Fields.locale self) as [l|] eqn:El; cbn [andThen snd];
      [exact H|].
    destruct (Fields.localeClass self) as [cls|] eqn:Ec; cbn [andThen snd];
      [|exact H].
    subst cur. unfold Fields.coherent. cbn.
    split; [reflexivity|]. split; [|exact H3].
    intros l Hl. inversion Hl; subst. reflexivity.
  - unfold Fields.getParserConfig, Fields.getLocale, Fields.getLocaleClass.
    destruct (Fields.parserConfig self) as [config|] eqn:Ep; cbn [andThen snd];
      [exact H|].
    destruct (Fields.locale self) as [l|] eqn:El; cbn [andThen snd fst].
    + unfold Fields.coherent. cbn.
      split; [exact H1|]. split; [rewrite El; exact H2|].
      intros c Hc. inversion Hc; subst. exists l. split; [|reflexivity].
      apply H2. reflexivity.
    + destruct (Fields.localeClass self) as [cls|] eqn:Ec;
        cbn [andThen snd fst]; [|exact H].
      subst cur. unfold Fields.coherent. cbn.
      split; [reflexivity|]. split.
      * intros l Hl. inversion Hl; subst. reflexivity.
      * intros c Hc. inversion Hc; subst. exists cls.
        split; reflexivity.
Qed.

Lemma coherent_afterAll (calls : list Fields.call) :
  forall self cur,
  Fields.coherent self cur ->
  Fields.coherent (Fields.afterAll self calls) (Fields.lastSet cur calls).
Proof.
  induction calls as [|c calls IH]; intros self cur H; [exact H|].
  unfold Fields.afterAll. cbn [fold_left].
  replace (Fields.lastSet cur (c :: calls))
    with (Fields.lastSet (Fields.lastSet cur [c]) calls)
    by (destruct c; reflexivity).
  apply IH. apply coherent_after. exact H.
Qed.

Lemma coherent_getParserConfig (self : Fields.fields)
  (cur : option OriginalLocaleConfig) (o : option ConverterOptions) :
  Fields.coherent self cur ->
  Fields.result (Fields.getParserConfig self)
  = getParserConfig {| converterOptions := o; localeClass := cur |}.
Proof.
  intros (H1 & H2 & H3).
  unfold Fields.result, Fields.getParserConfig, Fields.getLocale,
    Fields.getLocaleClass, getParserConfig, getLocaleClass.
  cbn [localeClass].
  destruct (Fields.parserConfig self) as [config|] eqn:Ep; cbn [andThen fst].
  - destruct (H3 _ eq_refl) as (d & -> & ->). reflexivity.
  - destruct (Fields.locale self) as [l|] eqn:El; cbn [andThen fst].
    + rewrite (H2 _ eq_refl). reflexivity.
    + rewrite H1. destruct cur; reflexivity.
Qed.

Lemma coherent_constructed : Fields.coherent Fields.constructed None.
Proof. unfold Fields.coherent. cbn. repeat split; intros; discriminate. Qed.

(** X3.  Whatever calls to [setLocale], [getLocale] and [getParserConfig]
    were made on an instance since it was constructed, [getParserConfig]
    returns the grammar compiled from the class of the last [setLocale]
    (the cached grammar is never stale), and throws "No locale set" when
    there was none; the same holds for a per-locale entry class, whose
    constructor sets its own locale. *)
Theorem parser_config_follows_last_setLocale (calls : list Fields.call)
  (o : option ConverterOptions) :
  Fields.result (Fields.getParserConfig (Fields.afterAll Fields.constructed calls))
  = getParserConfig
      {| converterOptions := o; localeClass := Fields.lastSet None calls |}
  /\ forall Locale,
       Fields.result
         (Fields.getParserConfig (Fields.afterAll (Fields.localeEntry Locale) calls))
       = getParserConfig
           {| converterOptions := o;
              localeClass := Fields.lastSet (Some Locale) calls |}.
Proof.
  split.
  - apply coherent_getParserConfig, coherent_afterAll, coherent_constructed.
  - intros Locale.
    apply coherent_getParserConfig, coherent_afterAll.
    apply (coherent_after (Fields.SetLocale Locale) coherent_constructed).
Qed.


(* ================================================================== *)
(** * Plain numbers: negation, ordinals, the fraction, ranges *)

(** X4.  A leading negation word negates: when the remaining tokens do not
    start with a negation word themselves, the phrase parses to the
    opposite of what the remaining tokens parse to (the two copies of the
    parsing code in [parseNumberFromTokens] agree). *)
Theorem negation_word_negates (config : ParserLocaleConfig)
  (minusWord : jsstring) (rest : list jsstring) :
  includes (minus_words (markers config)) minusWord = true ->
  startsWithMinus config rest = false ->
  parseNumberFromTokens (minusWord :: rest) config
  = match parseNumberFromTokens rest config with
    | Some q => Some (- q)%Q
    | None => None
    end.
Proof.
  intros Hm Hr. unfold parseNumberFromTokens.
  cbn [startsWithMinus]. rewrite Hm. cbn [negb skipn].
  destruct rest as [|t r].
  - unfold findPointIndexInRange.
    destruct (truthy (firstWord (point_words (markers config)))
              && truthy (firstWord (and_words (markers config)))
              && optEqb (firstWord (point_words (markers config)))
                   (firstWord (and_words (markers config)))); reflexivity.
  - rewrite Hr. cbn [negb].
    destruct (findPointIndexInRange (t :: r) 0 (length (t :: r)) config) as [i|].
    + destruct (parseAroundPoint (t :: r) i config); reflexivity.
    + destruct (parseIntegerTokens (t :: r) config); reflexivity.
Qed.

Lemma negation_word_negates_witness :
  parseNumberFromTokens [js "minus"; js "five"]
    (buildParserLocaleConfig english false)
  = Some (- inject_Z 5)%Q.
Proof.
  rewrite (@negation_word_negates (buildParserLocaleConfig english false)
             (js "minus") [js "five"]); vm_compute; reflexivity.
Defined.

(** ** Ordinals *)






(** ** The fraction after the point *)

Lemma horner_bound (ds : list Z) : Forall isDigit ds -> forall a,
  (0 <= a)%Z ->
  (0 <= fold_left (fun acc d => (acc * 10 + d)%Z) ds a
   < (a + 1) * 10 ^ Z.of_nat (length ds))%Z.
Proof.
  induction 1 as [|d r Hd Hr IH]; intros a Ha.
  - simpl. lia.
  - cbn [fold_left length]. rewrite Nat2Z.inj_succ, Z.pow_succ_r by lia.
    unfold isDigit in Hd.
    destruct (IH (a * 10 + d)%Z ltac:(lia)) as [L U]. split; [exact L|].
    assert (P : (0 < 10 ^ Z.of_nat (length r))%Z)
      by (apply Z.pow_pos_nonneg; lia).
    nia.
Qed.

Lemma decimal_bound (config : ParserLocaleConfig) (tokens : list jsstring)
  (r : DecimalResult) (p : nat) :
  parseDecimalTokens tokens config = Some r ->
  dec_places r = Some p ->
  (0 <= dec_value r < 10 ^ Z.of_nat p)%Z.
Proof.
  unfold parseDecimalTokens. destruct tokens as [|first rest].
  - intros H Hp. injection H as <-. cbn [dec_places] in Hp.
    injection Hp as <-. cbn. lia.
  - match goal with |- context [if ?b then _ else _] => destruct b end.
    + rewrite decimalStr_fold. cbn [app]. rewrite length_map.
      pose proof (digitValues_digits config (first :: rest)) as Hd.
      remember (digitValues config (first :: rest)) as ds eqn:Eds.
      intros H Hp. injection H as <-. cbn [dec_places] in Hp.
      injection Hp as <-. cbn [dec_value]. unfold parseIntDigits.
      destruct (map digitChar ds) as [|c cs] eqn:Emap.
      * assert (P : (0 < 10 ^ Z.of_nat (length ds))%Z)
          by (apply Z.pow_pos_nonneg; lia). lia.
      * rewrite <- Emap, (parseInt_fold Hd).
        pose proof (horner_bound Hd (a := 0%Z) ltac:(lia)) as B. lia.
    + destruct (parseIntegerTokens (first :: rest) config) as [v|];
        cbn [bind]; [|discriminate].
      intros H Hp. injection H as <-. cbn [dec_value dec_places] in *.
      destruct (v =? 0)%Z eqn:Ev.
      * apply Z.eqb_eq in Ev. injection Hp as <-. cbn. lia.
      * apply Z.eqb_neq in Ev. unfold log10Places in Hp.
        destruct (v <? 0)%Z eqn:En; [discriminate|].
        apply Z.ltb_ge in En.
        destruct (@log10Places_spec v ltac:(lia)) as (p' & Ep & B).
        unfold log10Places in Ep. rewrite (proj2 (Z.ltb_ge v 0) En) in Ep.
        rewrite Hp in Ep. injection Ep as <-. lia.
Qed.

Lemma pow10_positive (p : nat) : (0 < pow10 p)%Q.
Proof.
  unfold pow10. change 0%Q with (inject_Z 0). rewrite <- Zlt_Qlt.
  apply Z.pow_pos_nonneg; lia.
Qed.

Lemma proper_fraction (v : Z) (p : nat) :
  (0 <= v < 10 ^ Z.of_nat p)%Z ->
  (0 <= inject_Z v / pow10 p)%Q /\ (inject_Z v / pow10 p < 1)%Q.
Proof.
  intros [L U]. split.
  - apply Qle_shift_div_l; [apply pow10_positive|].
    rewrite Qmult_0_l. change 0%Q with (inject_Z 0). rewrite <- Zle_Qle.
    exact L.
  - apply Qlt_shift_div_r; [apply pow10_positive|].
    rewrite Qmult_1_l. unfold pow10. rewrite <- Zlt_Qlt. exact U.
Qed.

(** X6.  The words after the point add at most one: for every compiled
    grammar without a negative number word, token sequence and position of
    the point, the integer part (the value of the tokens before the point,
    0 if there are none) is not negative, and when it is a safe integer
    below the largest and the decimal part has at most 14 places, the
    result lies between the integer part and the integer part plus one.
    The upper bound is reached: the sum is rounded to the nearest double,
    and "one thousand point nine nine ..." with fourteen nines is 1001. *)
Theorem fraction_is_proper (d : OriginalLocaleConfig) (cs : bool)
  (tokens : list jsstring) (pointIndex : nat) :
  wordsNonNegative (buildParserLocaleConfig d cs) = true ->
  exists integerPart decimalPart q,
    (if 0 <? length (slice tokens 0 pointIndex)
     then parseIntegerTokens (slice tokens 0 pointIndex)
            (buildParserLocaleConfig d cs)
     else Some 0%Z) = Some integerPart
    /\ parseDecimalTokens (skipn (pointIndex + 1) tokens)
         (buildParserLocaleConfig d cs) = Some decimalPart
    /\ parseAroundPoint tokens pointIndex (buildParserLocaleConfig d cs) = Some q
    /\ (0 <= integerPart)%Z
    /\ ((integerPart < MAX_SAFE_INTEGER)%Z ->
        (forall p, dec_places decimalPart = Some p -> p <= 14) ->
        (inject_Z integerPart <= q)%Q /\ (q <= inject_Z integerPart + 1)%Q).
Proof.
  intros Hn. set (config := buildParserLocaleConfig d cs) in *.
  assert (Hi : exists n,
            (if 0 <? length (slice tokens 0 pointIndex)
             then parseIntegerTokens (slice tokens 0 pointIndex) config
             else Some 0%Z) = Some n /\ (0 <= n)%Z).
  { destruct (0 <? length (slice tokens 0 pointIndex));
      [|exists 0%Z; split; [reflexivity|lia]].
    destruct (compiled_parse_total d cs (slice tokens 0 pointIndex))
      as (n & E & H).
    exists n. split; [assumption|].
    apply (IntegerValue_nonneg (compiled_scalesPositive d cs) Hn H). }
  destruct Hi as (n & Hi & Hn0). exists n.
  destruct (compiled_decimal_total d cs (skipn (pointIndex + 1) tokens))
    as (r & Er).
  fold config in Er. exists r. unfold parseAroundPoint. rewrite Hi, Er.
  cbn [bind].
  assert (Hself : (inject_Z n <= inject_Z n)%Q
                  /\ (inject_Z n <= inject_Z n + 1)%Q).
  { split; [apply Qle_refl|].
    change 1%Q with (inject_Z 1). rewrite <- inject_Z_plus, <- Zle_Qle. lia. }
  destruct (dec_places r) as [p|] eqn:Ep; cbn [placesPositive placesOr0].
  - destruct (0 <? p) eqn:E0.
    + eexists. split; [reflexivity|]. split; [reflexivity|].
      split; [reflexivity|]. split; [exact Hn0|]. intros Hmax Hp.
      unfold combineIntegerAndDecimal.
      destruct ((dec_value r =? 0)%Z || (p =? 0)); [exact Hself|].
      specialize (Hp p eq_refl).
      destruct (@proper_fraction _ _ (@decimal_bound _ _ _ _ Er Ep)) as [L U].
      unfold jsAdd, jsDiv. rewrite (@mathPow10_exact p ltac:(lia)).
      destruct (@fl_between (inject_Z (dec_value r) / pow10 p) 0 1
                  ltac:(lia) ltac:(unfold MAX_SAFE_INTEGER; lia) L
                  (Qlt_le_weak _ _ U)) as [L' U'].
      change (inject_Z 0) with 0%Q in L'. change (inject_Z 1) with 1%Q in U'.
      change 1%Q with (inject_Z 1). rewrite <- inject_Z_plus.
      apply fl_between; [exact Hn0 | lia | |].
      * rewrite <- (Qplus_0_r (inject_Z n)) at 1. apply Qplus_le_r. exact L'.
      * rewrite inject_Z_plus. apply Qplus_le_r. exact U'.
    + eexists. split; [reflexivity|]. split; [reflexivity|].
      split; [reflexivity|]. split; [exact Hn0|]. intros _ _. exact Hself.
  - eexists. split; [reflexivity|]. split; [reflexivity|].
    split; [reflexivity|]. split; [exact Hn0|]. intros _ _. exact Hself.
Qed.

Lemma fraction_is_proper_witness :
  parseAroundPoint
    ([js "one"; js "thousand"; js "point"]
     ++ repeat (js "nine") 14) 2 (buildParserLocaleConfig english false)
  = Some (inject_Z 1001).
Proof.
  destruct (@fraction_is_proper english false
              ([js "one"; js "thousand"; js "point"] ++ repeat (js "nine") 14) 2)
    as (i & r & q & Ei & Er & Eq & _ & H).
  - vm_compute. reflexivity.
  - vm_compute in Ei. injection Ei as <-.
    vm_compute in Er. injection Er as <-.
    destruct H as [_ H].
    + unfold MAX_SAFE_INTEGER. lia.
    + intros p Hp. cbn [dec_places] in Hp. injection Hp as <-. lia.
    + rewrite Eq. f_equal. vm_compute in Eq. injection Eq as <-. reflexivity.
Defined.

(** ** Ranges *)

(** X7.  The range parser used for currency amounts agrees with the general
    integer parser: for every compiled grammar, parsing the tokens from
    [start] to [stop] in place, [stop] being inside the array, gives what
    [parseIntegerTokens] gives on that slice of the array. *)
Theorem range_parser_is_parser_on_slice (d : OriginalLocaleConfig) (cs : bool)
  (tokens : list jsstring) (start stop : nat) :
  stop <= length tokens ->
  parseIntegerTokensInRange tokens start stop (buildParserLocaleConfig d cs)
  = parseIntegerTokens (slice tokens start stop) (buildParserLocaleConfig d cs).
Proof.
  intros _.
  destruct (compiled_range_total d cs tokens start stop) as (n & E & H).
  rewrite E. symmetry. apply parse_is. exact H.
Qed.

Lemma range_parser_is_parser_on_slice_witness :
  parseIntegerTokensInRange
    [js "minus"; js "two"; js "hundred"; js "and"; js "six"; js "dollars"] 1 5
    (buildParserLocaleConfig english false)
  = parseIntegerTokens [js "two"; js "hundred"; js "and"; js "six"]
      (buildParserLocaleConfig english false).
Proof.
  apply (@range_parser_is_parser_on_slice english false
           [js "minus"; js "two"; js "hundred"; js "and"; js "six"; js "dollars"]
           1 5).
  cbn [length]. lia.
Defined.


(* ================================================================== *)
(** * The first revision against the current engine *)

(** ** The recursive-descent integer parser *)

Section HighestScale.
Variable config : ParserLocaleConfig.

(** What the scan for the highest scale word has found after [tokens],
    started at index [i] with [hi] and [hv]. *)
Lemma highestStep_fold (tokens : list jsstring) : forall i hi hv,
  exists hi' hv',
    fold_left (FirstRevision.highestStep config) tokens (i, (hi, hv))
    = (i + length tokens, (hi', hv'))
    /\ ((hi' = hi /\ hv' = hv
         /\ forall k t v, nth_error tokens k = Some t ->
                          scaleNumber config t = Some v -> (v <= hv)%Z)
        \/ (exists j t,
              hi' = Some (i + j) /\ nth_error tokens j = Some t
              /\ scaleNumber config t = Some hv' /\ (hv < hv')%Z
              /\ (forall k t' v, k < j -> nth_error tokens k = Some t' ->
                    scaleNumber config t' = Some v -> (v < hv')%Z)
              /\ (forall k t' v, j < k -> nth_error tokens k = Some t' ->
                    scaleNumber config t' = Some v -> (v <= hv')%Z))).
Proof.
  induction tokens as [|t r IH]; intros i hi hv.
  - exists hi, hv. cbn. rewrite Nat.add_0_r. split; [reflexivity|].
    left. repeat split. intros [|k] ? ? H; discriminate.
  - cbn [fold_left FirstRevision.highestStep length].
    destruct (scaleNumber config t) as [number|] eqn:Es.
    + destruct (number >? hv)%Z eqn:Eg.
      * rewrite Z.gtb_ltb, Z.ltb_lt in Eg.
        destruct (IH (S i) (Some i) number) as (hi' & hv' & E & H).
        exists hi', hv'. rewrite E.
        split; [f_equal; lia|]. right.
        destruct H as [(-> & -> & Hall)|(j & t' & -> & Hn & Hs & Hlt & Hb & Ha)].
        -- exists 0, t. rewrite Nat.add_0_r.
           repeat split; try assumption; try reflexivity.
           ++ intros k ? ? Hk. lia.
           ++ intros [|k] t' v Hk Hn Hs; [lia|]. apply (Hall k t' v Hn Hs).
        -- exists (S j), t'.
           repeat split; try assumption.
           ++ f_equal. lia.
           ++ lia.
           ++ intros [|k] t'' v Hk Hn' Hs'.
              ** cbn in Hn'. inversion Hn'; subst. rewrite Es in Hs'.
                 inversion Hs'; subst. lia.
              ** apply (Hb k t'' v); [lia|assumption|assumption].
           ++ intros [|k] t'' v Hk Hn' Hs'; [lia|].
              apply (Ha k t'' v); [lia|assumption|assumption].
      * rewrite Z.gtb_ltb, Z.ltb_ge in Eg.
        destruct (IH (S i) hi hv) as (hi' & hv' & E & H).
        exists hi', hv'. rewrite E. split; [f_equal; lia|].
        destruct H as [(-> & -> & Hall)|(j & t' & -> & Hn & Hs & Hlt & Hb & Ha)].
        -- left. repeat split. intros [|k] t' v Hn Hs.
           ++ cbn in Hn. inversion Hn; subst. rewrite Es in Hs.
              inversion Hs; subst. exact Eg.
           ++ apply (Hall k t' v Hn Hs).
        -- right. exists (S j), t'.
           repeat split; try assumption.
           ++ f_equal. lia.
           ++ intros [|k] t'' v Hk Hn' Hs'.
              ** cbn in Hn'. inversion Hn'; subst. rewrite Es in Hs'.
                 inversion Hs'; subst. lia.
              ** apply (Hb k t'' v); [lia|assumption|assumption].
           ++ intros [|k] t'' v Hk Hn' Hs'; [lia|].
              apply (Ha k t'' v); [lia|assumption|assumption].
    + destruct (IH (S i) hi hv) as (hi' & hv' & E & H).
      exists hi', hv'. rewrite E. split; [f_equal; lia|].
      destruct H as [(-> & -> & Hall)|(j & t' & -> & Hn & Hs & Hlt & Hb & Ha)].
      * left. repeat split. intros [|k] t' v Hn Hs.
        -- cbn in Hn. inversion Hn; subst. congruence.
        -- apply (Hall k t' v Hn Hs).
      * right. exists (S j), t'.
        repeat split; try assumption.
        -- f_equal. lia.
        -- intros [|k] t'' v Hk Hn' Hs'.
           ++ cbn in Hn'. inversion Hn'; subst. congruence.
           ++ apply (Hb k t'' v); [lia|assumption|assumption].
        -- intros [|k] t'' v Hk Hn' Hs'; [lia|].
           apply (Ha k t'' v); [lia|assumption|assumption].
Qed.

Lemma findHighestScale_spec (tokens : list jsstring) :
  match FirstRevision.findHighestScale tokens config with
  | None =>
      forall k t v, nth_error tokens k = Some t ->
                    scaleNumber config t = Some v -> (v <= 0)%Z
  | Some (index, value) =>
      exists t,
        nth_error tokens index = Some t
        /\ scaleNumber config t = Some value /\ (0 < value)%Z
        /\ (forall k t' v, k < index -> nth_error tokens k = Some t' ->
              scaleNumber config t' = Some v -> (v < value)%Z)
        /\ (forall k t' v, index < k -> nth_error tokens k = Some t' ->
              scaleNumber config t' = Some v -> (v <= value)%Z)
  end.
Proof.
  unfold FirstRevision.findHighestScale.
  destruct (highestStep_fold tokens 0 None 0%Z) as (hi' & hv' & E & H).
  rewrite E.
  destruct H as [(-> & -> & Hall)|(j & t & -> & Hn & Hs & Hlt & Hb & Ha)].
  - exact Hall.
  - cbn [Nat.add]. exists t. repeat split; assumption.
Qed.

End HighestScale.

Lemma dedupe_In (l : list jsstring) : forall acc t,
  In t (fold_left str_add l acc) <-> In t acc \/ In t l.
Proof.
  induction l as [|w r IH]; intros acc t; cbn [fold_left].
  - cbn. tauto.
  - rewrite IH, str_add_In. cbn [In]. split.
    + intros [[H|H]|H]; auto.
    + intros [H|[H|H]]; auto.
Qed.

Lemma includes_dedupe (l : list jsstring) (t : jsstring) :
  includes (dedupe l) t = includes l t.
Proof.
  unfold dedupe.
  destruct (includes l t) eqn:E.
  - apply includes_In. apply dedupe_In. right. apply includes_In. exact E.
  - destruct (includes (fold_left str_add l []) t) eqn:E'; [|reflexivity].
    apply includes_In, dedupe_In in E'. destruct E' as [[]|E'].
    apply includes_In in E'. congruence.
Qed.

Lemma slice_from (A : Type) (l : list A) (i : nat) :
  slice l (S i) (length l) = skipn (i + 1) l.
Proof.
  unfold slice. rewrite Nat.add_1_r. apply firstn_all2.
  rewrite length_skipn. lia.
Qed.

Lemma Forall_slice (A : Type) (P : A -> Prop) (l : list A) (a b : nat) :
  Forall P l -> Forall P (slice l a b).
Proof.
  intros H. apply Forall_forall. intros x Hx.
  apply slice_In in Hx. destruct Hx as (i & _ & _ & Hi).
  rewrite Forall_forall in H. apply H. apply (nth_error_In _ _ Hi).
Qed.

Section RecursiveDescent.
Variable config : ParserLocaleConfig.
Hypothesis positive : scalesPositive config.
Hypothesis noDual : impliedDualWords config = [].
Hypothesis noPostfix : usesPostfixOne config = false.

Lemma recursive_sound : forall fuel tokens,
  length tokens < fuel ->
  exists n,
    FirstRevision.parseIntegerTokens_loop fuel tokens config = Some n
    /\ IntegerValue config
         (filter (fun token => negb (includes (and_words (markers config)) token))
            tokens) n.
Proof.
  set (keep := fun token => negb (includes (and_words (markers config)) token)).
  induction fuel as [|fuel IH]; intros tokens Hf; [lia|].
  cbn [FirstRevision.parseIntegerTokens_loop].
  destruct (length tokens =? 0) eqn:E0.
  { apply Nat.eqb_eq in E0. destruct tokens; [|discriminate].
    exists 0%Z. split; [reflexivity|]. apply IntegerValue_nil. }
  fold keep. set (ftoks := filter keep tokens).
  assert (Hlen : length ftoks <= length tokens) by apply filter_length_le.
  assert (Hkeep : Forall (fun x => keep x = true) ftoks) by apply filter_keeps.
  destruct (length ftoks =? 0) eqn:E1.
  { apply Nat.eqb_eq in E1. destruct ftoks; [|discriminate].
    exists 0%Z. split; [reflexivity|]. apply IntegerValue_nil. }
  pose proof (findHighestScale_spec config ftoks) as Hs.
  destruct (FirstRevision.findHighestScale ftoks config) as [[index m]|].
  - destruct Hs as (t & Hn & Hsc & Hpos & Hb & Ha).
    assert (Hi : index < length ftoks)
      by (apply nth_error_Some; congruence).
    assert (Hsplit : ftoks = slice ftoks 0 index ++ t :: skipn (index + 1) ftoks).
    { rewrite <- (slice_full ftoks) at 1.
      rewrite (slice_split ftoks (a := 0) (b := length ftoks) (Nat.le_0_l _) Hi Hn).
      rewrite slice_from. reflexivity. }
    set (l := slice ftoks 0 index) in *.
    set (r := skipn (index + 1) ftoks) in *.
    assert (Hll : length l = index)
      by (unfold l; rewrite slice_length; lia).
    assert (Hlr : length r < length ftoks)
      by (unfold r; rewrite length_skipn; lia).
    assert (Hbelow : scalesBelow config m l).
    { apply Forall_forall. intros x Hx v Hv. unfold l in Hx.
      apply slice_In in Hx. destruct Hx as (k & _ & Hk & Hnk).
      apply (Hb k x v Hk Hnk Hv). }
    assert (Hatmost : scalesAtMost config m r).
    { apply Forall_forall. intros x Hx v Hv. unfold r in Hx.
      rewrite <- slice_from in Hx.
      apply slice_In in Hx. destruct Hx as (k & Hk & _ & Hnk).
      apply (Ha k x v ltac:(lia) Hnk Hv). }
    assert (Hfl : filter keep l = l)
      by (apply filter_all; unfold l; apply Forall_slice; exact Hkeep).
    assert (Hfr : filter keep r = r).
    { apply filter_all. unfold r. rewrite <- slice_from.
      apply Forall_slice. exact Hkeep. }
    destruct (IH l ltac:(lia)) as (c & Ec & Vc). rewrite Hfl in Vc.
    destruct (IH r ltac:(lia)) as (rem & Er & Vr). rewrite Hfr in Vr.
    assert (Hbare : bareCoefficient config t = 1%Z)
      by (unfold bareCoefficient; rewrite noDual; reflexivity).
    assert (Hsup : suppresses config r = false)
      by (unfold suppresses; rewrite noPostfix; reflexivity).
    assert (Hrem : (if 0 <? length r
                    then FirstRevision.parseIntegerTokens_loop fuel r config
                    else Some 0%Z) = Some rem).
    { destruct (0 <? length r) eqn:E; [exact Er|].
      apply Nat.ltb_ge in E. destruct r as [|x r']; [|cbn in E; lia].
      f_equal. apply (IntegerValue_functional (IntegerValue_nil config) Vr). }
    rewrite Hrem. rewrite Hsplit.
    destruct (0 <? length l) eqn:El.
    + rewrite Ec. cbn [bind].
      exists (orOne c * m + rem)%Z. split; [reflexivity|].
      apply IV_coef; try assumption.
      apply Nat.ltb_lt in El. destruct l; [cbn in El; lia|discriminate].
    + cbn [bind]. apply Nat.ltb_ge in El.
      destruct l as [|x l']; [|cbn in El; lia].
      exists (1 * m + rem)%Z. split; [reflexivity|].
      cbn [app]. rewrite <- Hbare. apply IV_bare; assumption.
  - exists (sumTokens config ftoks). split; [reflexivity|].
    apply IV_sum. apply Forall_forall. intros x Hx.
    destruct (scaleNumber config x) as [v|] eqn:Ev; [|reflexivity].
    apply In_nth_error in Hx. destruct Hx as (k & Hk).
    pose proof (Hs k x v Hk Ev) as Hle.
    pose proof (positive v (scaleNumber_has _ _ Ev)). lia.
Qed.

End RecursiveDescent.

(** X8.  The recursive-descent integer parser of the first revision and the
    array-based parser of the current engine return the same value on every
    token sequence, for every compiled grammar that has no implied-dual
    word and does not use postfix one (the two features added since). *)
Theorem first_revision_parser_agrees (d : OriginalLocaleConfig) (cs : bool)
  (tokens : list jsstring) :
  impliedDualWords (buildParserLocaleConfig d cs) = [] ->
  usesPostfixOne (buildParserLocaleConfig d cs) = false ->
  FirstRevision.parseIntegerTokens tokens (buildParserLocaleConfig d cs)
  = parseIntegerTokens tokens (buildParserLocaleConfig d cs).
Proof.
  intros Hd Hp. unfold FirstRevision.parseIntegerTokens.
  destruct (@recursive_sound _ (compiled_scalesPositive d cs) Hd Hp
              (S (length tokens)) tokens ltac:(lia))
    as (n & E & V).
  rewrite E. symmetry. apply parse_is. unfold ParsesInteger.
  assert (Hf : filter (notAnd (buildParserLocaleConfig d cs)) tokens
               = filter (fun token =>
                           negb (includes
                                   (and_words (markers (buildParserLocaleConfig d cs)))
                                   token)) tokens).
  { apply filter_ext. intros t. unfold notAnd.
    cbn [andWordsSet markers and_words buildParserLocaleConfig].
    f_equal. apply (includes_dedupe _ t). }
  rewrite Hf. exact V.
Qed.

Lemma first_revision_parser_agrees_witness :
  FirstRevision.parseIntegerTokens
    [js "two"; js "hundred"; js "and"; js "six"]
    (buildParserLocaleConfig english false)
  = parseIntegerTokens [js "two"; js "hundred"; js "and"; js "six"]
      (buildParserLocaleConfig english false).
Proof.
  apply (@first_revision_parser_agrees english false
           [js "two"; js "hundred"; js "and"; js "six"]);
    vm_compute; reflexivity.
Defined.

(* ================================================================== *)
(** ** Input cleaning and validation *)

Lemma isJsSpace_32 (c : N) : (c =? 32)%N = true -> isJsSpace c = true.
Proof. intros H. apply N.eqb_eq in H. subst. reflexivity. Qed.

Lemma fast_path_sound (t : jsstring) : forall b,
  onlyPlainSpaces t -> needsCleaning b t = false ->
  collapseSpaces b t = t /\ stripPunct t = t.
Proof.
  induction t as [|c r IH]; intros b Hp Hn; [split; reflexivity|].
  inversion Hp as [|? ? Hc Hr]; subst.
  cbn [needsCleaning] in Hn. cbn [collapseSpaces stripPunct].
  destruct (c =? 32)%N eqn:E32.
  - rewrite (isJsSpace_32 _ E32).
    assert (Hpc : isPunct c = false)
      by (apply N.eqb_eq in E32; subst; reflexivity).
    rewrite Hpc. cbn [andb].
    destruct b; [discriminate|].
    destruct (IH true Hr Hn) as (H1 & H2).
    apply N.eqb_eq in E32. subst c. rewrite H1, H2. split; reflexivity.
  - assert (Hsp : isJsSpace c = false).
    { destruct (isJsSpace c) eqn:E; [|reflexivity].
      rewrite (Hc eq_refl) in E32. discriminate. }
    rewrite Hsp.
    assert (Hn' : needsCleaning false r = false
                  /\ (isPunct c
                      && match r with [] => true | d :: _ => isJsSpace d end)
                     = false).
    { fold (isPunct c) in Hn. destruct (isPunct c).
      - destruct r as [|d r']; [discriminate|].
        destruct (d =? 32)%N eqn:Ed; [discriminate|].
        split; [exact Hn|]. cbn [andb].
        inversion Hr as [|? ? Hd _]; subst.
        destruct (isJsSpace d) eqn:E; [|reflexivity].
        rewrite (Hd eq_refl) in Ed. discriminate.
      - split; [exact Hn | reflexivity]. }
    destruct Hn' as (Hn1 & Hn2). rewrite Hn2.
    destruct (IH false Hr Hn1) as (H1 & H2). rewrite H1, H2.
    split; reflexivity.
Qed.

Lemma collapse_plain (l : jsstring) : forall b,
  onlyPlainSpaces (collapseSpaces b l).
Proof.
  induction l as [|c r IH]; intros b; [constructor|].
  cbn [collapseSpaces]. destruct (isJsSpace c) eqn:E.
  - destruct b; [apply IH|]. constructor; [reflexivity|apply IH].
  - constructor; [congruence|apply IH].
Qed.

Lemma stripPunct_plain (l : jsstring) :
  onlyPlainSpaces l -> onlyPlainSpaces (stripPunct l).
Proof.
  induction 1 as [|c r Hc Hr IH]; [constructor|].
  cbn [stripPunct].
  destruct (isPunct c && match r with [] => true | d :: _ => isJsSpace d end);
    [exact IH|].
  constructor; assumption.
Qed.

(** X9.  The fast path added to [cleanInput] is the first revision's
    [cleanInput] (trim, collapse whitespace runs, strip sentence
    punctuation) exactly on the strings whose trimmed form either needs
    cleaning by the fast path's own test or has no whitespace character
    other than U+0020: on the others (a tab or a line break inside, nothing
    else to clean) the current function returns the trimmed input
    unchanged where the first revision replaced the whitespace. *)
Theorem cleanInput_fast_path (s : jsstring) :
  cleanInput (JString s) = FirstRevision.cleanInput (JString s)
  <-> needsCleaning false (trim s) = true \/ onlyPlainSpaces (trim s).
Proof.
  destruct s as [|c r].
  - split; [|reflexivity]. intros _. right. constructor.
  - cbn [cleanInput FirstRevision.cleanInput].
    destruct (needsCleaning false (trim (c :: r))) eqn:En; cbn [negb].
    + split; [auto | reflexivity].
    + split.
      * intros H. right. rewrite H.
        apply stripPunct_plain, collapse_plain.
      * intros [H|H]; [discriminate|].
        destruct (@fast_path_sound _ false H En) as (H1 & H2).
        rewrite H1, H2. reflexivity.
Qed.

Lemma cleanInput_fast_path_witness :
  cleanInput (text "one  two.") = FirstRevision.cleanInput (text "one  two.")
  /\ cleanInput (text "one two") = FirstRevision.cleanInput (text "one two")
  /\ cleanInput (JString (js "one" ++ 9%N :: js "two"))
     <> FirstRevision.cleanInput (JString (js "one" ++ 9%N :: js "two")).
Proof.
  split; [|split].
  - apply (proj2 (cleanInput_fast_path (js "one  two."))).
    left. vm_compute. reflexivity.
  - apply (proj2 (cleanInput_fast_path (js "one two"))).
    right. vm_compute. repeat constructor; discriminate.
  - intros H.
    apply (proj1 (cleanInput_fast_path (js "one" ++ 9%N :: js "two"))) in H.
    destruct H as [H|H]; [vm_compute in H; discriminate|].
    vm_compute in H.
    repeat match goal with
           | H : Forall _ (_ :: _) |- _ => inversion H; clear H; subst
           end.
    match goal with
    | H : _ = true -> 9%N = 32%N |- _ => specialize (H eq_refl); discriminate
    end.
Defined.

Lemma trim_nonspace (s : jsstring) :
  trim s <> [] -> exists c, In c s /\ isJsSpace c = false.
Proof.
  intros H. destruct (trim s) as [|c r] eqn:E; [congruence|].
  exists c. split.
  - unfold trim in E. destruct (trimEnd_prefix (trimStart s)) as (w & Hw).
    rewrite E in Hw. destruct (dropWhile_suffix isJsSpace s) as (w' & Hw').
    fold (trimStart s) in Hw'. rewrite Hw', Hw.
    apply in_or_app. right. left. reflexivity.
  - pose proof (trim_tight s) as (Ht & _). rewrite E in Ht.
    unfold trimStart in Ht. cbn [dropWhile] in Ht.
    destruct (isJsSpace c) eqn:Ec; [|reflexivity].
    pose proof (dropWhile_length isJsSpace r) as Hl.
    rewrite Ht in Hl. cbn [length] in Hl. lia.
Qed.

Lemma ascii_is_js_space (c : N) : isAsciiSpace c = true -> isJsSpace c = true.
Proof.
  unfold isAsciiSpace. rewrite !orb_true_iff, !N.eqb_eq.
  intros [[[->| ->]| ->]| ->]; reflexivity.
Qed.

Lemma stripPunct_nonempty (l : jsstring) : stripPunct l <> [] -> l <> [].
Proof. destruct l; [cbn; congruence | discriminate]. Qed.

Lemma collapse_nonempty (l : jsstring) (b : bool) :
  collapseSpaces b l <> [] -> l <> [].
Proof. destruct l; [cbn; congruence | discriminate]. Qed.

(** X10.  The character loop that replaced the first revision's
    [isValidInput] (the cleaned input is not empty) accepts every input the
    first revision accepted; the converse fails, a lone full stop being
    valid now and invalid then. *)
Theorem isValidInput_accepts_more :
  (forall input,
     FirstRevision.isValidInput input = true -> isValidInput input = true)
  /\ isValidInput (text ".") = true
  /\ FirstRevision.isValidInput (text ".") = false.
Proof.
  split; [|split; reflexivity].
  intros [| | b | z | s]; try discriminate.
  unfold FirstRevision.isValidInput, FirstRevision.cleanInput.
  destruct s as [|c r]; [discriminate|].
  intros H. apply Nat.ltb_lt in H.
  assert (Hne : trim (c :: r) <> []).
  { apply (@collapse_nonempty (trim (c :: r)) false), stripPunct_nonempty.
    destruct (stripPunct (collapseSpaces false (trim (c :: r))));
      [cbn in H; lia | discriminate]. }
  destruct (@trim_nonspace _ Hne) as (x & Hin & Hx).
  unfold isValidInput. apply existsb_exists. exists x. split; [exact Hin|].
  destruct (isAsciiSpace x) eqn:E; [|reflexivity].
  apply ascii_is_js_space in E. congruence.
Qed.

Lemma isValidInput_accepts_more_witness :
  isValidInput (text "one hundred.") = true.
Proof.
  apply (proj1 isValidInput_accepts_more). vm_compute. reflexivity.
Defined.


(* ================================================================== *)
(** * The tokenizers *)

(** ** [tokenize] keeps the letters *)

Lemma letters_app (a b : jsstring) : letters (a ++ b) = letters a ++ letters b.
Proof. apply filter_app. Qed.

Lemma letters_dropWhile (p : N -> bool) (s : jsstring) :
  (forall c, p c = true -> isJsSpace c = true) ->
  letters (dropWhile p s) = letters s.
Proof.
  intros Hp. induction s as [|c r IH]; [reflexivity|].
  cbn [dropWhile]. destruct (p c) eqn:E; [|reflexivity].
  rewrite IH. unfold letters at 2. cbn [filter]. unfold separator.
  rewrite (Hp c E). reflexivity.
Qed.

Lemma letters_rev (s : jsstring) : letters (rev s) = rev (letters s).
Proof.
  induction s as [|c r IH]; [reflexivity|].
  cbn [rev]. rewrite letters_app, IH. unfold letters. cbn [filter].
  destruct (negb (separator c)); [reflexivity|].
  cbn [rev app]. apply app_nil_r.
Qed.

Lemma letters_trim (s : jsstring) : letters (trim s) = letters s.
Proof.
  unfold trim, trimEnd, trimStart.
  rewrite letters_rev, letters_dropWhile by auto.
  rewrite letters_rev, rev_involutive.
  apply letters_dropWhile. auto.
Qed.

Lemma startsWith_split (p : jsstring) : forall s,
  startsWith s p = true -> s = p ++ skipn (length p) s.
Proof.
  induction p as [|x p IH]; intros s H; [reflexivity|].
  destruct s as [|y s]; [discriminate|].
  cbn [startsWith] in H. apply andb_true_iff in H. destruct H as [H1 H2].
  apply N.eqb_eq in H1. subst. cbn [length skipn app]. f_equal. apply IH, H2.
Qed.

Lemma startsWith_app (p rest : jsstring) : startsWith (p ++ rest) p = true.
Proof.
  induction p as [|x p IH]; [apply startsWith_nil|].
  cbn. rewrite N.eqb_refl. exact IH.
Qed.

Lemma takeWord_split (s : jsstring) :
  s = takeWord s ++ skipn (length (takeWord s)) s.
Proof.
  induction s as [|c r IH]; [reflexivity|].
  cbn [takeWord]. destruct (isAsciiSpace c); [reflexivity|].
  cbn [length skipn app]. f_equal. exact IH.
Qed.

Lemma concat_nonEmpty (l : list jsstring) :
  concat (filter nonEmpty l) = concat l.
Proof.
  induction l as [|w r IH]; [reflexivity|].
  cbn [filter concat]. destruct w as [|c w]; cbn [nonEmpty]; [exact IH|].
  cbn [concat]. rewrite IH. reflexivity.
Qed.

Lemma letters_splitHyphen (w : jsstring) :
  letters (concat (splitHyphen w)) = letters w.
Proof.
  induction w as [|c r IH]; [reflexivity|].
  cbn [splitHyphen]. destruct (c =? 45)%N eqn:E.
  - cbn [concat app]. rewrite IH. unfold letters at 2. cbn [filter].
    unfold separator. rewrite E, orb_true_r. reflexivity.
  - destruct (splitHyphen r) as [|w ws] eqn:Es.
    + cbn in IH. cbn [concat app]. unfold letters in *. cbn [filter].
      rewrite <- IH. reflexivity.
    + cbn [concat] in *. cbn [app]. unfold letters in *. cbn [filter].
      rewrite IH. reflexivity.
Qed.

Lemma filter_nonEmpty_all (l : list jsstring) :
  Forall (fun t => t <> []) (filter nonEmpty l).
Proof.
  apply Forall_forall. intros x Hx. apply filter_In in Hx.
  destruct Hx as [_ Hx]. destruct x; [discriminate|discriminate].
Qed.

Lemma takeWord_head (c : N) (r : jsstring) :
  isAsciiSpace c = false -> takeWord (c :: r) = c :: takeWord r.
Proof. intros H. cbn [takeWord]. rewrite H. reflexivity. Qed.

Lemma printable_not_space (c : N) :
  (14 <= c <= 159)%N -> c <> 32%N -> isJsSpace c = false.
Proof.
  intros Hc Hn. unfold isJsSpace.
  replace (c <=? 13)%N with false by (symmetry; apply N.leb_gt; lia).
  replace (8192 <=? c)%N with false by (symmetry; apply N.leb_gt; lia).
  replace (c =? 32)%N with false by (symmetry; apply N.eqb_neq; lia).
  replace (c =? 160)%N with false by (symmetry; apply N.eqb_neq; lia).
  replace (c =? 5760)%N with false by (symmetry; apply N.eqb_neq; lia).
  replace (c =? 8232)%N with false by (symmetry; apply N.eqb_neq; lia).
  replace (c =? 8233)%N with false by (symmetry; apply N.eqb_neq; lia).
  replace (c =? 8239)%N with false by (symmetry; apply N.eqb_neq; lia).
  replace (c =? 8287)%N with false by (symmetry; apply N.eqb_neq; lia).
  replace (c =? 12288)%N with false by (symmetry; apply N.eqb_neq; lia).
  replace (c =? 65279)%N with false by (symmetry; apply N.eqb_neq; lia).
  rewrite andb_false_r. reflexivity.
Qed.

Lemma lowerUnit_cases (c : N) :
  lowerUnit c = c
  \/ ((65 <= c <= 90)%N /\ lowerUnit c = (c + 32)%N).
Proof.
  unfold lowerUnit. destruct ((65 <=? c)%N && (c <=? 90)%N) eqn:E; [|auto].
  apply andb_true_iff in E. destruct E as [E1 E2].
  apply N.leb_le in E1, E2. right. split; [lia|reflexivity].
Qed.

Lemma isJsSpace_lowerUnit (c : N) : isJsSpace (lowerUnit c) = isJsSpace c.
Proof.
  destruct (lowerUnit_cases c) as [->|(Hc & ->)]; [reflexivity|].
  rewrite !printable_not_space by lia. reflexivity.
Qed.

Lemma separator_lowerUnit (c : N) : separator (lowerUnit c) = separator c.
Proof.
  unfold separator. rewrite isJsSpace_lowerUnit. f_equal.
  destruct (lowerUnit_cases c) as [->|(Hc & ->)]; [reflexivity|].
  replace (c + 32 =? 45)%N with false by (symmetry; apply N.eqb_neq; lia).
  symmetry. apply N.eqb_neq. lia.
Qed.

Lemma tokenizeWithPhrases_loop_letters (wordMap : WordNumberMap)
  (phrases : list jsstring) :
  forall fuel rest tokens result,
  tokenizeWithPhrases_loop fuel wordMap phrases rest tokens = Some result ->
  letters (concat result) = letters (concat tokens) ++ letters rest
  /\ (Forall (fun t => t <> []) tokens -> Forall (fun t => t <> []) result).
Proof.
  induction fuel as [|fuel IH]; intros rest tokens result H; [discriminate|].
  cbn [tokenizeWithPhrases_loop] in H.
  rewrite <- (letters_dropWhile isAsciiSpace rest ascii_is_js_space).
  destruct (dropWhile isAsciiSpace rest) as [|c r] eqn:Ed.
  - inversion H; subst. cbn. rewrite app_nil_r. auto.
  - pose proof (dropWhile_head _ _ Ed) as Hc.
    destruct (find (phraseMatches (c :: r)) phrases) as [phrase|] eqn:Ef.
    + apply find_some in Ef. destruct Ef as [_ Hm].
      unfold phraseMatches in Hm. apply andb_true_iff in Hm.
      destruct Hm as [Hs Hb].
      apply IH in H. destruct H as [H1 H2].
      rewrite concat_app, letters_app in H1. cbn [concat] in H1.
      rewrite app_nil_r in H1.
      split.
      * rewrite H1, <- app_assoc, <- letters_app, <- (startsWith_split _ _ Hs).
        reflexivity.
      * intros Ht. apply H2. apply Forall_app. split; [exact Ht|].
        constructor; [|constructor].
        intros ->. cbn in Hb. congruence.
    + pose proof (takeWord_split (c :: r)) as Hw.
      assert (Hne : takeWord (c :: r) <> [])
        by (rewrite (@takeWord_head c r Hc); discriminate).
      destruct (map_has wordMap (takeWord (c :: r))).
      * apply IH in H. destruct H as [H1 H2].
        rewrite concat_app, letters_app in H1. cbn [concat] in H1.
        rewrite app_nil_r in H1.
        split.
        -- rewrite H1, <- app_assoc, <- letters_app, <- Hw. reflexivity.
        -- intros Ht. apply H2. apply Forall_app. split; [exact Ht|].
           constructor; [exact Hne|constructor].
      * destruct (includesHyphen (takeWord (c :: r))).
        -- apply IH in H. destruct H as [H1 H2].
           rewrite concat_app, letters_app, concat_nonEmpty,
             letters_splitHyphen in H1.
           split.
           ++ rewrite H1, <- app_assoc, <- letters_app, <- Hw. reflexivity.
           ++ intros Ht. apply H2. apply Forall_app. split; [exact Ht|].
              apply filter_nonEmpty_all.
        -- destruct (takeWord (c :: r)) as [|x w] eqn:Et; [congruence|].
           cbn [nonEmpty] in H. apply IH in H. destruct H as [H1 H2].
           rewrite concat_app, letters_app in H1. cbn [concat] in H1.
           rewrite app_nil_r in H1.
           split.
           ++ rewrite H1, <- app_assoc, <- letters_app, <- Hw. reflexivity.
           ++ intros Ht. apply H2. apply Forall_app. split; [exact Ht|].
              constructor; [discriminate|constructor].
Qed.

Lemma splitWords_letters (s : jsstring) : forall cur,
  letters (concat (splitWords cur s)) = letters (cur ++ s)
  /\ Forall (fun t => t <> []) (splitWords cur s).
Proof.
  induction s as [|c r IH]; intros cur.
  - cbn [splitWords]. rewrite app_nil_r.
    destruct cur as [|x cur]; cbn; [auto|].
    rewrite app_nil_r. split; [reflexivity|].
    constructor; [discriminate|constructor].
  - cbn [splitWords]. destruct (isJsSpace c) eqn:E.
    + destruct (IH []) as [H1 H2]. rewrite concat_app, !letters_app, H1.
      cbn [app]. split.
      * replace (letters (c :: r)) with (letters r)
          by (unfold letters; cbn [filter]; unfold separator; rewrite E;
              reflexivity).
        f_equal. destruct cur; cbn; [reflexivity|]. rewrite app_nil_r.
        reflexivity.
      * apply Forall_app. split; [|exact H2].
        destruct cur; cbn; constructor; [discriminate|constructor].
    + destruct (IH (cur ++ [c])) as [H1 H2]. rewrite <- app_assoc in H1.
      split; assumption.
Qed.

Lemma flat_map_hyphen (l : list jsstring) :
  Forall (fun t => t <> []) l ->
  letters (concat (flat_map
                     (fun token =>
                        if includesHyphen token
                        then filter nonEmpty (splitHyphen token)
                        else [token]) l))
  = letters (concat l)
  /\ Forall (fun t => t <> [])
       (flat_map
          (fun token =>
             if includesHyphen token
             then filter nonEmpty (splitHyphen token)
             else [token]) l).
Proof.
  induction 1 as [|t r Ht Hr IH]; [split; [reflexivity|constructor]|].
  destruct IH as [H1 H2].
  cbn [flat_map concat]. rewrite concat_app, !letters_app, H1. split.
  - f_equal. destruct (includesHyphen t).
    + rewrite concat_nonEmpty. apply letters_splitHyphen.
    + cbn. rewrite app_nil_r. reflexivity.
  - apply Forall_app. split; [|exact H2].
    destruct (includesHyphen t); [apply filter_nonEmpty_all|].
    constructor; [exact Ht|constructor].
Qed.

(** X11.  On an input that is not case-folded, or whose code units are all
    below 128, [tokenize] returns, loses no character other than whitespace
    and hyphens, invents none and keeps their order: the letters of the
    tokens, read in order, are the letters of the input (lower-cased unless
    case matters).  No token is empty. *)
Theorem tokenize_keeps_letters (input : jsstring) (options : TokenizerOptions) :
  caseSensitiveOf options = true \/ asciiString input = true ->
  exists tokens,
    tokenize input options = Some tokens
    /\ letters (concat tokens)
       = letters (if negb (caseSensitiveOf options)
                  then toLowerCase input else input)
    /\ Forall (fun t => t <> []) tokens.
Proof.
  intros _. unfold tokenize. fold (caseSensitiveOf options).
  destruct input as [|c s].
  - exists []. split; [reflexivity|]. split; [|constructor].
    destruct (negb (caseSensitiveOf options)); reflexivity.
  - set (text := if negb (caseSensitiveOf options)
                 then toLowerCase (trim (c :: s)) else trim (c :: s)).
    assert (Ht : letters text
                 = letters (if negb (caseSensitiveOf options)
                            then toLowerCase (c :: s) else c :: s)).
    { unfold text. destruct (negb (caseSensitiveOf options)).
      - unfold toLowerCase, letters.
        assert (Hl : forall l : jsstring,
                  filter (fun c => negb (separator c)) (map lowerUnit l)
                  = map lowerUnit (filter (fun c => negb (separator c)) l)).
        { induction l as [|x l IHl]; [reflexivity|]. cbn [map filter].
          rewrite separator_lowerUnit.
          destruct (negb (separator x)); cbn [map]; rewrite IHl; reflexivity. }
        rewrite !Hl. fold (letters (trim (c :: s))).
        rewrite letters_trim. reflexivity.
      - apply letters_trim. }
    destruct (tk_wordMap options) as [wordMap|].
    + unfold tokenizeWithPhrases.
      destruct (@tokenizeWithPhrases_loop_total wordMap
                  (match tk_sortedPhrases options with Some l => l | None => [] end)
                  (S (length text)) text [] ltac:(lia))
        as (result & E).
      exists result. split; [exact E|].
      destruct (tokenizeWithPhrases_loop_letters _ _ _ _ _ E) as [H1 H2].
      split; [rewrite H1, <- Ht; reflexivity | apply H2; constructor].
    + eexists. split; [reflexivity|].
      destruct (splitWords_letters text []) as [H1 H2].
      destruct (flat_map_hyphen H2) as [H3 H4].
      split; [rewrite H3, H1, <- Ht; reflexivity | exact H4].
Qed.

Lemma tokenize_keeps_letters_witness :
  exists tokens,
    tokenize (js " Twenty-One  Hundred ")
      {| tk_caseSensitive := None; tk_wordMap := None;
         tk_sortedPhrases := None |} = Some tokens
    /\ letters (concat tokens) = js "twentyonehundred".
Proof.
  destruct (@tokenize_keeps_letters (js " Twenty-One  Hundred ")
              {| tk_caseSensitive := None; tk_wordMap := None;
                 tk_sortedPhrases := None |})
    as (tokens & E & Hl & _).
  - right. vm_compute. reflexivity.
  - exists tokens. split; [exact E|]. rewrite Hl. vm_compute. reflexivity.
Defined.


(* ================================================================== *)
(** ** The sorted word lists of a compiled grammar *)

Section Sorting.
Variable A : Type.
Variable cmp : A -> A -> Z.
Hypothesis cmp_total : forall x y, (0 < cmp y x)%Z -> (cmp x y <= 0)%Z.
Hypothesis cmp_trans :
  forall x y z, (cmp x y <= 0)%Z -> (cmp y z <= 0)%Z -> (cmp x z <= 0)%Z.

Lemma sort_insert_mem (x y : A) (l : list A) :
  In y (sort_insert cmp x l) <-> y = x \/ In y l.
Proof.
  induction l as [|z r IH]; cbn [sort_insert].
  - cbn. intuition.
  - destruct (cmp z x <=? 0)%Z; cbn [In]; [rewrite IH|]; intuition.
Qed.

Lemma sort_insert_ordered (x : A) (l : list A) :
  ordered cmp l -> ordered cmp (sort_insert cmp x l).
Proof.
  induction l as [|y r IH]; intros Ho; cbn [sort_insert].
  - cbn. auto.
  - destruct Ho as [Hy Hr]. destruct (cmp y x <=? 0)%Z eqn:E.
    + apply Z.leb_le in E. cbn [ordered]. split; [|apply IH, Hr].
      apply Forall_forall. intros z Hz. apply sort_insert_mem in Hz.
      destruct Hz as [->|Hz]; [exact E|].
      rewrite Forall_forall in Hy. apply Hy, Hz.
    + apply Z.leb_gt in E. cbn [ordered]. split; [|split; assumption].
      assert (Hxy : (cmp x y <= 0)%Z) by (apply cmp_total; lia).
      constructor; [exact Hxy|].
      apply Forall_forall. intros z Hz. rewrite Forall_forall in Hy.
      apply (cmp_trans Hxy (Hy z Hz)).
Qed.

Lemma sort_fold (l : list A) : forall acc,
  ordered cmp acc ->
  ordered cmp (fold_left (fun acc x => sort_insert cmp x acc) l acc)
  /\ forall y, In y (fold_left (fun acc x => sort_insert cmp x acc) l acc)
               <-> In y acc \/ In y l.
Proof.
  induction l as [|x r IH]; intros acc Ho; cbn [fold_left].
  - split; [exact Ho|]. cbn. intuition.
  - destruct (IH (sort_insert cmp x acc) (sort_insert_ordered x acc Ho))
      as [H1 H2].
    split; [exact H1|]. intros y. rewrite H2, sort_insert_mem. cbn [In].
    intuition.
Qed.

Lemma sort_ordered (l : list A) :
  ordered cmp (sort cmp l) /\ forall y, In y (sort cmp l) <-> In y l.
Proof.
  unfold sort. destruct (sort_fold l [] I) as [H1 H2].
  split; [exact H1|]. intros y. rewrite H2. cbn. intuition.
Qed.

End Sorting.

Lemma ordered_filter (A : Type) (cmp : A -> A -> Z) (f : A -> bool)
  (l : list A) :
  ordered cmp l -> ordered cmp (filter f l).
Proof.
  induction l as [|x r IH]; intros Ho; [exact I|].
  destruct Ho as [Hx Hr]. cbn [filter]. destruct (f x).
  - cbn [ordered]. split; [|apply IH, Hr].
    apply Forall_forall. intros y Hy. apply filter_In in Hy.
    rewrite Forall_forall in Hx. apply Hx. tauto.
  - apply IH, Hr.
Qed.

Lemma lengthOrder_total (x y : jsstring) :
  (0 < lengthOrder y x)%Z -> (lengthOrder x y <= 0)%Z.
Proof. unfold lengthOrder. lia. Qed.

Lemma lengthOrder_trans (x y z : jsstring) :
  (lengthOrder x y <= 0)%Z -> (lengthOrder y z <= 0)%Z ->
  (lengthOrder x z <= 0)%Z.
Proof. unfold lengthOrder. lia. Qed.

Lemma phraseOrder_cases (a b : jsstring) :
  (phraseOrder a b <= 0)%Z
  <-> splitWsLength b < splitWsLength a
      \/ (splitWsLength b = splitWsLength a /\ length b <= length a).
Proof.
  unfold phraseOrder.
  destruct (Z.of_nat (splitWsLength b) =? Z.of_nat (splitWsLength a))%Z eqn:E;
    cbn [negb].
  - apply Z.eqb_eq in E. lia.
  - apply Z.eqb_neq in E. lia.
Qed.

Lemma phraseOrder_total (x y : jsstring) :
  (0 < phraseOrder y x)%Z -> (phraseOrder x y <= 0)%Z.
Proof.
  intros H. apply phraseOrder_cases.
  assert (H' : ~ (phraseOrder y x <= 0)%Z) by lia.
  rewrite phraseOrder_cases in H'. lia.
Qed.

Lemma phraseOrder_trans (x y z : jsstring) :
  (phraseOrder x y <= 0)%Z -> (phraseOrder y z <= 0)%Z ->
  (phraseOrder x z <= 0)%Z.
Proof. rewrite !phraseOrder_cases. lia. Qed.

(** X12.  The word lists a compiled grammar hands to the tokenizers are in
    the order the matching loops rely on.  [sortedConcatenatedWords] holds
    exactly the number words and the special words, and no word in it is
    followed by a longer one; [multiWordPhrases] holds exactly the number
    words that contain a space, and no phrase in it is followed by one of
    more words, or of as many words and greater length. *)
Theorem compiled_word_lists_are_sorted (d : OriginalLocaleConfig) (cs : bool) :
  (forall w,
     In w (sortedConcatenatedWords (buildParserLocaleConfig d cs))
     <-> In w (map_keys (wordToNumber (buildParserLocaleConfig d cs)))
         \/ In w (specialWords (buildParserLocaleConfig d cs)))
  /\ ordered lengthOrder (sortedConcatenatedWords (buildParserLocaleConfig d cs))
  /\ (forall w,
        In w (multiWordPhrases (buildParserLocaleConfig d cs))
        <-> In w (map_keys (wordToNumber (buildParserLocaleConfig d cs)))
            /\ includesSpace w = true)
  /\ ordered phraseOrder (multiWordPhrases (buildParserLocaleConfig d cs)).
Proof.
  cbn [sortedConcatenatedWords multiWordPhrases wordToNumber specialWords
       buildParserLocaleConfig].
  split; [|split; [|split]].
  - intros w.
    rewrite (proj2 (@sort_ordered _ lengthOrder lengthOrder_total lengthOrder_trans _)).
    apply in_app_iff.
  - apply (@sort_ordered _ lengthOrder lengthOrder_total lengthOrder_trans).
  - intros w. rewrite filter_In.
    rewrite (proj2 (@sort_ordered _ phraseOrder phraseOrder_total phraseOrder_trans _)).
    reflexivity.
  - apply ordered_filter.
    apply (@sort_ordered _ phraseOrder phraseOrder_total phraseOrder_trans).
Qed.

(* ================================================================== *)
(** ** Longest match in space-free grammars *)

Lemma find_first_longest (f : jsstring -> bool) (l : list jsstring)
  (w : jsstring) :
  ordered lengthOrder l -> find f l = Some w ->
  forall w', In w' l -> f w' = true -> length w' <= length w.
Proof.
  induction l as [|x r IH]; intros Ho Hf w' Hin Hw'; [discriminate|].
  destruct Ho as [Hx Hr]. cbn [find] in Hf. destruct (f x) eqn:E.
  - inversion Hf; subst. destruct Hin as [->|Hin]; [lia|].
    rewrite Forall_forall in Hx. specialize (Hx w' Hin).
    unfold lengthOrder in Hx. lia.
  - destruct Hin as [->|Hin]; [congruence|].
    apply (IH Hr Hf w' Hin Hw').
Qed.

Lemma tokenizeConcatenated_loop_greedy (words : list jsstring) :
  ordered lengthOrder words -> ~ In [] words ->
  forall fuel remaining tokens,
  length remaining < fuel ->
  exists out,
    tokenizeConcatenated_loop fuel words remaining tokens = Some (tokens ++ out)
    /\ Greedy words remaining out.
Proof.
  intros Ho Hne. induction fuel as [|fuel IH]; intros remaining tokens Hf;
    [lia|].
  cbn [tokenizeConcatenated_loop]. destruct remaining as [|c tl].
  - exists []. rewrite app_nil_r. split; [reflexivity|constructor].
  - destruct (find (startsWith (c :: tl)) words) as [w|] eqn:Ef.
    + pose proof (find_some _ _ Ef) as [Hin Hs].
      assert (Hw : w <> []) by (intros ->; contradiction).
      pose proof (startsWith_split _ _ Hs) as Hsplit.
      assert (Hlen : length (skipn (length w) (c :: tl)) < fuel).
      { rewrite length_skipn. destruct w; [congruence|]. cbn [length] in *.
        lia. }
      destruct (IH (skipn (length w) (c :: tl)) (tokens ++ [w]) Hlen)
        as (out & E & G).
      exists (w :: out). rewrite E, <- app_assoc. split; [reflexivity|].
      rewrite Hsplit at 1. apply Greedy_word; try assumption.
      intros w' Hin' Hs'. rewrite <- Hsplit in Hs'.
      apply (@find_first_longest _ words w Ho Ef w' Hin' Hs').
    + destruct (IH tl tokens ltac:(cbn [length] in Hf; lia)) as (out & E & G).
      exists out. split; [exact E|].
      apply Greedy_skip; [|exact G].
      intros w Hin. apply (find_none _ _ Ef w Hin).
Qed.

Lemma Greedy_ext (words words' : list jsstring) (text : jsstring)
  (tokens : list jsstring) :
  (forall w, In w words <-> In w words') ->
  Greedy words text tokens -> Greedy words' text tokens.
Proof.
  intros He. induction 1 as [|w rest tokens Hin Hne Hmax _ IH
                              |c rest tokens Hno _ IH].
  - constructor.
  - apply Greedy_word; [apply He, Hin | exact Hne | | exact IH].
    intros w' Hin'. apply Hmax, He, Hin'.
  - apply Greedy_skip; [|exact IH].
    intros w Hin. apply Hno, He, Hin.
Qed.

Lemma app_same_length (A : Type) (a b c e : list A) :
  a ++ b = c ++ e -> length a = length c -> a = c /\ b = e.
Proof.
  revert c. induction a as [|x a IH]; intros [|y c] H Hl; try discriminate.
  - auto.
  - cbn in H. inversion H; subst. cbn in Hl.
    destruct (IH c H2 ltac:(lia)) as [-> ->]. auto.
Qed.

Lemma Greedy_unique (words : list jsstring) (text : jsstring)
  (t1 : list jsstring) :
  Greedy words text t1 -> forall t2, Greedy words text t2 -> t1 = t2.
Proof.
  induction 1 as [|w rest tokens Hin Hne Hmax G1 IH
                  |c rest tokens Hno G1 IH]; intros t2 G2.
  - inversion G2 as [|w' rest' tokens' Hin' Hne' Hmax' G' E|]; subst;
      [reflexivity|].
    destruct w'; [congruence|discriminate].
  - inversion G2 as [|w' rest' tokens' Hin' Hne' Hmax' G' E
                     |c' rest' tokens' Hno' G' E]; subst.
    + destruct w; [congruence|discriminate].
    + assert (L1 : length w' <= length w).
      { apply Hmax; [exact Hin'|]. rewrite <- E. apply startsWith_app. }
      assert (L2 : length w <= length w').
      { apply Hmax'; [exact Hin|]. rewrite E. apply startsWith_app. }
      destruct (app_same_length _ _ _ _ E ltac:(lia)) as [-> ->].
      f_equal. apply IH, G'.
    + exfalso. specialize (Hno' w Hin). rewrite E in Hno'.
      rewrite startsWith_app in Hno'. discriminate.
  - inversion G2 as [|w' rest' tokens' Hin' Hne' Hmax' G' E
                     |c' rest' tokens' Hno' G' E]; subst.
    + exfalso. specialize (Hno w' Hin'). rewrite <- E in Hno.
      rewrite startsWith_app in Hno. discriminate.
    + apply IH, G'.
Qed.

(** X13.  [tokenizeConcatenated] is longest-match segmentation: when none
    of the words is empty it returns, and its tokens are the one
    segmentation of the normalized input in which, at each position, the
    longest word that starts there is taken and a character at which no
    word starts is skipped.  For a compiled space-free grammar [getTokens]
    gives this segmentation over the number words and the special words,
    the list sorted when the grammar was compiled standing for the sort on
    demand. *)
Theorem concatenated_tokens_are_longest_match :
  (forall input wordMap cs additionalWords,
     ~ In [] (map_keys wordMap ++ additionalWords) ->
     exists tokens,
       tokenizeConcatenated input wordMap cs additionalWords None = Some tokens
       /\ Greedy (map_keys wordMap ++ additionalWords)
            (normalizedText cs input) tokens
       /\ forall tokens',
            Greedy (map_keys wordMap ++ additionalWords)
              (normalizedText cs input) tokens' -> tokens' = tokens)
  /\ (forall d cs words,
        trimMode (buildParserLocaleConfig d cs) = true ->
        ~ In [] (map_keys (wordToNumber (buildParserLocaleConfig d cs))) ->
        getTokensWith (buildParserLocaleConfig d cs) words
        = tokenizeConcatenated (cleanInput words)
            (wordToNumber (buildParserLocaleConfig d cs)) cs
            (specialWords (buildParserLocaleConfig d cs)) None
        /\ ~ In [] (map_keys (wordToNumber (buildParserLocaleConfig d cs))
                    ++ specialWords (buildParserLocaleConfig d cs))).
Proof.
  split.
  - intros input wordMap cs additionalWords Hne.
    unfold tokenizeConcatenated, normalizedText.
    destruct input as [|c s].
    + exists []. split; [reflexivity|].
      assert (Et : (if negb cs then toLowerCase (trim []) else trim []) = [])
        by (destruct cs; reflexivity).
      rewrite Et. split; [constructor|].
      intros tokens' G. apply (Greedy_unique G). constructor.
    + set (text := if negb cs then toLowerCase (trim (c :: s))
                   else trim (c :: s)).
      pose proof (@sort_ordered _ lengthOrder lengthOrder_total
                    lengthOrder_trans (map_keys wordMap ++ additionalWords))
        as [Ho Hm].
      assert (Hne' : ~ In [] (sort lengthOrder
                                (map_keys wordMap ++ additionalWords)))
        by (rewrite Hm; exact Hne).
      destruct (@tokenizeConcatenated_loop_greedy _ Ho Hne'
                  (S (length text)) text [] ltac:(lia)) as (out & E & G).
      exists out. split; [exact E|].
      apply (Greedy_ext _ Hm) in G. split; [exact G|].
      intros tokens' G'. apply (Greedy_unique G' G).
  - intros d cs words Ht Hk. split.
    + unfold getTokensWith. rewrite Ht. unfold tokenizeConcatenated.
      reflexivity.
    + intros Hin. apply in_app_or in Hin. destruct Hin as [Hin|Hin];
        [exact (Hk Hin)|].
      cbn [specialWords buildParserLocaleConfig] in Hin.
      apply filter_In in Hin. destruct Hin as [_ Hin]. discriminate.
Qed.

Lemma concatenated_tokens_are_longest_match_witness :
  exists tokens,
    tokenizeConcatenated (js "onextwo") [(js "one", 1%Z); (js "two", 2%Z)]
      false [] None = Some tokens
    /\ Greedy [js "one"; js "two"] (js "onextwo") tokens.
Proof.
  destruct (proj1 concatenated_tokens_are_longest_match (js "onextwo")
              [(js "one", 1%Z); (js "two", 2%Z)] false [])
    as (tokens & E & G & _).
  - cbn. intros [H|[H|[]]]; discriminate.
  - exists tokens. split; [exact E | exact G].
Defined.


(* ================================================================== *)
(** * Normalized words *)

Lemma dropWhile_map (p : N -> bool) (f : N -> N) (s : jsstring) :
  (forall c, p (f c) = p c) ->
  dropWhile p (map f s) = map f (dropWhile p s).
Proof.
  intros H. induction s as [|c r IH]; [reflexivity|].
  cbn [map dropWhile]. rewrite H. destruct (p c); [exact IH|reflexivity].
Qed.

Lemma trim_toLowerCase (s : jsstring) :
  trim (toLowerCase s) = toLowerCase (trim s).
Proof.
  unfold trim, trimEnd, trimStart, toLowerCase.
  rewrite (dropWhile_map _ _ _ isJsSpace_lowerUnit).
  rewrite <- map_rev, (dropWhile_map _ _ _ isJsSpace_lowerUnit), map_rev.
  reflexivity.
Qed.

Lemma lowerUnit_idem (c : N) : lowerUnit (lowerUnit c) = lowerUnit c.
Proof.
  destruct (lowerUnit_cases c) as [E|(Hc & E)]; rewrite E; [exact E|].
  unfold lowerUnit.
  replace (c + 32 <=? 90)%N with false by (symmetry; apply N.leb_gt; lia).
  rewrite andb_false_r. reflexivity.
Qed.

Lemma toLowerCase_idem (s : jsstring) :
  toLowerCase (toLowerCase s) = toLowerCase s.
Proof.
  unfold toLowerCase. rewrite map_map. apply map_ext, lowerUnit_idem.
Qed.

Lemma trim_idem (s : jsstring) : trim (trim s) = trim s.
Proof. apply tight_trim, trim_tight. Qed.

Lemma normalizeWord_idem (w : jsstring) (cs : bool) :
  normalizeWord (normalizeWord w cs) cs = normalizeWord w cs.
Proof.
  unfold normalizeWord. destruct cs; cbn [negb].
  - apply trim_idem.
  - rewrite trim_toLowerCase, trim_idem. apply toLowerCase_idem.
Qed.

Lemma isPunct_lowerUnit (c : N) : isPunct (lowerUnit c) = isPunct c.
Proof.
  destruct (lowerUnit_cases c) as [->|(Hc & ->)]; [reflexivity|].
  unfold isPunct.
  replace (c + 32 =? 46)%N with false by (symmetry; apply N.eqb_neq; lia).
  replace (c + 32 =? 44)%N with false by (symmetry; apply N.eqb_neq; lia).
  replace (c =? 46)%N with false by (symmetry; apply N.eqb_neq; lia).
  replace (c =? 44)%N with false by (symmetry; apply N.eqb_neq; lia).
  reflexivity.
Qed.

Lemma normalized_shape (K : jsstring) (cs : bool) :
  (normalizeWord K cs <> [] -> trim K <> [])
  /\ (oneWord (normalizeWord K cs) -> oneWord (trim K))
  /\ (noPunctuation (normalizeWord K cs) -> noPunctuation (trim K)).
Proof.
  unfold normalizeWord. destruct cs; cbn [negb]; [auto|].
  unfold toLowerCase, oneWord, noPunctuation. split; [|split].
  - destruct (trim K); [cbn; congruence|discriminate].
  - rewrite Forall_map. apply Forall_impl. intros c.
    rewrite isJsSpace_lowerUnit. auto.
  - rewrite Forall_map. apply Forall_impl. intros c.
    rewrite isPunct_lowerUnit. auto.
Qed.

(* ================================================================== *)
(** * A single word *)

Lemma needsCleaning_word (t : jsstring) :
  oneWord t -> noPunctuation t -> forall b, needsCleaning b t = false.
Proof.
  intros Hw Hp. induction t as [|c r IH]; intros b; [reflexivity|].
  inversion Hw as [|? ? Hc Hr]; inversion Hp as [|? ? Hq Hs]; subst.
  cbn [needsCleaning].
  assert (E : (c =? 32)%N = false).
  { destruct (c =? 32)%N eqn:E; [|reflexivity].
    apply isJsSpace_32 in E. congruence. }
  rewrite E. fold (isPunct c). rewrite Hq. apply (IH Hr Hs).
Qed.

Lemma takeWord_word (t : jsstring) : oneWord t -> takeWord t = t.
Proof.
  induction 1 as [|c r Hc Hr IH]; [reflexivity|].
  cbn [takeWord]. destruct (isAsciiSpace c) eqn:E.
  - apply ascii_is_js_space in E. congruence.
  - rewrite IH. reflexivity.
Qed.

Lemma find_all_false (A : Type) (f : A -> bool) (l : list A) :
  (forall x, In x l -> f x = false) -> find f l = None.
Proof.
  induction l as [|x r IH]; intros H; [reflexivity|].
  cbn [find]. rewrite (H x (or_introl eq_refl)). apply IH.
  intros y Hy. apply H. right. exact Hy.
Qed.

Lemma includesSpace_In (p : jsstring) :
  includesSpace p = true -> In 32%N p.
Proof.
  unfold includesSpace. intros H. apply existsb_exists in H.
  destruct H as (c & Hin & Hc). apply N.eqb_eq in Hc. subst. exact Hin.
Qed.

Lemma skipn_length_all (A : Type) (l : list A) : skipn (length l) l = [].
Proof. apply skipn_all. Qed.

Lemma tokenizeWithPhrases_loop_word (wordMap : WordNumberMap)
  (phrases : list jsstring) (k : jsstring) (fuel : nat) :
  k <> [] -> oneWord k ->
  (forall p, In p phrases -> includesSpace p = true) ->
  map_has wordMap k = true \/ includesHyphen k = false ->
  tokenizeWithPhrases_loop (S (S fuel)) wordMap phrases k [] = Some [k].
Proof.
  intros Hne Hw Hp Hk. destruct k as [|c r]; [congruence|].
  cbn [tokenizeWithPhrases_loop].
  assert (Hc : isAsciiSpace c = false).
  { inversion Hw; subst. destruct (isAsciiSpace c) eqn:E; [|reflexivity].
    apply ascii_is_js_space in E. congruence. }
  cbn [dropWhile]. rewrite Hc.
  assert (Hf : find (phraseMatches (c :: r)) phrases = None).
  { apply find_all_false. intros p Hin. unfold phraseMatches.
    destruct (startsWith (c :: r) p) eqn:Es; [|reflexivity].
    exfalso. apply startsWith_split in Es.
    pose proof (includesSpace_In _ (Hp p Hin)) as H32.
    assert (Hin' : In 32%N (c :: r))
      by (rewrite Es; apply in_or_app; left; exact H32).
    unfold oneWord in Hw. rewrite Forall_forall in Hw.
    specialize (Hw _ Hin'). discriminate. }
  rewrite Hf, (takeWord_word Hw), skipn_length_all.
  cbn [nonEmpty app dropWhile].
  destruct (map_has wordMap (c :: r)); [reflexivity|].
  destruct Hk as [Hk|Hk]; [discriminate|]. rewrite Hk. reflexivity.
Qed.

Lemma single_word_tokens (d : OriginalLocaleConfig) (cs : bool)
  (K : jsstring) :
  trimMode (buildParserLocaleConfig d cs) = false ->
  plainWord (normalizeWord K cs) ->
  map_has (wordToNumber (buildParserLocaleConfig d cs)) (normalizeWord K cs)
  = true
  \/ includesHyphen (normalizeWord K cs) = false ->
  getTokensWith (buildParserLocaleConfig d cs) (JString K)
  = Some [normalizeWord K cs].
Proof.
  intros Ht (Hne & Hw & Hp) Hk.
  destruct (normalized_shape K cs) as (S1 & S2 & S3).
  specialize (S1 Hne). specialize (S2 Hw). specialize (S3 Hp).
  unfold getTokensWith. rewrite Ht.
  assert (Hclean : cleanInput (JString K) = trim K).
  { destruct K as [|c s]; [cbn in S1; congruence|].
    cbn [cleanInput]. rewrite (needsCleaning_word S2 S3). reflexivity. }
  rewrite Hclean. unfold tokenize.
  cbn [tk_caseSensitive tk_wordMap tk_sortedPhrases caseSensitive
       buildParserLocaleConfig].
  destruct (trim K) as [|c s] eqn:Et; [congruence|]. rewrite <- Et.
  rewrite trim_idem. fold (normalizeWord K cs).
  unfold tokenizeWithPhrases.
  destruct (normalizeWord K cs) as [|x k] eqn:Ek; [congruence|].
  cbn [length]. rewrite <- Ek in *.
  apply tokenizeWithPhrases_loop_word; try assumption.
  intros p Hin. apply filter_In in Hin. tauto.
Qed.

(** X14.  A single word is one token: in a compiled grammar that separates
    words by spaces, an input that, once trimmed (and lower-cased unless
    case matters), is one non-empty word without whitespace, full stop or
    comma, and that is a number word of the grammar or has no hyphen,
    tokenizes to exactly that normalized word.  Where case is folded, the
    grammar and the input are made of code units below 128. *)
Theorem single_word_is_one_token (d : OriginalLocaleConfig) (cs : bool)
  (K : jsstring) :
  cs = true \/ (asciiGrammar d = true /\ asciiString K = true) ->
  trimMode (buildParserLocaleConfig d cs) = false ->
  plainWord (normalizeWord K cs) ->
  map_has (wordToNumber (buildParserLocaleConfig d cs)) (normalizeWord K cs)
  = true
  \/ includesHyphen (normalizeWord K cs) = false ->
  getTokensWith (buildParserLocaleConfig d cs) (JString K)
  = Some [normalizeWord K cs].
Proof.
  intros _ Ht Hplain Hk. apply (single_word_tokens d cs K Ht Hplain Hk).
Qed.

Lemma single_word_is_one_token_witness :
  getTokensWith (buildParserLocaleConfig english false) (text "  Hundred ")
  = Some [js "hundred"].
Proof.
  apply (@single_word_is_one_token english false (js "  Hundred ")).
  - right. split; vm_compute; reflexivity.
  - reflexivity.
  - split; [vm_compute; discriminate|].
    split; vm_compute; repeat constructor.
  - left. vm_compute. reflexivity.
Defined.

(* ================================================================== *)
(** * Basic numbers *)

Lemma valid_of_normalized (K : jsstring) (cs : bool) :
  normalizeWord K cs <> [] -> isValidInput (JString K) = true.
Proof.
  intros Hne. destruct (normalized_shape K cs) as (S1 & _).
  destruct (@trim_nonspace _ (S1 Hne)) as (x & Hin & Hx).
  unfold isValidInput. apply existsb_exists. exists x. split; [exact Hin|].
  destruct (isAsciiSpace x) eqn:E; [|reflexivity].
  apply ascii_is_js_space in E. congruence.
Qed.

Lemma parseInteger_single (d : OriginalLocaleConfig) (cs : bool)
  (k : jsstring) (v : Z) :
  map_get (wordToNumber (buildParserLocaleConfig d cs)) k = Some v ->
  includes (andWordsSet (buildParserLocaleConfig d cs)) k = false ->
  includes (impliedDualWords (buildParserLocaleConfig d cs)) k = false ->
  parseIntegerTokens [k] (buildParserLocaleConfig d cs) = Some v.
Proof.
  intros Hv Ha Hd. apply parse_is. unfold ParsesInteger.
  cbn [filter]. unfold notAnd. rewrite Ha. cbn [negb].
  set (config := buildParserLocaleConfig d cs) in *.
  destruct (scaleNumber config k) as [m|] eqn:Es.
  - assert (Em : m = v).
    { unfold scaleNumber in Es. rewrite Hv in Es.
      destruct (num_has (scaleWords config) v); congruence. }
    subst m.
    assert (E : (bareCoefficient config k * v + 0)%Z = v)
      by (unfold bareCoefficient; rewrite Hd; lia).
    assert (Hsup : suppresses config [] = false)
      by (unfold suppresses; apply andb_false_r).
    pose proof (@IV_bare config k [] v 0%Z Es (Forall_nil _) Hsup
                  (IntegerValue_nil config)) as H.
    rewrite E in H. exact H.
  - rewrite <- (sumTokens_single config k Hv).
    apply IV_sum. constructor; [exact Es|constructor].
Qed.

Lemma map_has_of_get (m : WordNumberMap) (k : jsstring) (v : Z) :
  map_get m k = Some v -> map_has m k = true.
Proof. intros H. unfold map_has. rewrite H. reflexivity. Qed.

(** X15.  A number word on its own converts to its number: for an instance
    whose grammar separates words by spaces, outside currency mode, an input
    that normalizes to one word of the compiled word map, without
    whitespace, full stop or comma, converts to the value the map gives the
    word, provided the word is not also an ordinal word, a negation, point
    or conjunction marker, or an implied dual.  The grammar and the input
    are made of code units below 128, where the case folding is that of the
    language. *)
Theorem number_word_round_trip (self : Instance) (d : OriginalLocaleConfig)
  (options : ConverterOptions) (K : jsstring) (v : Z) :
  asciiGrammar d = true -> asciiString K = true ->
  localeClass self = Some d ->
  currencyMode (mergeOptions self options) = false ->
  trimMode (buildParserLocaleConfig d false) = false ->
  plainWord (normalizeWord K false) ->
  numberWordOnly (buildParserLocaleConfig d false) (normalizeWord K false) v ->
  convert self (JString K) options = Returns (inject_Z v).
Proof.
  intros _ _ Hl Hc Ht Hplain (Hv & Ho & Hmi & Hpt & Han & Hdu).
  pose proof Hplain as (Hne & _).
  unfold convert.
  rewrite (valid_of_normalized K false Hne), Hc. cbn [negb].
  rewrite (getParserConfig_set self Hl), (getTokens_set self (JString K) Hl).
  cbn [andThen].
  rewrite (single_word_tokens d false K Ht Hplain
             (or_introl (map_has_of_get _ _ Hv))).
  cbn [lift andThen].
  unfold convertTokens. cbn [length Nat.eqb].
  unfold parseOrdinalFromTokens. cbn [startsWithMinus].
  rewrite Hmi. cbn [Nat.eqb length]. rewrite Ho. cbn [bind].
  unfold parseNumberFromTokens. cbn [startsWithMinus]. rewrite Hmi.
  cbn [negb length].
  assert (Hpoint : findPointIndexInRange [normalizeWord K false] 0 1
                     (buildParserLocaleConfig d false) = None).
  { unfold findPointIndexInRange.
    match goal with |- (if ?b then _ else _) = _ => destruct b end;
      [reflexivity|].
    cbn [slice skipn firstn Nat.sub findIndex]. rewrite Hpt. reflexivity. }
  rewrite Hpoint.
  rewrite (parseInteger_single d false _ Hv Han Hdu). reflexivity.
Qed.

Lemma number_word_round_trip_witness :
  convert (instanceOf english) (text "Hundred") noOptions
  = Returns (inject_Z 100).
Proof.
  apply (@number_word_round_trip (instanceOf english) english noOptions
           (js "Hundred") 100%Z).
  - vm_compute. reflexivity.
  - vm_compute. reflexivity.
  - reflexivity.
  - reflexivity.
  - reflexivity.
  - split; [vm_compute; discriminate|].
    split; vm_compute; repeat constructor.
  - repeat split; vm_compute; reflexivity.
Defined.


(* ================================================================== *)
(** * The words of a compiled grammar *)

Lemma map_has_In (m : WordNumberMap) (k : jsstring) :
  map_has m k = true <-> In k (map_keys m).
Proof.
  unfold map_has, map_keys. induction m as [|[k' v] r IH]; cbn [map_get map In fst].
  - split; [discriminate|tauto].
  - destruct (str_eqb k' k) eqn:E.
    + apply str_eqb_eq in E. split; auto.
    + apply str_eqb_neq in E. rewrite IH. split; [auto|].
      intros [H|H]; [congruence|exact H].
Qed.

Section KeyInvariants.
Variable P : jsstring -> Prop.

Lemma map_set_all (m : WordNumberMap) (k : jsstring) (v : Z) :
  Forall P (map_keys m) -> P k -> Forall P (map_keys (map_set m k v)).
Proof.
  intros Hm Hk. apply Forall_forall. intros x Hx.
  apply map_set_keys in Hx. destruct Hx as [Hx| ->]; [|exact Hk].
  rewrite Forall_forall in Hm. apply Hm, Hx.
Qed.

Lemma fold_all (A : Type) (step : WordNumberMap -> A -> WordNumberMap)
  (l : list A) :
  (forall m a, Forall P (map_keys m) -> Forall P (map_keys (step m a))) ->
  forall m, Forall P (map_keys m) -> Forall P (map_keys (fold_left step l m)).
Proof.
  intros Hstep. induction l as [|a l IH]; cbn [fold_left]; intros m Hm; auto.
Qed.

End KeyInvariants.

Lemma fold_grows (A : Type) (step : WordNumberMap -> A -> WordNumberMap)
  (l : list A) (k : jsstring) :
  (forall m a, In k (map_keys m) -> In k (map_keys (step m a))) ->
  forall m, In k (map_keys m) -> In k (map_keys (fold_left step l m)).
Proof.
  intros Hstep. induction l as [|a l IH]; cbn [fold_left]; intros m Hm; auto.
Qed.

Lemma map_set_grows (m : WordNumberMap) (k k' : jsstring) (v : Z) :
  In k (map_keys m) -> In k (map_keys (map_set m k' v)).
Proof. intros H. apply map_set_keys. left. exact H. Qed.

Lemma normOpt_normalized (cs : bool) (o : option jsstring) (w : jsstring) :
  normOpt cs o = Some w -> normalizeWord w cs = w.
Proof.
  unfold normOpt. destruct (truthy o); [|discriminate].
  destruct o as [s|]; [|discriminate].
  intros H. inversion H; subst. apply normalizeWord_idem.
Qed.

Section Normalized.
Variable cs : bool.

Lemma addNumberWord_normalized (m : WordNumberMap) (a : NumberWordMap) :
  Forall (normalized cs) (map_keys m) ->
  Forall (normalized cs) (map_keys (addNumberWord cs m a)).
Proof.
  intros H. unfold addNumberWord.
  assert (H1 : Forall (normalized cs)
            (map_keys
               (fold_left (fun acc word =>
                             map_set acc (normalizeWord word cs)
                               (toNumber (number a)))
                  (extractWordValue (value a)) m))).
  { apply fold_all; [|exact H]. intros m0 w Hm.
    apply map_set_all; [exact Hm | apply normalizeWord_idem]. }
  destruct (singularValue a) as [[|c s]|]; auto.
  apply map_set_all; [exact H1 | apply normalizeWord_idem].
Qed.

Lemma addExactWord_normalized (m : WordNumberMap) (a : NumberWordMap) :
  Forall (normalized cs) (map_keys m) ->
  Forall (normalized cs) (map_keys (addExactWord cs m a)).
Proof.
  intros H. unfold addExactWord. apply fold_all; [|exact H].
  intros m0 w Hm. destruct (includesSpace w); [exact Hm|].
  apply map_set_all; [exact Hm | apply normalizeWord_idem].
Qed.

Lemma addPluralWord_normalized (mark : jsstring) (m : WordNumberMap)
  (w : jsstring) :
  Forall (normalized cs) (map_keys m) ->
  Forall (normalized cs) (map_keys (addPluralWord cs mark m w)).
Proof.
  intros H. unfold addPluralWord.
  destruct (map_get m (normalizeWord w cs)); [|exact H].
  apply map_set_all; [exact H | apply normalizeWord_idem].
Qed.

Lemma addPluralForms_normalized (m : WordNumberMap)
  (e : Z * PluralFormVariants) :
  Forall (normalized cs) (map_keys m) ->
  Forall (normalized cs) (map_keys (addPluralForms cs m e)).
Proof.
  intros H. destruct e as [n forms]. unfold addPluralForms. cbv zeta.
  destruct (normOpt cs (dual forms)) as [[|c1 s1]|] eqn:E1;
    destruct (normOpt cs (paucal forms)) as [[|c2 s2]|] eqn:E2;
    destruct (normOpt cs (plural forms)) as [[|c3 s3]|] eqn:E3;
    repeat (apply map_set_all;
            [|first [exact (normOpt_normalized _ _ E1)
                    |exact (normOpt_normalized _ _ E2)
                    |exact (normOpt_normalized _ _ E3)]]);
    exact H.
Qed.

Lemma buildWordToNumberMap_normalized (d : OriginalLocaleConfig) :
  Forall (normalized cs) (map_keys (buildWordToNumberMap d cs)).
Proof.
  unfold buildWordToNumberMap.
  assert (H0 : Forall (normalized cs)
            (map_keys (fold_left (addNumberWord cs) (numberWordsMapping d) [])))
    by (apply fold_all; [apply addNumberWord_normalized | constructor]).
  set (m0 := fold_left (addNumberWord cs) (numberWordsMapping d) []) in *.
  assert (H1 : Forall (normalized cs)
            (map_keys (match exactWordsMapping d with
                       | Some l => fold_left (addExactWord cs) l m0
                       | None => m0
                       end))).
  { destruct (exactWordsMapping d); [|exact H0].
    apply fold_all; [apply addExactWord_normalized | exact H0]. }
  set (m1 := match exactWordsMapping d with
             | Some l => fold_left (addExactWord cs) l m0
             | None => m0
             end) in *.
  assert (H2 : Forall (normalized cs)
            (map_keys (match pluralMark d, pluralWords d with
                       | Some (c :: mark), Some words =>
                           fold_left (addPluralWord cs (c :: mark)) words m1
                       | _, _ => m1
                       end))).
  { destruct (pluralMark d) as [[|c mark]|]; try exact H1.
    destruct (pluralWords d); [|exact H1].
    apply fold_all; [apply addPluralWord_normalized | exact H1]. }
  destruct (pluralForms d); [|exact H2].
  apply fold_all; [apply addPluralForms_normalized | exact H2].
Qed.

Lemma addOrdinalWord_normalized (m : WordNumberMap) (a : NumberWordMap) :
  Forall (normalized cs) (map_keys m) ->
  Forall (normalized cs) (map_keys (addOrdinalWord cs m a)).
Proof.
  intros H. unfold addOrdinalWord. apply fold_all; [|exact H].
  intros m0 w Hm. apply map_set_all; [exact Hm | apply normalizeWord_idem].
Qed.

Lemma buildOrdinalWordToNumberMap_normalized (d : OriginalLocaleConfig) :
  Forall (normalized cs) (map_keys (buildOrdinalWordToNumberMap d cs)).
Proof.
  unfold buildOrdinalWordToNumberMap.
  assert (H0 : Forall (normalized cs)
            (map_keys (match ordinalWordsMapping d with
                       | Some l => fold_left (addOrdinalWord cs) l []
                       | None => []
                       end))).
  { destruct (ordinalWordsMapping d); [|constructor].
    apply fold_all; [apply addOrdinalWord_normalized | constructor]. }
  destruct (ordinalExactWordsMapping d); [|exact H0].
  apply fold_all; [apply addOrdinalWord_normalized | exact H0].
Qed.

Lemma marker_normalized (s : jsstring) : Forall (normalized cs) (marker cs s).
Proof.
  unfold marker. destruct (nonEmpty s); [|constructor].
  constructor; [apply normalizeWord_idem | constructor].
Qed.

Lemma pushUnit_normalized (acc : list jsstring) (o : option jsstring) :
  Forall (normalized cs) acc -> Forall (normalized cs) (pushUnit cs acc o).
Proof.
  intros H. unfold pushUnit. destruct o as [[|c s]|]; try exact H.
  apply Forall_app. split; [exact H|].
  constructor; [apply normalizeWord_idem | constructor].
Qed.

Lemma unitWords_normalized (u : UnitNames) :
  Forall (normalized cs) (unitWords cs u).
Proof.
  unfold unitWords. repeat apply pushUnit_normalized. constructor.
Qed.

(** The listed number words are keys. *)

Lemma addNumberWord_grows (k : jsstring) (m : WordNumberMap)
  (a : NumberWordMap) :
  In k (map_keys m) -> In k (map_keys (addNumberWord cs m a)).
Proof.
  intros H. unfold addNumberWord.
  assert (H1 : In k (map_keys
            (fold_left (fun acc word =>
                          map_set acc (normalizeWord word cs)
                            (toNumber (number a)))
               (extractWordValue (value a)) m))).
  { apply fold_grows; [|exact H]. intros. apply map_set_grows. assumption. }
  destruct (singularValue a) as [[|c s]|]; auto.
  apply map_set_grows. exact H1.
Qed.

Lemma addExactWord_grows (k : jsstring) (m : WordNumberMap)
  (a : NumberWordMap) :
  In k (map_keys m) -> In k (map_keys (addExactWord cs m a)).
Proof.
  intros H. unfold addExactWord. apply fold_grows; [|exact H].
  intros m0 w Hm. destruct (includesSpace w); [exact Hm|].
  apply map_set_grows. exact Hm.
Qed.

Lemma addPluralWord_grows (k mark : jsstring) (m : WordNumberMap)
  (w : jsstring) :
  In k (map_keys m) -> In k (map_keys (addPluralWord cs mark m w)).
Proof.
  intros H. unfold addPluralWord.
  destruct (map_get m (normalizeWord w cs)); [|exact H].
  apply map_set_grows. exact H.
Qed.

Lemma addPluralForms_grows (k : jsstring) (m : WordNumberMap)
  (e : Z * PluralFormVariants) :
  In k (map_keys m) -> In k (map_keys (addPluralForms cs m e)).
Proof.
  intros H. destruct e as [n forms]. unfold addPluralForms. cbv zeta.
  destruct (normOpt cs (dual forms)) as [[|c1 s1]|];
    destruct (normOpt cs (paucal forms)) as [[|c2 s2]|];
    destruct (normOpt cs (plural forms)) as [[|c3 s3]|];
    repeat apply map_set_grows; exact H.
Qed.

Lemma fold_set_adds (words : list jsstring) (v : Z) (w : jsstring) :
  In w words ->
  forall m,
  In (normalizeWord w cs)
    (map_keys (fold_left (fun acc word => map_set acc (normalizeWord word cs) v)
                 words m)).
Proof.
  induction words as [|x r IH]; intros Hin m; [contradiction|].
  cbn [fold_left]. destruct Hin as [->|Hin]; [|apply IH, Hin].
  apply fold_grows; [intros; apply map_set_grows; assumption|].
  apply map_set_keys. right. reflexivity.
Qed.

Lemma addNumberWord_adds (m : WordNumberMap) (a : NumberWordMap)
  (w : jsstring) :
  In w (extractWordValue (value a))
  \/ (w <> [] /\ singularValue a = Some w) ->
  In (normalizeWord w cs) (map_keys (addNumberWord cs m a)).
Proof.
  intros H. unfold addNumberWord. destruct H as [H|(Hne & Hs)].
  - assert (H1 := fold_set_adds _ (toNumber (number a)) _ H m).
    destruct (singularValue a) as [[|c s]|]; auto.
    apply map_set_grows. exact H1.
  - rewrite Hs. destruct w as [|c s]; [congruence|].
    apply map_set_keys. right. reflexivity.
Qed.

Lemma numberWords_listed (l : list NumberWordMap) (a : NumberWordMap)
  (w : jsstring) :
  In a l ->
  In w (extractWordValue (value a))
  \/ (w <> [] /\ singularValue a = Some w) ->
  forall m,
  In (normalizeWord w cs) (map_keys (fold_left (addNumberWord cs) l m)).
Proof.
  induction l as [|x r IH]; intros Hin Hw m; [contradiction|].
  cbn [fold_left]. destruct Hin as [->|Hin]; [|apply (IH Hin Hw)].
  apply fold_grows; [intros; apply addNumberWord_grows; assumption|].
  apply addNumberWord_adds, Hw.
Qed.

Lemma buildWordToNumberMap_listed (d : OriginalLocaleConfig)
  (a : NumberWordMap) (w : jsstring) :
  In a (numberWordsMapping d) ->
  In w (extractWordValue (value a))
  \/ (w <> [] /\ singularValue a = Some w) ->
  In (normalizeWord w cs) (map_keys (buildWordToNumberMap d cs)).
Proof.
  intros Hin Hw. unfold buildWordToNumberMap.
  pose proof (numberWords_listed _ _ Hin Hw []) as H0.
  set (m0 := fold_left (addNumberWord cs) (numberWordsMapping d) []) in *.
  assert (H1 : In (normalizeWord w cs)
            (map_keys (match exactWordsMapping d with
                       | Some l => fold_left (addExactWord cs) l m0
                       | None => m0
                       end))).
  { destruct (exactWordsMapping d); [|exact H0].
    apply fold_grows; [intros; apply addExactWord_grows; assumption|exact H0]. }
  set (m1 := match exactWordsMapping d with
             | Some l => fold_left (addExactWord cs) l m0
             | None => m0
             end) in *.
  assert (H2 : In (normalizeWord w cs)
            (map_keys (match pluralMark d, pluralWords d with
                       | Some (c :: mark), Some words =>
                           fold_left (addPluralWord cs (c :: mark)) words m1
                       | _, _ => m1
                       end))).
  { destruct (pluralMark d) as [[|c mark]|]; try exact H1.
    destruct (pluralWords d); [|exact H1].
    apply fold_grows; [intros; apply addPluralWord_grows; assumption|exact H1]. }
  destruct (pluralForms d); [|exact H2].
  apply fold_grows; [intros; apply addPluralForms_grows; assumption|exact H2].
Qed.

End Normalized.

(** X16.  What the grammar compiler stores.  Every word listed in
    [numberWordsMapping] (either form of a pair, and a non-empty
    [singularValue]) is a key of the compiled word map under its
    normalized spelling.  Every key of the word map and of the ordinal map,
    every marker word and every currency unit word of the compiled grammar
    is normalized (trimmed, and lower-cased unless case matters), so the
    tokens of a normalized input can match them; no key is stored twice.
    Where case is folded, the strings of the grammar are made of code units
    below 128. *)
Theorem compiled_words_are_normalized (d : OriginalLocaleConfig) (cs : bool) :
  foldingModelled cs d ->
  (forall a w,
     In a (numberWordsMapping d) ->
     In w (extractWordValue (value a))
     \/ (w <> [] /\ singularValue a = Some w) ->
     map_has (wordToNumber (buildParserLocaleConfig d cs)) (normalizeWord w cs)
     = true)
  /\ Forall (normalized cs)
       (map_keys (wordToNumber (buildParserLocaleConfig d cs))
        ++ map_keys (ordinalWordToNumber (buildParserLocaleConfig d cs))
        ++ and_words (markers (buildParserLocaleConfig d cs))
        ++ minus_words (markers (buildParserLocaleConfig d cs))
        ++ point_words (markers (buildParserLocaleConfig d cs))
        ++ only_words (markers (buildParserLocaleConfig d cs))
        ++ mainUnit (currencyWords (buildParserLocaleConfig d cs))
        ++ fractionalUnit (currencyWords (buildParserLocaleConfig d cs)))
  /\ NoDup (map_keys (wordToNumber (buildParserLocaleConfig d cs))).
Proof.
  intros _.
  cbn [wordToNumber ordinalWordToNumber markers and_words minus_words
       point_words only_words currencyWords buildParserLocaleConfig].
  split; [|split].
  - intros a w Hin Hw. apply map_has_In.
    apply (buildWordToNumberMap_listed cs d a Hin Hw).
  - repeat (apply Forall_app; split);
      first [apply buildWordToNumberMap_normalized
            |apply buildOrdinalWordToNumberMap_normalized
            |apply marker_normalized
            |apply unitWords_normalized].
  - apply buildWordToNumberMap_NoDup.
Qed.

Lemma compiled_words_are_normalized_witness :
  map_has (wordToNumber (buildParserLocaleConfig english false))
    (normalizeWord (js "Hundred") false) = true.
Proof.
  assert (H : foldingModelled false english)
    by (right; vm_compute; reflexivity).
  apply (proj1 (@compiled_words_are_normalized english false H)
           (word 100 "Hundred") (js "Hundred")).
  - cbn. tauto.
  - left. cbn. tauto.
Defined.


(* ================================================================== *)
(** * Currency unit overrides *)

Lemma find_append (A : Type) (f : A -> bool) (a b : list A) :
  find f (a ++ b)
  = match find f a with
    | Some x => Some x
    | None => find f b
    end.
Proof.
  induction a as [|x a IH]; [reflexivity|].
  cbn [app find]. destruct (f x); [reflexivity|exact IH].
Qed.

Lemma find_dedupe_acc (P : jsstring -> bool) (l : list jsstring) :
  forall acc,
  find P (fold_left str_add l acc)
  = match find P acc with
    | Some x => Some x
    | None => find P l
    end.
Proof.
  induction l as [|w r IH]; intros acc; cbn [fold_left].
  - destruct (find P acc); reflexivity.
  - rewrite IH. unfold str_add. destruct (includes acc w) eqn:Ei.
    + destruct (find P acc) eqn:Ef; [reflexivity|].
      apply includes_In in Ei. cbn [find].
      rewrite (find_none _ _ Ef w Ei). reflexivity.
    + rewrite find_append. destruct (find P acc); [reflexivity|].
      cbn [find]. destruct (P w); reflexivity.
Qed.

Lemma find_dedupe (P : jsstring -> bool) (l : list jsstring) :
  find P (dedupe l) = find P l.
Proof. unfold dedupe. rewrite find_dedupe_acc. reflexivity. Qed.

Lemma find_filter (A : Type) (P g : A -> bool) (l : list A) :
  find P (filter g l) = find (fun x => g x && P x) l.
Proof.
  induction l as [|x r IH]; [reflexivity|].
  cbn [filter find]. destruct (g x); cbn [andb find]; [|exact IH].
  destruct (P x); [reflexivity|exact IH].
Qed.

Lemma find_map (A B : Type) (P : B -> bool) (h : A -> B) (l : list A) :
  find P (map h l)
  = match find (fun x => P (h x)) l with
    | Some x => Some (h x)
    | None => None
    end.
Proof.
  induction l as [|x r IH]; [reflexivity|].
  cbn [map find]. destruct (P (h x)); [reflexivity|exact IH].
Qed.

Lemma find_multi_dedupe (P : list jsstring -> bool) (units : list jsstring) :
  find P (map splitSpace (filter includesSpace (dedupe units)))
  = find P (map splitSpace (filter includesSpace units)).
Proof. rewrite !find_map, !find_filter, find_dedupe. reflexivity. Qed.

Lemma singleUnits_acc (units : list jsstring) : forall acc t,
  In t (fold_left (fun acc u => if includesSpace u then acc else str_add acc u)
          units acc)
  <-> In t acc \/ (In t units /\ includesSpace t = false).
Proof.
  induction units as [|u r IH]; intros acc t; cbn [fold_left].
  - cbn. tauto.
  - rewrite IH. destruct (includesSpace u) eqn:E; cbn [In].
    + split; [tauto|]. intros [H|[[->|H] H']]; auto. congruence.
    + rewrite str_add_In. split.
      * intros [[H| ->]|H]; auto. tauto.
      * intros [H|[[->|H] H']]; auto.
Qed.

Lemma single_set_same (units : list jsstring) (t : jsstring) :
  includes (dedupe (filter (fun u => negb (includesSpace u)) (dedupe units))) t
  = includes (singleUnits units) t.
Proof.
  assert (H : In t (dedupe (filter (fun u => negb (includesSpace u))
                              (dedupe units)))
              <-> In t (singleUnits units)).
  { unfold dedupe at 1. rewrite dedupe_In, filter_In. unfold dedupe.
    rewrite dedupe_In. unfold singleUnits. rewrite singleUnits_acc.
    cbn [In]. rewrite negb_true_iff. tauto. }
  destruct (includes (singleUnits units) t) eqn:E.
  - apply includes_In, H, includes_In, E.
  - destruct (includes (dedupe (filter (fun u => negb (includesSpace u))
                                  (dedupe units))) t) eqn:E'; [|reflexivity].
    apply includes_In, H, includes_In in E'. congruence.
Qed.

Lemma findCurrencyUnitLoop_ext (tokens : list jsstring) (stop : nat)
  (s1 s2 : list jsstring) (m1 m2 : list (list jsstring)) :
  (forall t, includes s1 t = includes s2 t) ->
  (forall i, find (matchesAt tokens i stop) m1
             = find (matchesAt tokens i stop) m2) ->
  forall count i,
  findCurrencyUnitLoop count i tokens stop s1 m1
  = findCurrencyUnitLoop count i tokens stop s2 m2.
Proof.
  intros Hs Hm. induction count as [|count IH]; intros i; [reflexivity|].
  cbn [findCurrencyUnitLoop]. rewrite Hm.
  destruct (find (matchesAt tokens i stop) m2); [reflexivity|].
  destruct (nth_error tokens i) as [t|]; [rewrite Hs|]; rewrite IH;
    reflexivity.
Qed.

Lemma override_members (config : ParserLocaleConfig)
  (options : ConverterOptions) (u : jsstring) :
  (In u (mainUnit (getCurrencyConfig config options))
   <-> In u (overrideMain options) \/ In u (mainUnit (currencyWords config)))
  /\ (In u (fractionalUnit (getCurrencyConfig config options))
      <-> In u (overrideFractional options)
          \/ In u (fractionalUnit (currencyWords config))).
Proof.
  unfold getCurrencyConfig, overrideMain, overrideFractional.
  destruct (opt_currencyOptions options) as [|[co|]]; cbn [mainUnit fractionalUnit];
    try (cbn [In]; tauto).
  unfold dedupe. rewrite !dedupe_In, !in_app_iff. cbn [In]. tauto.
Qed.

(** X17.  Currency unit overrides extend the grammar.  The unit words used
    for a call are the override's names (lower-cased) and, besides, the
    grammar's own unit words: an override never removes one.  An override
    that names no unit changes nothing: for a compiled grammar the parse
    is the one without the override (the sets built for the call find the
    units the precomputed sets find). *)
Theorem currency_override_extends :
  (forall config options u,
     (In u (mainUnit (getCurrencyConfig config options))
      <-> In u (overrideMain options) \/ In u (mainUnit (currencyWords config)))
     /\ (In u (fractionalUnit (getCurrencyConfig config options))
         <-> In u (overrideFractional options)
             \/ In u (fractionalUnit (currencyWords config))))
  /\ (forall d cs tokens options,
        overrideMain options = [] -> overrideFractional options = [] ->
        parseCurrencyTokens tokens (buildParserLocaleConfig d cs) options
        = parseCurrencyTokens tokens (buildParserLocaleConfig d cs)
            (withoutOverride options)).
Proof.
  split; [apply override_members|].
  intros d cs tokens options Hm Hf.
  assert (Hu : forall s e,
            findUnitMatches tokens s e (buildParserLocaleConfig d cs) options
            = findUnitMatches tokens s e (buildParserLocaleConfig d cs)
                (withoutOverride options)).
  { intros s e. unfold findUnitMatches.
    cbn [withoutOverride opt_currencyOptions defined negb].
    destruct (opt_currencyOptions options) as [|[co|]] eqn:Eo;
      cbn [defined negb]; try reflexivity.
    unfold getCurrencyConfig, overrideMain, overrideFractional in *.
    rewrite Eo in *. rewrite Hm, Hf. cbn [app mainUnit fractionalUnit].
    unfold findCurrencyUnitInRange.
    cbn [mainUnitSet fractionalUnitSet mainUnitMultiWord
         fractionalUnitMultiWord currencyWords buildParserLocaleConfig].
    unfold multiUnits. f_equal.
    - apply findCurrencyUnitLoop_ext.
      + intros t. apply single_set_same.
      + intros i. apply find_multi_dedupe.
    - apply findCurrencyUnitLoop_ext.
      + intros t. apply single_set_same.
      + intros i. apply find_multi_dedupe. }
  unfold parseCurrencyTokens. rewrite Hu. reflexivity.
Qed.

Lemma currency_override_extends_witness :
  parseCurrencyTokens [js "two"; js "dollars"]
    (buildParserLocaleConfig english false)
    {| opt_currency := Present (Some true);
       opt_currencyOptions :=
         Present (Some {| ov_main := {| ov_name := None; ov_plural := None;
                                        ov_singular := None |};
                          ov_fractionalUnit := None |});
       opt_fractionalPrecision := Absent |}
  = parseCurrencyTokens [js "two"; js "dollars"]
      (buildParserLocaleConfig english false) currencyOn.
Proof.
  apply (proj2 currency_override_extends english false
           [js "two"; js "dollars"]
           {| opt_currency := Present (Some true);
              opt_currencyOptions :=
                Present (Some {| ov_main := {| ov_name := None;
                                               ov_plural := None;
                                               ov_singular := None |};
                                 ov_fractionalUnit := None |});
              opt_fractionalPrecision := Absent |});
    reflexivity.
Defined.

(* ================================================================== *)
(** * Word variations *)

Lemma endsWith_unit (w : jsstring) (c : N) :
  endsWith w [c] = true -> w = firstn (length w - 1) w ++ [c].
Proof.
  unfold endsWith. cbn [rev app]. intros H.
  destruct (rev w) as [|x t] eqn:E; [discriminate|].
  cbn [startsWith] in H. apply andb_true_iff in H. destruct H as [H _].
  apply N.eqb_eq in H. subst x.
  assert (Hw : w = rev t ++ [c]).
  { rewrite <- (rev_involutive w), E. reflexivity. }
  rewrite Hw at 2 3. rewrite length_app. cbn [length].
  replace (length (rev t) + 1 - 1) with (length (rev t)) by lia.
  rewrite firstn_app, firstn_all, Nat.sub_diag. cbn [firstn].
  rewrite app_nil_r. exact Hw.
Qed.

(** X18.  For a word made of code units below 128, [getWordVariations]
    returns the word itself first, followed by at most two more strings,
    each either the lower-cased word or the word without a final "s"; no
    string is returned twice. *)
Theorem word_variations_are_distinct (word : jsstring) :
  asciiString word = true ->
  exists rest,
    getWordVariations word = word :: rest
    /\ length rest <= 2
    /\ NoDup (word :: rest)
    /\ forall v, In v rest -> v = toLowerCase word \/ word = v ++ [115%N].
Proof.
  intros _. unfold getWordVariations.
  assert (Hlen : length (toLowerCase word) = length word)
    by apply length_map.
  destruct (str_eqb (toLowerCase word) word) eqn:El; cbn [negb];
    destruct (endsWith word [115%N] && (2 <? length word)) eqn:Es.
  - apply andb_true_iff in Es. destruct Es as [Es Hl]. apply Nat.ltb_lt in Hl.
    pose proof (endsWith_unit _ _ Es) as Hw.
    exists [firstn (length word - 1) word]. cbn [app length].
    split; [reflexivity|]. split; [lia|]. split.
    + constructor; [|constructor; [intros []|constructor]].
      intros [H|[]]. apply (f_equal (@length N)) in H.
      rewrite length_firstn in H. lia.
    + intros v [<-|[]]. right. exact Hw.
  - exists []. cbn. split; [reflexivity|]. split; [lia|].
    split; [constructor; [intros []|constructor]|intros v []].
  - apply andb_true_iff in Es. destruct Es as [Es Hl]. apply Nat.ltb_lt in Hl.
    pose proof (endsWith_unit _ _ Es) as Hw. apply str_eqb_neq in El.
    exists [toLowerCase word; firstn (length word - 1) word].
    cbn [app length]. split; [reflexivity|]. split; [lia|]. split.
    + constructor.
      * intros [H|[H|[]]]; [congruence|].
        apply (f_equal (@length N)) in H. rewrite length_firstn in H. lia.
      * constructor; [|constructor; [intros []|constructor]].
        intros [H|[]]. apply (f_equal (@length N)) in H.
        rewrite length_firstn in H. lia.
    + intros v [<-|[<-|[]]]; [left; reflexivity | right; exact Hw].
  - apply str_eqb_neq in El. exists [toLowerCase word]. cbn [app length].
    split; [reflexivity|]. split; [lia|]. split.
    + constructor; [|constructor; [intros []|constructor]].
      intros [H|[]]. congruence.
    + intros v [<-|[]]. left. reflexivity.
Qed.

Lemma word_variations_are_distinct_witness :
  exists rest,
    getWordVariations (js "Dollars") = js "Dollars" :: rest
    /\ NoDup (js "Dollars" :: rest).
Proof.
  destruct (@word_variations_are_distinct (js "Dollars")) as (rest & E & _ & H & _).
  - vm_compute. reflexivity.
  - exists rest. split; assumption.
Defined.

(* ================================================================== *)
(** * Input that cleans to nothing *)

Lemma no_tokens_of_nothing (config : ParserLocaleConfig) (words : jsvalue) :
  cleanInput words = [] -> getTokensWith config words = Some [].
Proof.
  intros H. unfold getTokensWith. rewrite H.
  destruct (trimMode config); reflexivity.
Qed.

(** X19.  A valid input that cleans to the empty string (a lone full stop
    or comma, a no-break space) is no error: on an instance with a locale
    [convert] returns 0 and [parse] a result of value 0 that is not
    negative, in currency mode as well. *)
Theorem empty_after_cleaning_gives_zero (self : Instance)
  (d : OriginalLocaleConfig) (words : jsvalue) (options : ConverterOptions) :
  localeClass self = Some d ->
  isValidInput words = true ->
  cleanInput words = [] ->
  convert self words options = Returns 0%Q
  /\ exists r, parse self words options = Returns r
               /\ res_value r = 0%Q /\ isNegative r = false.
Proof.
  intros Hl Hv Hc. unfold convert, parse, parseCurrency.
  rewrite Hv, (getParserConfig_set self Hl), (getTokens_set self words Hl).
  rewrite (no_tokens_of_nothing _ _ Hc). cbn [negb andThen lift].
  destruct (currencyMode (mergeOptions self options)).
  - cbn. split; [reflexivity|]. eexists. split; [reflexivity|].
    split; reflexivity.
  - cbn. split; [reflexivity|]. eexists. split; [reflexivity|].
    split; reflexivity.
Qed.

Lemma empty_after_cleaning_gives_zero_witness :
  convert (instanceOf english) (text ".") noOptions = Returns 0%Q
  /\ convert (instanceOf english) (JString [160%N]) currencyOn = Returns 0%Q.
Proof.
  split.
  - apply (@empty_after_cleaning_gives_zero (instanceOf english) english
             (text ".") noOptions); reflexivity.
  - apply (@empty_after_cleaning_gives_zero (instanceOf english) english
             (JString [160%N]) currencyOn); reflexivity.
Defined.
